(** * OAuth credential lifecycle of the Workspace MCP server

    A shallow embedding of
      - [workspace-mcp-server/src/auth/AuthManager.ts]
      - [workspace-mcp-server/src/auth/token-storage/oauth-credential-storage.ts]
    together with models of the collaborators these two files call
    (token storage back ends, encryption primitive, browser launcher).

    The asynchronous TypeScript code is embedded as a state-and-error monad
    over an explicit [World]: the heap of OAuth2 client objects, the
    manager's [client] field, the persisted token map and the trace of
    externally visible events.  Everything the environment decides (the
    environment variables, the port the OS assigns, the random bytes, whether
    the bind succeeds and, if not, whether its error finds a handler, which
    of the callback request and the timer comes first) is an explicit
    input.

    The string utilities the services share, in
      - [workspace-mcp-server/src/utils/DriveQueryBuilder.ts]
      - [workspace-mcp-server/src/utils/IdUtils.ts]
      - [workspace-mcp-server/src/utils/validation.ts]
      - [workspace-mcp-server/src/utils/markdownToDocsRequests.ts]
    and the loop of [DocsService.replaceText] that collects occurrences,
    are embedded as functions on strings. *)

From Stdlib Require Import ZArith NArith String Ascii List Lia Bool DecimalString.
From stdpp Require Import base option list gmap strings.

Local Open Scope string_scope.
Local Open Scope Z_scope.

(* ===================================================================== *)
(** * Part I: definitions                                                 *)
(* ===================================================================== *)

(** ** JavaScript primitives used by the sources *)

Module JS.

(** A JavaScript number as far as the sources use one: the result of
    [parseInt], which is either [NaN] or an integer.  [Int z] carries the
    mathematical value of the digits read; it is the value of the double
    whenever [|z| <= 2^53], and comparing it with 0 and 65535 gives the
    same answer as comparing the rounded double. *)
Inductive number : Type :=
| NaN
| Int (z : Z).

Definition isNaN (n : number) : bool :=
  match n with NaN => true | Int _ => false end.

(** [n <= z] and [n > z] for an integer [z]: both false for [NaN]. *)
Definition leb (n : number) (z : Z) : bool :=
  match n with NaN => false | Int x => x <=? z end.

Definition gtb (n : number) (z : Z) : bool :=
  match n with NaN => false | Int x => z <? x end.

(** The integer a number is, once it is known not to be [NaN]. *)
Definition toZ (n : number) : Z :=
  match n with NaN => 0 | Int x => x end.

(** Truthiness of a number: [0] and [NaN] are falsy. *)
Definition truthy_num (n : number) : bool :=
  match n with NaN => false | Int z => negb (z =? 0) end.

(** Truthiness of a value that is a string, [null] or [undefined]
    ([None] stands for both [null] and [undefined]). *)
Definition truthy (v : option string) : bool :=
  match v with
  | Some s => negb (String.eqb s EmptyString)
  | None => false
  end.

(** [v || undefined] on such a value. *)
Definition or_undefined (v : option string) : option string :=
  if truthy v then v else None.

(** [s || undefined] on a string. *)
Definition str_or_undefined (s : string) : option string :=
  or_undefined (Some s).

(** [v || d] on such a value, [d] a string. *)
Definition or_default (v : option string) (d : string) : string :=
  match or_undefined v with Some s => s | None => d end.

(** [n || undefined] on an optional number. *)
Definition num_or_undefined (n : option number) : option number :=
  match n with
  | Some n => if truthy_num n then Some n else None
  | None => None
  end.

(** [s.startsWith(p)] *)
Definition startsWith (s p : string) : bool := String.prefix p s.

(** [s.includes(p)] *)
Definition includes (s p : string) : bool :=
  match String.index 0 p s with Some _ => true | None => false end.

(** [s.split(sep)] for a one-character separator: never empty, the empty
    string splits into one empty segment. *)
Fixpoint split (sep : ascii) (s : string) : list string :=
  match s with
  | EmptyString => [EmptyString]
  | String c rest =>
      if Ascii.eqb c sep then EmptyString :: split sep rest
      else match split sep rest with
           | [] => [String c EmptyString]
           | seg :: segs => String c seg :: segs
           end
  end.

(** White space skipped by [parseInt]: the code units of ECMAScript's
    StrWhiteSpaceChar that fit in eight bits (TAB, LF, VT, FF, CR, SP,
    NBSP). *)
Definition is_white_space (c : ascii) : bool :=
  let n := N_of_ascii c in
  ((9 <=? n) && (n <=? 13) || (n =? 32) || (n =? 160))%N.

Fixpoint trimStart (s : string) : string :=
  match s with
  | String c rest => if is_white_space c then trimStart rest else s
  | EmptyString => EmptyString
  end.

Definition digit_value (c : ascii) : option Z :=
  let n := Z.of_N (N_of_ascii c) in
  if (48 <=? n) && (n <=? 57) then Some (n - 48) else None.

(** The longest prefix of decimal digits, as a number; [None] when the
    string does not start with a digit. *)
Fixpoint digits (s : string) (acc : option Z) : option Z :=
  match s with
  | String c rest =>
      match digit_value c with
      | Some d => digits rest (Some (10 * default 0 acc + d))
      | None => acc
      end
  | EmptyString => acc
  end.

(** [parseInt(s, 10)]: leading white space, an optional sign, then the
    longest run of decimal digits; whatever follows is ignored. *)
Definition parseInt (s : string) : number :=
  let t := trimStart s in
  let '(sign, body) :=
    match t with
    | String "-" r => (-1, r)
    | String "+" r => (1, r)
    | _ => (1, t)
    end in
  match digits body None with
  | Some n => Int (sign * n)
  | None => NaN
  end.

#[global] Instance byte_eq_decision : EqDecision Byte.byte := Byte.byte_eq_dec.

(** [buf.toString('hex')] *)
Definition hex_digit (n : N) : ascii :=
  match String.get (N.to_nat n) "0123456789abcdef" with
  | Some c => c
  | None => "0"%char
  end.

Definition hex_of_byte (b : Byte.byte) : string :=
  let n := Byte.to_N b in
  String (hex_digit (n / 16)) (String (hex_digit (n mod 16)) EmptyString).

Fixpoint hex (bs : list Byte.byte) : string :=
  match bs with
  | [] => EmptyString
  | b :: bs => hex_of_byte b +:+ hex bs
  end.

(** Value of a hexadecimal digit, either case. *)
Definition hex_value (c : ascii) : option N :=
  let n := N_of_ascii c in
  (if (48 <=? n) && (n <=? 57) then Some (n - 48)
   else if (97 <=? n) && (n <=? 102) then Some (n - 87)
   else if (65 <=? n) && (n <=? 70) then Some (n - 55)
   else None)%N.

(** Decoding of a hexadecimal string: pairs of digits, nothing else. *)
Fixpoint unhex (s : string) : option (list Byte.byte) :=
  match s with
  | EmptyString => Some []
  | String c1 (String c2 rest) =>
      match hex_value c1, hex_value c2, unhex rest with
      | Some h, Some l, Some bs =>
          match Byte.of_N (16 * h + l) with
          | Some b => Some (b :: bs)
          | None => None
          end
      | _, _, _ => None
      end
  | String _ EmptyString => None
  end.

End JS.

(** ** Data model *)

(** Credentials as the OAuth2 client of the Google library holds them
    ([Credentials] of google-auth-library).  [None] is [null] or
    [undefined]. *)
Module Google.

Record Credentials : Type := {
  access_token : option string;
  refresh_token : option string;
  scope : option string;
  token_type : option string;
  expiry_date : option JS.number;
}.

(** The credentials of a client made by [new google.auth.OAuth2(options)]. *)
Definition no_credentials : Credentials :=
  {| access_token := None; refresh_token := None; scope := None;
     token_type := None; expiry_date := None |}.

End Google.

(** The storage schema and the storage back end. *)
Module TokenStorage.

Record OAuthToken : Type := {
  accessToken : option string;
  refreshToken : option string;
  tokenType : string;
  scope : option string;
  expiresAt : option JS.number;
}.

Record OAuthCredentials : Type := {
  serverName : string;
  token : OAuthToken;
  updatedAt : Z;
}.

(** Modelled from the spec: the credential check of the storage back ends
    (base-token-storage.ts is missing; its tests are under src/): the
    server name is non-empty, one of access and refresh token is present,
    the token type is non-empty.  [None] when the credentials are valid,
    the error message otherwise. *)
Definition validateCredentials (c : OAuthCredentials) : option string :=
  if String.eqb (serverName c) EmptyString then Some "Server name is required"
  else if negb (JS.truthy (accessToken (token c)) || JS.truthy (refreshToken (token c)))
  then Some "Access token or refresh token is required"
  else if String.eqb (tokenType (token c)) EmptyString then Some "Token type is required"
  else None.

(** Modelled from the spec: the store selected by [HybridTokenStorage]
    (hybrid-token-storage.ts, file-token-storage.ts and
    keychain-token-storage.ts are missing), as the map serverName ->
    credentials with the operations of the spec's CRUD contract:
    [getCredentials] returns null for an absent entry, [setCredentials]
    validates and then merges the entry into the map, [deleteCredentials]
    throws "not found" for an absent entry. *)
Definition getCredentials (name : string) (m : gmap string OAuthCredentials)
  : option OAuthCredentials := m !! name.

Definition setCredentials (c : OAuthCredentials) (m : gmap string OAuthCredentials)
  : string + gmap string OAuthCredentials :=
  match validateCredentials c with
  | Some e => inl e
  | None => inr (<[serverName c := c]> m)
  end.

Definition deleteCredentials (name : string) (m : gmap string OAuthCredentials)
  : string + gmap string OAuthCredentials :=
  match m !! name with
  | None => inl ("No credentials found for " +:+ name)
  | Some _ => inr (delete name m)
  end.

End TokenStorage.

(** ** The world the coordinator runs in *)

Module Runtime.

(** An incoming HTTP request, as far as the callback handler reads it:
    [req.url], which Node types as possibly undefined. *)
Record Request : Type := { url : option string }.

(** The errors the flow rejects with.  [message] gives the text of the
    JavaScript [Error].  [UnhandledServerError] is not a rejection of the
    call: it is the callback server's error rejecting
    [loginCompletePromise] at a moment when nothing is attached to that
    promise; Node reports an unhandled rejection, which by default ends
    the process, and the call never settles. *)
Inductive Error : Type :=
| InvalidPort (portStr : string)
| PortProbeError (e : string)
| UnexpectedRequest (url : option string)
| UrlError
| StateMismatch
| GoogleOAuthError (code description : string)
| NoTokens
| CallbackServerError (err : string)
| UnhandledServerError (err : string)
| AuthTimeout
| StorageError (msg : string).

Definition dquote : string := String (ascii_of_nat 34) EmptyString.

Definition message (e : Error) : string :=
  match e with
  | InvalidPort portStr =>
      "Invalid value for OAUTH_CALLBACK_PORT: " +:+ dquote +:+ portStr +:+ dquote
  | PortProbeError e => e
  | UnexpectedRequest u =>
      "OAuth callback not received. Unexpected request: " +:+ default "undefined" u
  | UrlError => "Invalid URL"
  | StateMismatch => "OAuth state mismatch. Possible CSRF attack."
  | GoogleOAuthError code description =>
      "Google OAuth error: " +:+ code +:+ ". " +:+ description
  | NoTokens => "Authentication failed: Did not receive tokens from callback."
  | CallbackServerError err => "OAuth callback server error: " +:+ err
  | UnhandledServerError err => "OAuth callback server error: " +:+ err
  | AuthTimeout =>
      "Authentication timed out after 5 minutes. The browser tab may have gotten stuck in a loading state. "
      +:+ "Please try again."
  | StorageError msg => msg
  end.

(** Externally visible actions, in the order they happen. *)
Inductive Event : Type :=
| EvGetCredentials (name : string)
| EvSetCredentials (c : TokenStorage.OAuthCredentials)
| EvDeleteCredentials (name : string)
| EvProbeListen
| EvProbeClose
| EvCreateServer
| EvListen (port : Z) (host : string)
| EvOpen (authUrl : string)
| EvSetTimeout (ms : Z)
| EvRequest (r : Request)
| EvResponse (body : string)
| EvServerClose.

(** The state: OAuth2 client objects live in [heap] and are referred to by
    their address, so that "the same client" is equality of addresses and
    a mutation through one reference is seen through every other one. *)
Record World : Type := {
  heap : gmap nat Google.Credentials;
  next_client : nat;
  client : option nat;
  storage : gmap string TokenStorage.OAuthCredentials;
  trace : list Event;
}.

Definition set_heap (h : gmap nat Google.Credentials) (w : World) : World :=
  {| heap := h; next_client := next_client w; client := client w;
     storage := storage w; trace := trace w |}.
Definition set_next_client (n : nat) (w : World) : World :=
  {| heap := heap w; next_client := n; client := client w;
     storage := storage w; trace := trace w |}.
Definition set_client (c : option nat) (w : World) : World :=
  {| heap := heap w; next_client := next_client w; client := c;
     storage := storage w; trace := trace w |}.
Definition set_storage (m : gmap string TokenStorage.OAuthCredentials) (w : World) : World :=
  {| heap := heap w; next_client := next_client w; client := client w;
     storage := m; trace := trace w |}.
Definition set_trace (t : list Event) (w : World) : World :=
  {| heap := heap w; next_client := next_client w; client := client w;
     storage := storage w; trace := t |}.

(** The result of an awaited promise: [Ok a] when it fulfils with [a];
    [Err e] when it gives no value: it rejects with [e] or, for
    [UnhandledServerError], never settles. *)
Inductive Result (A : Type) : Type :=
| Ok (a : A)
| Err (e : Error).
Arguments Ok {A} a.
Arguments Err {A} e.

(** State-and-error monad: a rejected computation keeps the world it
    reached (what was written or logged before the throw stays). *)
Definition M (A : Type) : Type := World -> Result A * World.

#[export] Instance M_ret : MRet M := λ A a w, (Ok a, w).

#[export] Instance M_bind : MBind M := λ A B f m w,
  match m w with
  | (Ok a, w') => f a w'
  | (Err e, w') => (Err e, w')
  end.

Definition throw {A : Type} (e : Error) : M A := λ w, (Err e, w).
Definition world : M World := λ w, (Ok w, w).
Definition modify (f : World -> World) : M unit := λ w, (Ok tt, f w).
Definition emit (e : Event) : M unit := modify (λ w, set_trace (trace w ++ [e]) w).

(** The world with some more events in its trace. *)
Definition logged (evs : list Event) (w : World) : World :=
  set_trace (trace w ++ evs) w.

(** What the environment decides during one call. *)
Record Env : Type := {
  OAUTH_CALLBACK_PORT : option string;
  OAUTH_CALLBACK_HOST : option string;
}.

(** The throwaway [net] server on port 0: the port the OS assigned, or
    the server's ['error']. *)
Inductive PortProbe : Type :=
| Assigned (port : Z)
| ProbeFailed (e : string).

(** What becomes of [server.listen(port, host)] on the callback server. *)
Inductive Bind : Type :=
| Bound
| BindFailed (err : string).

(** Which of the two racers comes first once the listener is up: a request
    reaches the listener before the timer fires, or the timer fires first
    (the listener is still open then, so a request may arrive later). *)
Inductive Arrival : Type :=
| RequestFirst (r : Request)
| TimerFirst (late : option Request).

Record Inputs : Type := {
  env : Env;
  probe : PortProbe;
  gui : bool;                       (* shouldLaunchBrowser() *)
  randomBytes : list Byte.byte;     (* crypto.randomBytes(32) *)
  bind : Bind;
  unhandled : bool;                 (* a failed bind's 'error' is emitted while
                                       open() is still awaited, in a process
                                       that an unhandled rejection ends *)
  arrival : Arrival;
  now : Z;                          (* Date.now() *)
}.

(** Library functions the sources call and this development does not look
    into. *)
Record AuthUrlOptions : Type := {
  redirect_uri : string;
  access_type : string;
  scope : list string;
  state : string;
  prompt : string;
}.

Record StatePayload : Type := {
  uri : option string;
  manual : bool;
  csrf : string;
}.

Record Lib : Type := {
  searchParams : string -> string -> option (list (string * string));
    (* new url.URL(input, base).searchParams; None when the constructor throws *)
  generateAuthUrl : string -> AuthUrlOptions -> string;
    (* client.generateAuthUrl(options), for a client with the given id *)
  encodeState : StatePayload -> string;
    (* Buffer.from(JSON.stringify(payload)).toString('base64') *)
}.

(** [qs.get(name)]: the first value of that name. *)
Definition qs_get (qs : list (string * string)) (name : string) : option string :=
  snd <$> List.find (λ p, String.eqb (fst p) name) qs.

(** The decimal text of a port in a template string. *)
Definition show (z : Z) : string := NilZero.string_of_int (Z.to_int z).

End Runtime.

(** ** oauth-credential-storage.ts *)

Module OAuthCredentialStorage.
Import Runtime.

Definition MAIN_ACCOUNT_KEY : string := "main-account".

(** The Google credentials [loadCredentials] builds from a stored record. *)
Definition toGoogleCredentials (credentials : TokenStorage.OAuthCredentials)
  : Google.Credentials :=
  let t := TokenStorage.token credentials in
  {| Google.access_token := TokenStorage.accessToken t;
     Google.refresh_token := JS.or_undefined (TokenStorage.refreshToken t);
     Google.token_type := JS.str_or_undefined (TokenStorage.tokenType t);
     Google.scope := JS.or_undefined (TokenStorage.scope t);
     Google.expiry_date := JS.num_or_undefined (TokenStorage.expiresAt t) |}.

Definition loadCredentials : M (option Google.Credentials) :=
  emit (EvGetCredentials MAIN_ACCOUNT_KEY);;
  w ← world;
  match TokenStorage.getCredentials MAIN_ACCOUNT_KEY (storage w) with
  | Some credentials => mret (Some (toGoogleCredentials credentials))
  | None => mret None
  end.

(** The storage record [saveCredentials] builds. *)
Definition toStorageSchema (credentials : Google.Credentials) (now : Z)
  : TokenStorage.OAuthCredentials :=
  {| TokenStorage.serverName := MAIN_ACCOUNT_KEY;
     TokenStorage.token := {|
       TokenStorage.accessToken := JS.or_undefined (Google.access_token credentials);
       TokenStorage.refreshToken := JS.or_undefined (Google.refresh_token credentials);
       TokenStorage.tokenType := JS.or_default (Google.token_type credentials) "Bearer";
       TokenStorage.scope := JS.or_undefined (Google.scope credentials);
       TokenStorage.expiresAt := JS.num_or_undefined (Google.expiry_date credentials);
     |};
     TokenStorage.updatedAt := now |}.

Definition saveCredentials (credentials : Google.Credentials) (now : Z) : M unit :=
  let mcpCredentials := toStorageSchema credentials now in
  emit (EvSetCredentials mcpCredentials);;
  w ← world;
  match TokenStorage.setCredentials mcpCredentials (storage w) with
  | inl e => throw (StorageError e)
  | inr m => modify (set_storage m)
  end.

Definition clearCredentials : M unit :=
  emit (EvDeleteCredentials MAIN_ACCOUNT_KEY);;
  w ← world;
  match TokenStorage.deleteCredentials MAIN_ACCOUNT_KEY (storage w) with
  | inl e => throw (StorageError e)
  | inr m => modify (set_storage m)
  end.

End OAuthCredentialStorage.

(** ** AuthManager.ts *)

Module AuthManager.
Import Runtime.

Definition CLIENT_ID : string :=
  "338689075775-o75k922vn5fdl18qergr96rp8g63e4d7.apps.googleusercontent.com".

Definition cloudFunctionRedirectUri : string :=
  "https://google-workspace-extension.geminicli.com".

(** [5 * 60 * 1000], in milliseconds. *)
Definition authTimeout : Z := 5 * 60 * 1000.

(** The callback server made by [authWithWeb], with what its handler
    closes over; [rejected] is the rejection of [loginCompletePromise] by
    the server's ['error'] handler, if the bind failed. *)
Record OauthWebLogin : Type := {
  authUrl : string;
  csrfToken : string;
  host : string;
  port : Z;
  rejected : option Error;
}.

(** [new google.auth.OAuth2(options)]: a new object without credentials. *)
Definition newOAuth2 : M nat :=
  w ← world;
  let id := next_client w in
  modify (λ w, set_next_client (S id) (set_heap (<[id := Google.no_credentials]> (heap w)) w));;
  mret id.

(** [client.setCredentials(credentials)] *)
Definition setCredentials (id : nat) (credentials : Google.Credentials) : M unit :=
  modify (λ w, set_heap (<[id := credentials]> (heap w)) w).

(** [client.credentials] *)
Definition credentials (id : nat) : M Google.Credentials :=
  w ← world;
  mret (default Google.no_credentials (heap w !! id)).

(** Modelled from the spec: the wrapper [open] of utils/open-wrapper (the
    file is missing): it asks the secure launcher to open the URL, and a
    launch failure is not fatal to the surrounding flow. *)
Definition open (url : string) : M unit := emit (EvOpen url).

(** [this.client && this.client.credentials &&
     this.client.credentials.refresh_token] *)
Definition cachedClient (w : World) : option nat :=
  match client w with
  | Some id =>
      match heap w !! id with
      | Some c => if JS.truthy (Google.refresh_token c) then Some id else None
      | None => None
      end
  | None => None
  end.

Section Manager.

Variable lib : Lib.
(** [this.scopes] *)
Variable scopes : list string.
Variable inp : Inputs.

(** [new Set(credentials.scope?.split(' ') ?? [])] *)
Definition savedScopes (c : Google.Credentials) : gset string :=
  match Google.scope c with
  | Some s => list_to_set (JS.split " " s)
  | None => ∅
  end.

Definition missingScopes (c : Google.Credentials) : list string :=
  List.filter (λ scope, negb (bool_decide (scope ∈ savedScopes c))) scopes.

Definition loadCachedCredentials (id : nat) : M bool :=
  credentials ← OAuthCredentialStorage.loadCredentials;
  match credentials with
  | Some credentials =>
      if (0 <? Z.of_nat (List.length (missingScopes credentials))) then
        OAuthCredentialStorage.clearCredentials;;
        mret false
      else
        setCredentials id credentials;;
        mret true
  | None => mret false
  end.

Definition getAvailablePort : M Z :=
  let portStr := OAUTH_CALLBACK_PORT (env inp) in
  if JS.truthy portStr then
    let port := JS.parseInt (default EmptyString portStr) in
    if JS.isNaN port || JS.leb port 0 || JS.gtb port 65535
    then throw (InvalidPort (default EmptyString portStr))
    else mret (JS.toZ port)
  else
    emit EvProbeListen;;
    match probe inp with
    | Assigned port => emit EvProbeClose;; mret port
    | ProbeFailed e => throw (PortProbeError e)
    end.

Definition authWithWeb (id : nat) : M OauthWebLogin :=
  port ← getAvailablePort;
  let host := JS.or_default (OAUTH_CALLBACK_HOST (env inp)) "localhost" in
  let localRedirectUri := "http://" +:+ host +:+ ":" +:+ show port +:+ "/oauth2callback" in
  let isGuiAvailable := gui inp in
  let csrfToken := JS.hex (randomBytes inp) in
  let statePayload :=
    {| uri := if isGuiAvailable then Some localRedirectUri else None;
       manual := negb isGuiAvailable;
       csrf := csrfToken |} in
  let state := encodeState lib statePayload in
  let authUrl := generateAuthUrl lib CLIENT_ID
    {| redirect_uri := cloudFunctionRedirectUri;
       access_type := "offline";
       scope := scopes;
       state := state;
       prompt := "consent" |} in
  emit EvCreateServer;;
  emit (EvListen port host);;
  mret {| authUrl := authUrl; csrfToken := csrfToken; host := host; port := port;
          rejected := match bind inp with
                      | Bound => None
                      | BindFailed err => Some (CallbackServerError err)
                      end |}.

(** The [tokens] object the handler assembles from the query. *)
Definition tokens (qs : list (string * string)) : Google.Credentials :=
  let access_token := qs_get qs "access_token" in
  let refresh_token := qs_get qs "refresh_token" in
  let scope := qs_get qs "scope" in
  let token_type := qs_get qs "token_type" in
  let expiry_date_str := qs_get qs "expiry_date" in
  {| Google.access_token := access_token;
     Google.refresh_token := JS.or_undefined refresh_token;
     Google.scope := JS.or_undefined scope;
     Google.token_type := JS.or_undefined token_type;
     Google.expiry_date := Some (JS.parseInt (default EmptyString expiry_date_str)) |}.

(** The [try] block of the request handler: how it settles
    [loginCompletePromise] ([Ok tt] for [resolve()], [Err e] for
    [reject(e)]). *)
Definition handleCallback (login : OauthWebLogin) (id : nat) (req : Request)
  : M (Result unit) :=
  if negb (JS.truthy (url req))
     || negb (JS.startsWith (default EmptyString (url req)) "/oauth2callback")
  then
    emit (EvResponse EmptyString);;
    mret (Err (UnexpectedRequest (url req)))
  else
    match searchParams lib (default EmptyString (url req))
            ("http://" +:+ host login +:+ ":" +:+ show (port login)) with
    | None => mret (Err UrlError)
    | Some qs =>
        let returnedState := qs_get qs "state" in
        if negb (bool_decide (returnedState = Some (csrfToken login))) then
          emit (EvResponse "State mismatch. Possible CSRF attack.");;
          mret (Err StateMismatch)
        else if JS.truthy (qs_get qs "error") then
          let errorCode := default EmptyString (qs_get qs "error") in
          let errorDescription :=
            JS.or_default (qs_get qs "error_description")
              "No additional details provided" in
          emit (EvResponse EmptyString);;
          mret (Err (GoogleOAuthError errorCode errorDescription))
        else
          let access_token := qs_get qs "access_token" in
          let expiry_date_str := qs_get qs "expiry_date" in
          if JS.truthy access_token && JS.truthy expiry_date_str then
            setCredentials id (tokens qs);;
            emit (EvResponse "Authentication successful! Please return to the console.");;
            mret (Ok tt)
          else
            mret (Err NoTokens)
    end.

(** The request handler: the [try] block, then [server.close()] in
    [finally]. *)
Definition requestListener (login : OauthWebLogin) (id : nat) (req : Request)
  : M (Result unit) :=
  emit (EvRequest req);;
  settled ← handleCallback login id req;
  emit EvServerClose;;
  mret settled.

(** [await Promise.race([webLogin.loginCompletePromise, timeoutPromise])] *)
Definition race (login : OauthWebLogin) (id : nat) : M unit :=
  emit (EvSetTimeout authTimeout);;
  match rejected login with
  | Some e => throw e
  | None =>
      match arrival inp with
      | RequestFirst req =>
          settled ← requestListener login id req;
          match settled with
          | Ok _ => mret tt
          | Err e => throw e
          end
      | TimerFirst late =>
          (* the call has rejected by now; the handler of a late request
             still runs, and what it does is part of the final world *)
          match late with
          | Some req => requestListener login id req;; mret tt
          | None => mret tt
          end;;
          throw AuthTimeout
      end
  end.

(** The reading under which an override "is an integer in [1,65535]": the
    value is written in decimal digits only, and the number they denote is
    in the range. *)
Definition isDigit (c : ascii) : bool :=
  match JS.digit_value c with Some _ => true | None => false end.

Definition integerInRange (s : string) : bool :=
  match s with
  | EmptyString => false
  | _ =>
      List.forallb isDigit (list_ascii_of_string s)
      && match JS.digits s None with
         | Some p => (1 <=? p) && (p <=? 65535)
         | None => false
         end
  end.

(** What has become of [loginCompletePromise] when [await open(...)]
    returns.  No handler is attached to the promise before [Promise.race]
    is reached: when the bind has failed and its ['error'] was emitted
    while [open] was still awaited, the rejection is unhandled, and in a
    process that this ends the call goes no further. *)
Definition whileOpening : M unit :=
  match bind inp with
  | BindFailed err =>
      if unhandled inp then throw (UnhandledServerError err) else mret tt
  | Bound => mret tt
  end.

(** The interactive flow: everything [getAuthenticatedClient] does after
    the saved credentials were not usable. *)
Definition authenticateInteractively (id : nat) : M nat :=
  webLogin ← authWithWeb id;
  open (authUrl webLogin);;
  whileOpening;;
  race webLogin id;;
  c ← credentials id;
  OAuthCredentialStorage.saveCredentials c (now inp);;
  modify (set_client (Some id));;
  mret id.

Definition getAuthenticatedClient : M nat :=
  w ← world;
  match cachedClient w with
  | Some id => mret id
  | None =>
      oAuth2Client ← newOAuth2;
      loaded ← loadCachedCredentials oAuth2Client;
      if (loaded : bool) then
        modify (set_client (Some oAuth2Client));;
        mret oAuth2Client
      else
        authenticateInteractively oAuth2Client
  end.

(** The state in which [getAuthenticatedClient] enters the interactive
    flow: no usable cached client, and [loadCachedCredentials] on the new
    client [id] returned false, leaving the world [w1]. *)
Definition entersInteractiveFlow (w : World) (id : nat) (w1 : World) : Prop :=
  cachedClient w = None ∧
  id = next_client w ∧
  (oAuth2Client ← newOAuth2; loadCachedCredentials oAuth2Client) w = (Ok false, w1).

End Manager.

(** Successive calls of [getAuthenticatedClient] on one manager (one
    process), each with the inputs the environment gives it. *)
Fixpoint session (lib : Lib) (scopes : list string) (calls : list Inputs) (w : World)
  : list (Result nat) * World :=
  match calls with
  | [] => ([], w)
  | inp :: rest =>
      let '(r, w1) := getAuthenticatedClient lib scopes inp w in
      let '(rs, w2) := session lib scopes rest w1 in
      (r :: rs, w2)
  end.

(** The world in which the interactive flow begins after the saved
    credentials were found to lack a scope. *)
Definition cleared (w0 : World) : World :=
  set_storage (delete OAuthCredentialStorage.MAIN_ACCOUNT_KEY (storage w0))
    (logged [EvGetCredentials OAuthCredentialStorage.MAIN_ACCOUNT_KEY;
             EvDeleteCredentials OAuthCredentialStorage.MAIN_ACCOUNT_KEY]
       (set_next_client (S (next_client w0))
          (set_heap (<[next_client w0 := Google.no_credentials]> (heap w0)) w0))).

(** The events a call added to the trace. *)
Definition added (w w' : World) : list Event := drop (List.length (trace w)) (trace w').

End AuthManager.

(** ** Concrete collaborators and inputs, for the examples *)

Module Sample.
Import Runtime.

(** A plain query-string reader: the text after the first [?], cut at [&]
    and at the first [=] of each piece (no percent-decoding). *)
Definition cut (sep : ascii) (s : string) : string * string :=
  match JS.split sep s with
  | [] => (s, EmptyString)
  | k :: rest => (k, String.concat (String sep EmptyString) rest)
  end.

Definition simpleSearchParams (input base : string) : option (list (string * string)) :=
  let q := snd (cut "?" input) in
  if String.eqb q EmptyString then Some []
  else Some (List.map (cut "=") (JS.split "&" q)).

Definition lib : Lib :=
  {| searchParams := simpleSearchParams;
     generateAuthUrl := λ id o,
       "https://accounts.google.com/o/oauth2/v2/auth?client_id=" +:+ id
       +:+ "&redirect_uri=" +:+ redirect_uri o
       +:+ "&scope=" +:+ String.concat " " (scope o)
       +:+ "&state=" +:+ state o;
     encodeState := λ p, csrf p |}.

Definition noEnv : Env :=
  {| OAUTH_CALLBACK_PORT := None; OAUTH_CALLBACK_HOST := None |}.

Definition bytes32 : list Byte.byte := List.repeat Byte.xab 32.

Definition csrf : string := JS.hex bytes32.

Definition inputs (a : Arrival) : Inputs :=
  {| env := noEnv; probe := Assigned 43210; gui := true; randomBytes := bytes32;
     bind := Bound; unhandled := false; arrival := a; now := 1700000000000 |}.

Definition withPort (portStr : string) (a : Arrival) : Inputs :=
  {| env := {| OAUTH_CALLBACK_PORT := Some portStr; OAUTH_CALLBACK_HOST := None |};
     probe := Assigned 43210; gui := true; randomBytes := bytes32;
     bind := Bound; unhandled := false; arrival := a; now := 1700000000000 |}.

(** The bind of the callback server fails; [early] says whether its error
    is emitted while the browser is being opened and ends the process. *)
Definition bindFails (err : string) (early : bool) : Inputs :=
  {| env := noEnv; probe := Assigned 43210; gui := true; randomBytes := bytes32;
     bind := BindFailed err; unhandled := early; arrival := TimerFirst None;
     now := 1700000000000 |}.

Definition fresh : World :=
  {| heap := ∅; next_client := 0; client := None; storage := ∅; trace := [] |}.

(** The world after a first call that a good callback answered. *)
Definition signedIn : World :=
  {| heap := {[ 0%nat :=
                 {| Google.access_token := Some "tok";
                    Google.refresh_token := Some "ref";
                    Google.scope := Some "scope.a";
                    Google.token_type := None;
                    Google.expiry_date := Some (JS.Int 1800000000000) |} ]};
     next_client := 1;
     client := Some 0%nat;
     storage := ∅;
     trace := [] |}.

(** Saved credentials for scope.a, and a new process that finds them. *)
Definition storedScopeA : TokenStorage.OAuthCredentials :=
  {| TokenStorage.serverName := "main-account";
     TokenStorage.token :=
       {| TokenStorage.accessToken := Some "old";
          TokenStorage.refreshToken := Some "oldref";
          TokenStorage.tokenType := "Bearer";
          TokenStorage.scope := Some "scope.a";
          TokenStorage.expiresAt := Some (JS.Int 1600000000000) |};
     TokenStorage.updatedAt := 1500000000000 |}.

Definition savedScopeA : World :=
  {| heap := ∅; next_client := 0; client := None;
     storage := {[ "main-account" := storedScopeA ]}; trace := [] |}.

Definition goodRequest : Request :=
  {| url := Some ("/oauth2callback?state=" +:+ csrf
                  +:+ "&access_token=tok&refresh_token=ref&expiry_date=1800000000000&scope=scope.a") |}.

Definition noScopeRequest : Request :=
  {| url := Some ("/oauth2callback?state=" +:+ csrf
                  +:+ "&access_token=tok&expiry_date=1800000000000") |}.

(** Credentials as the storage tests have them, without a token type. *)
Definition googleCredentials : Google.Credentials :=
  {| Google.access_token := Some "test-access-token";
     Google.refresh_token := Some "test-refresh-token";
     Google.scope := Some "test-scope";
     Google.token_type := None;
     Google.expiry_date := Some (JS.Int 1234567890) |}.




Definition noRefreshRequest : Request :=
  {| url := Some ("/oauth2callback?state=" +:+ csrf
                  +:+ "&access_token=tok&expiry_date=1800000000000&scope=scope.a") |}.


End Sample.

(** ** Hybrid credential store *)

Module HybridTokenStorage.

Inductive TokenStorageType : Type :=
| KEYCHAIN
| ENCRYPTED_FILE.

(** What the keychain's [isAvailable()] answers: it resolves to a boolean
    or it rejects. *)
Inductive Probe : Type :=
| Resolves (available : bool)
| Rejects.

(** The operations of the storage interface. *)
Inductive Operation : Type :=
| GetCredentials (serverName : string)
| SetCredentials (credentials : TokenStorage.OAuthCredentials)
| DeleteCredentials (serverName : string)
| ListServers
| GetAllCredentials
| ClearAll
| GetStorageType.

Inductive Event : Type :=
| EvIsAvailable
| EvDelegate (backend : TokenStorageType) (op : Operation).

(** The store object: the cached back end, if it was decided already, and
    the calls made on the two back ends so far. *)
Record State : Type := {
  storage : option TokenStorageType;
  calls : list Event;
}.

Definition init : State := {| storage := None; calls := [] |}.

Definition isProbe (e : Event) : bool :=
  match e with EvIsAvailable => true | EvDelegate _ _ => false end.

Definition probes (s : State) : nat := List.length (List.filter isProbe (calls s)).

Section Hybrid.

(** [process.env['GEMINI_CLI_WORKSPACE_FORCE_FILE_STORAGE']] *)
Variable FORCE_FILE_STORAGE : option string.
(** The answer of the keychain probe to its n-th call. *)
Variable isAvailable : nat -> Probe.

(** Modelled from the spec: the selection of the back end
    (hybrid-token-storage.ts is missing; its tests are under src/):
    the file store if the force-file-storage override is set (the tests
    set the variable to "true"), else the keychain if its probe says it
    is available, else (unavailable, or the probe throws) the file
    store. *)
Definition forceFileStorage : bool :=
  bool_decide (FORCE_FILE_STORAGE = Some "true").

Definition initializeStorage (s : State) : TokenStorageType * State :=
  if forceFileStorage then (ENCRYPTED_FILE, s)
  else
    let answer := isAvailable (probes s) in
    let s' := {| storage := storage s; calls := calls s ++ [EvIsAvailable] |} in
    match answer with
    | Resolves true => (KEYCHAIN, s')
    | Resolves false => (ENCRYPTED_FILE, s')
    | Rejects => (ENCRYPTED_FILE, s')
    end.

(** Modelled from the spec: the selection is evaluated once and cached;
    all later calls reuse the cached back end without probing again. *)
Definition getStorage (s : State) : TokenStorageType * State :=
  match storage s with
  | Some backend => (backend, s)
  | None =>
      let '(backend, s') := initializeStorage s in
      (backend, {| storage := Some backend; calls := calls s' |})
  end.

(** Modelled from the spec: every operation of the CRUD surface
    delegates to the selected back end; [getStorageType] reports it. *)
Definition perform (op : Operation) (s : State) : TokenStorageType * State :=
  let '(backend, s') := getStorage s in
  match op with
  | GetStorageType => (backend, s')
  | _ => (backend, {| storage := storage s';
                      calls := calls s' ++ [EvDelegate backend op] |})
  end.

Definition run (ops : list Operation) (s : State) : State :=
  List.fold_left (λ s op, snd (perform op s)) ops s.

End Hybrid.

(** The calls on a back end that a list of operations amounts to:
    [getStorageType] only reports, every other operation is passed on. *)
Definition delegations (backend : TokenStorageType) (ops : list Operation) : list Event :=
  List.flat_map (λ op, match op with
                       | GetStorageType => []
                       | _ => [EvDelegate backend op]
                       end) ops.

End HybridTokenStorage.

(** ** Encryption primitive of the file-backed store *)

Module FileTokenStorage.

(** The authenticated cipher (AES-256-GCM of node:crypto): [seal] gives
    the ciphertext and the authentication tag, [unseal] the plaintext if
    the tag verifies. *)
Record Cipher : Type := {
  seal : list Byte.byte -> list Byte.byte -> list Byte.byte
         -> list Byte.byte * list Byte.byte;
  unseal : list Byte.byte -> list Byte.byte -> list Byte.byte -> list Byte.byte
           -> option (list Byte.byte);
}.

(** What makes it a cipher: unsealing with the key and IV it was sealed
    with gives the plaintext back. *)
Definition correct (c : Cipher) : Prop :=
  ∀ key iv text, unseal c key iv (fst (seal c key iv text)) (snd (seal c key iv text)) = Some text.

Inductive Error : Type :=
| InvalidFormat
| AuthenticationFailed.

Definition message (e : Error) : string :=
  match e with
  | InvalidFormat => "Invalid encrypted data format"
  | AuthenticationFailed => "Unsupported state or unable to authenticate data"
  end.

(** The random source of node:crypto: the bytes it gives, in order, and
    how many of them have been taken. *)
Record Random : Type := {
  source : nat -> Byte.byte;
  taken : nat;
}.

(** [crypto.randomBytes(n)]: the next [n] bytes of the source, which are
    spent by the call. *)
Definition randomBytes (n : nat) (r : Random) : list Byte.byte * Random :=
  (List.map (source r) (List.seq (taken r) n),
   {| source := source r; taken := (taken r + n)%nat |}).

Section Encryption.

Variable cipher : Cipher.
Variable key : list Byte.byte.
(** The length of an initialization vector, in bytes. *)
Variable ivLength : nat.

(** Modelled from the spec: [encrypt] (file-token-storage.ts is missing;
    its tests are under src/): the call draws an initialization vector
    from the random source, encrypts under it with authentication, and
    gives the blob of three hex fields joined by a colon: the vector, the
    tag, the ciphertext. *)
Definition encrypt (text : string) (r : Random) : string * Random :=
  let '(iv, r') := randomBytes ivLength r in
  let '(encrypted, authTag) := seal cipher key iv (list_byte_of_string text) in
  (JS.hex iv +:+ ":" +:+ JS.hex authTag +:+ ":" +:+ JS.hex encrypted, r').

(** Modelled from the spec: [decrypt]: "invalid format" when the blob
    does not parse into exactly three hex segments, an authentication
    error when the tag does not verify. *)
Definition decrypt (encryptedData : string) : Error + string :=
  match JS.split ":" encryptedData with
  | [p0; p1; p2] =>
      match JS.unhex p0, JS.unhex p1, JS.unhex p2 with
      | Some iv, Some authTag, Some encrypted =>
          match unseal cipher key iv encrypted authTag with
          | Some text => inr (string_of_list_byte text)
          | None => inl AuthenticationFailed
          end
      | _, _, _ => inl InvalidFormat
      end
  | _ => inl InvalidFormat
  end.

End Encryption.

(** A blob of the documented format: three hex segments with a colon
    between them. *)
Definition isHex (s : string) : Prop := is_Some (JS.unhex s).

Definition threeHexSegments (s : string) : Prop :=
  ∃ a b c, s = a +:+ ":" +:+ b +:+ ":" +:+ c ∧ isHex a ∧ isHex b ∧ isHex c.

(** A stand-in cipher for the examples: the text itself, tagged with the
    IV. *)
Definition toyCipher : Cipher :=
  {| seal := λ key iv text, (text, iv);
     unseal := λ key iv encrypted authTag,
       if bool_decide (authTag = iv) then Some encrypted else None |}.

(** A random source for the examples: sixteen bytes 01, then bytes 02. *)
Definition sampleRandom : Random :=
  {| source := λ i, if (i <? 16)%nat then Byte.x01 else Byte.x02;
     taken := 0 |}.

End FileTokenStorage.

(** ** Secure browser launcher *)

Module SecureBrowserLauncher.

Inductive Error : Type :=
| InvalidUrl (url : string)
| UnsafeProtocol (protocol : string)
| InvalidCharacters
| UnsupportedPlatform (platform : string)
| FailedToOpenBrowser.

Definition message (e : Error) : string :=
  match e with
  | InvalidUrl url => "Invalid URL: " +:+ url
  | UnsafeProtocol protocol =>
      "Unsafe protocol: " +:+ protocol +:+ ". Only HTTP and HTTPS are allowed."
  | InvalidCharacters => "URL contains invalid characters"
  | UnsupportedPlatform platform => "Unsupported platform: " +:+ platform
  | FailedToOpenBrowser => "Failed to open browser"
  end.

(** One call of the process-spawning primitive: the command and its
    argument vector. *)
Record Spawn : Type := {
  command : string;
  args : list string;
}.

#[global] Instance Spawn_eq_dec : EqDecision Spawn.
Proof. solve_decision. Defined.

(** Newline, carriage return and NUL. *)
Definition isControl (c : ascii) : bool :=
  let n := N_of_ascii c in ((n =? 10) || (n =? 13) || (n =? 0))%N.

Definition hasControl (url : string) : bool :=
  List.existsb isControl (list_ascii_of_string url).

(** Every single quote doubled (the escaping of a PowerShell literal). *)
Fixpoint escapeSingleQuotes (s : string) : string :=
  match s with
  | EmptyString => EmptyString
  | String c rest =>
      if Ascii.eqb c "'" then String "'" (String "'" (escapeSingleQuotes rest))
      else String c (escapeSingleQuotes rest)
  end.

Section Launcher.

(** [new URL(url).protocol], e.g. "https:"; [None] when the text does not
    parse as an absolute URL. *)
Variable protocol : string -> option string.
(** [os.platform()] *)
Variable platform : string.
(** Whether a spawned process exits with code 0 ([false]: the process
    emits an error or exits with another code). *)
Variable succeeds : Spawn -> bool.

(** Modelled from the spec: the validation of the launcher
    (utils/secure-browser-launcher is missing; its tests are under src/):
    the URL must parse as an absolute URL, its scheme must be exactly http
    or https, and it must not contain a newline, a carriage return or
    NUL. *)
Definition validateUrl (url : string) : option Error :=
  match protocol url with
  | None => Some (InvalidUrl url)
  | Some p =>
      if negb (String.eqb p "http:") && negb (String.eqb p "https:")
      then Some (UnsafeProtocol p)
      else if hasControl url then Some InvalidCharacters
      else None
  end.

(** Modelled from the spec: the dispatch by platform, one argument vector
    per launcher to try, in order; [None] for an unsupported platform. *)
Definition launchers (url : string) : option (list Spawn) :=
  if String.eqb platform "darwin" then
    Some [{| command := "open"; args := [url] |}]
  else if String.eqb platform "win32" then
    Some [{| command := "powershell.exe";
             args := ["-NoProfile"; "-NonInteractive"; "-WindowStyle"; "Hidden";
                      "-Command";
                      "Start-Process '" +:+ escapeSingleQuotes url +:+ "'"] |}]
  else if String.eqb platform "linux" then
    Some [{| command := "xdg-open"; args := [url] |};
          {| command := "gnome-open"; args := [url] |}]
  else None.

(** Try the launchers in order until one succeeds; the processes spawned
    are returned with the outcome. *)
Fixpoint tryLaunchers (ls : list Spawn) : (Error + unit) * list Spawn :=
  match ls with
  | [] => (inl FailedToOpenBrowser, [])
  | l :: rest =>
      if succeeds l then (inr tt, [l])
      else let '(r, spawned) := tryLaunchers rest in (r, l :: spawned)
  end.

(** Modelled from the spec: [openBrowserSecurely(url, execFile)]: validate,
    then dispatch; nothing is spawned unless the URL is valid and the
    platform supported. *)
Definition openBrowserSecurely (url : string) : (Error + unit) * list Spawn :=
  match validateUrl url with
  | Some e => (inl e, [])
  | None =>
      match launchers url with
      | None => (inl (UnsupportedPlatform platform), [])
      | Some ls => tryLaunchers ls
      end
  end.

End Launcher.

(** How PowerShell reads a single-quoted string, from after its opening
    quote: two quotes in a row are one quote of the text, a single quote
    closes the string.  The text read and what follows the closing quote;
    [None] when the string is not closed. *)
Fixpoint readSingleQuoted (s : string) : option (string * string) :=
  match s with
  | EmptyString => None
  | String c rest =>
      if Ascii.eqb c "'" then
        match rest with
        | String d rest' =>
            if Ascii.eqb d "'"
            then (λ r, (String "'" (fst r), snd r)) <$> readSingleQuoted rest'
            else Some (EmptyString, rest)
        | EmptyString => Some (EmptyString, EmptyString)
        end
      else (λ r, (String c (fst r), snd r)) <$> readSingleQuoted rest
  end.

(** [s] without the prefix [p], when it starts with it. *)
Fixpoint stripPrefix (p s : string) : option string :=
  match p with
  | EmptyString => Some s
  | String a p' =>
      match s with
      | String b s' => if Ascii.eqb a b then stripPrefix p' s' else None
      | EmptyString => None
      end
  end.

(** The operand of a PowerShell command that is [Start-Process] with one
    single-quoted string and nothing after it: the text PowerShell hands to
    the cmdlet. *)
Definition startProcessOperand (cmd : string) : option string :=
  match stripPrefix "Start-Process '" cmd with
  | Some rest =>
      match readSingleQuoted rest with
      | Some (text, EmptyString) => Some text
      | _ => None
      end
  | None => None
  end.

(** The two ways in which a launcher receives the URL as one argument: as
    the only element of the argument vector, or as the operand of the one
    [Start-Process] command that follows the fixed PowerShell flags. *)
Definition urlArgument (url : string) (sp : Spawn) : Prop :=
  args sp = [url] ∨
  ∃ cmd,
    args sp = ["-NoProfile"; "-NonInteractive"; "-WindowStyle"; "Hidden";
               "-Command"; cmd] ∧
    startProcessOperand cmd = Some url.

(** A plain reader of the scheme, for the examples: the text up to the
    first colon, if it is a letter followed by letters, digits, [+], [-]
    or [.]; lower-cased, with the colon. *)
Definition isAlpha (c : ascii) : bool :=
  let n := N_of_ascii c in
  ((65 <=? n) && (n <=? 90) || (97 <=? n) && (n <=? 122))%N.

Definition isSchemeChar (c : ascii) : bool :=
  let n := N_of_ascii c in
  (isAlpha c || (48 <=? n) && (n <=? 57) || (n =? 43) || (n =? 45) || (n =? 46))%N.

Definition toLower (c : ascii) : ascii :=
  let n := N_of_ascii c in
  if ((65 <=? n) && (n <=? 90))%N then ascii_of_N (n + 32) else c.

Definition simpleProtocol (url : string) : option string :=
  match JS.split ":" url with
  | scheme :: _ :: _ =>
      match list_ascii_of_string scheme with
      | c :: cs =>
          if isAlpha c && List.forallb isSchemeChar cs
          then Some (string_of_list_ascii (List.map toLower (c :: cs)) +:+ ":")
          else None
      | [] => None
      end
  | _ => None
  end.

End SecureBrowserLauncher.
(** ** String methods used by the utilities

    A string is the sequence of its code units; the models below cover the
    code units that fit in eight bits, as [JS.is_white_space] does. *)

Module JSString.

Definition backslash : ascii := Eval cbv in ascii_of_nat 92.
Definition apostrophe : ascii := Eval cbv in ascii_of_nat 39.
Definition quotation : ascii := Eval cbv in ascii_of_nat 34.
Definition newline : ascii := Eval cbv in ascii_of_nat 10.
Definition slash : ascii := Eval cbv in ascii_of_nat 47.

(** The two characters [\c]. *)
Definition escaped (c : ascii) : string :=
  String backslash (String c EmptyString).

(** [s.replace(/c/g, r)] for a pattern that is the one character [c] and a
    replacement [r] without [$]: every [c] becomes [r], left to right. *)
Fixpoint replace_g (c : ascii) (r : string) (s : string) : string :=
  match s with
  | EmptyString => EmptyString
  | String x rest =>
      if Ascii.eqb x c then r +:+ replace_g c r rest
      else String x (replace_g c r rest)
  end.

(** [s.trimEnd()] *)
Fixpoint trimEnd (s : string) : string :=
  match s with
  | EmptyString => EmptyString
  | String c rest =>
      match trimEnd rest with
      | EmptyString =>
          if JS.is_white_space c then EmptyString else String c EmptyString
      | String d r => String c (String d r)
      end
  end.

(** [s.trim()] *)
Definition trim (s : string) : string := trimEnd (JS.trimStart s).

(** The string without its first [n] code units. *)
Fixpoint drop (n : nat) (s : string) : string :=
  match n, s with
  | O, _ => s
  | S n', String _ rest => drop n' rest
  | S _, EmptyString => EmptyString
  end.

(** [s.endsWith(p)] *)
Definition endsWith (s p : string) : bool :=
  (String.length p <=? String.length s)%nat
  && String.eqb (drop (String.length s - String.length p) s) p.

(** [s.substring(a, b)] for integers [a], [b] that are not negative: both
    are clamped to the length and swapped when [a > b]. *)
Definition substring (s : string) (a b : nat) : string :=
  let n := String.length s in
  let lo := Nat.min (Nat.min a b) n in
  let hi := Nat.min (Nat.max a b) n in
  String.substring lo (hi - lo) s.

(** [s.substring(a)] *)
Definition substringFrom (s : string) (a : nat) : string :=
  substring s a (String.length s).

(** The first position at or after [pos] where [find] occurs in the text
    whose remainder from [pos] on is [s]. *)
Fixpoint indexOfAt (find s : string) (pos : nat) : option nat :=
  if String.prefix find s then Some pos
  else match s with
       | EmptyString => None
       | String _ rest => indexOfAt find rest (S pos)
       end.

(** [s.indexOf(find, from)] for an integer [from] that is not negative:
    [None] stands for [-1].  [from] is clamped to the length, so that the
    empty string is found at [min from s.length]. *)
Definition indexOf (s find : string) (from : nat) : option nat :=
  let k := Nat.min from (String.length s) in
  indexOfAt find (drop k s) k.

End JSString.

(** ** utils/DriveQueryBuilder.ts *)

Module DriveQueryBuilder.

Import JSString.

(** [str.replace(/\\/g, '\\\\').replace(/'/g, "\\'")] *)
Definition escapeQueryString (str : string) : string :=
  replace_g apostrophe (escaped apostrophe)
    (replace_g backslash (escaped backslash) str).

(** What the two passes of [escapeQueryString] do to one character. *)
Definition escapeChar (c : ascii) : string :=
  if Ascii.eqb c backslash then escaped backslash
  else if Ascii.eqb c apostrophe then escaped apostrophe
  else String c EmptyString.

(** [s.startsWith(q) && s.endsWith(q)] for a quote character [q]. *)
Definition quotedBy (q : ascii) (s : string) : bool :=
  JS.startsWith s (String q EmptyString) && endsWith s (String q EmptyString).

Definition titlePrefix : string := "title:".

(** The search term of a title search: what follows the prefix, trimmed,
    without one pair of surrounding quotes. *)
Definition titleTerm (query : string) : string :=
  let searchTerm :=
    trim (substringFrom (trim query) (String.length titlePrefix)) in
  if quotedBy apostrophe searchTerm || quotedBy quotation searchTerm
  then substring searchTerm 1 (String.length searchTerm - 1)
  else searchTerm.

Definition buildDriveSearchQuery (mimeType query : string) : string :=
  if JS.startsWith (trim query) titlePrefix then
    "mimeType='" +:+ mimeType +:+ "' and name contains '"
      +:+ escapeQueryString (titleTerm query) +:+ "'"
  else
    "mimeType='" +:+ mimeType +:+ "' and fullText contains '"
      +:+ escapeQueryString query +:+ "'".

(** How the Drive query language reads the inside of a quoted string: a
    backslash makes the next character part of the text, a bare quote ends
    the string.  [readLiteral quotes s] is the text read when [s] is
    consumed whole, and [None] when a bare quote of [quotes] or a trailing
    backslash is met first. *)
Fixpoint readLiteral (quotes : list ascii) (s : string) : option string :=
  match s with
  | EmptyString => Some EmptyString
  | String c rest =>
      if Ascii.eqb c backslash then
        match rest with
        | String d rest' => option_map (String d) (readLiteral quotes rest')
        | EmptyString => None
        end
      else if List.existsb (Ascii.eqb c) quotes then None
      else option_map (String c) (readLiteral quotes rest)
  end.

End DriveQueryBuilder.

(** ** utils/IdUtils.ts and utils/validation.ts *)

Module IdUtils.

Import JSString.

(** The class [[a-zA-Z0-9-_]]. *)
Definition isIdChar (c : ascii) : bool :=
  let n := N_of_ascii c in
  ((97 <=? n) && (n <=? 122) || (65 <=? n) && (n <=? 90)
   || (48 <=? n) && (n <=? 57) || (n =? 45) || (n =? 95))%N.

(** The longest run of [isIdChar] characters at the start of [s]: what the
    greedy group [([a-zA-Z0-9-_]+)] takes, when it is not empty. *)
Fixpoint idRun (s : string) : string :=
  match s with
  | String c rest => if isIdChar c then String c (idRun rest) else EmptyString
  | EmptyString => EmptyString
  end.

(** A match of [/\/d\/([a-zA-Z0-9-_]+)/] starting at the first character
    of [s]: its group 1. *)
Definition matchHere (s : string) : option string :=
  if JS.startsWith s "/d/" then
    match idRun (drop 3 s) with
    | EmptyString => None
    | String c g => Some (String c g)
    end
  else None.

(** [s.match(DOC_ID_REGEX)]: group 1 of the leftmost match, [None] for
    [null]. *)
Fixpoint DOC_ID_REGEX (s : string) : option string :=
  match matchHere s with
  | Some g => Some g
  | None =>
      match s with
      | EmptyString => None
      | String _ rest => DOC_ID_REGEX rest
      end
  end.

(** [extractDocId(url)] for a string argument; the calls of [logToFile]
    are left out. *)
Definition extractDocId (url : string) : option string :=
  if negb (JS.truthy (Some url)) then None
  else match DOC_ID_REGEX url with
       | Some g => if JS.truthy (Some g) then Some g else None
       | None => None
       end.

(** [extractDocId(id) || id], as the services resolve their id
    arguments. *)
Definition resolveId (documentId : string) : string :=
  JS.or_default (extractDocId documentId) documentId.

End IdUtils.

Module Validation.

Import JSString.

(** [googleDocumentIdSchema.safeParse(s).success] for a string:
    [/^[a-zA-Z0-9_-]+$/]. *)
Definition googleDocumentIdSchema (s : string) : bool :=
  negb (String.eqb s EmptyString)
  && List.forallb IdUtils.isIdChar (list_ascii_of_string s).

Inductive outcome : Type :=
| Returned (value : string)
| Thrown (message : string).

Definition extractDocumentId (urlOrId : string) : outcome :=
  if googleDocumentIdSchema urlOrId then Returned urlOrId
  else match IdUtils.DOC_ID_REGEX urlOrId with
       | Some g =>
           if JS.truthy (Some g) then Returned g
           else Thrown "Invalid document ID or URL"
       | None => Thrown "Invalid document ID or URL"
       end.

(** The transform of [searchQuerySchema]. *)
Definition searchQuerySchema (val : string) : string :=
  replace_g quotation (escaped quotation)
    (replace_g apostrophe (escaped apostrophe)
       (replace_g backslash (escaped backslash) val)).

End Validation.

(** ** utils/markdownToDocsRequests.ts *)

Module MarkdownToDocsRequests.

Import JSString.

(** [text.replace(/\n\n+/g, '\n\n')], scanning left to right.  [inRun]
    says that the scan is inside a match: the replacement has been written
    and the line breaks that follow belong to the same match. *)
Fixpoint replaceLineBreaks (inRun : bool) (text : string) : string :=
  match text with
  | EmptyString => EmptyString
  | String c rest =>
      if Ascii.eqb c newline then
        if inRun then replaceLineBreaks true rest
        else if JS.startsWith rest (String newline EmptyString)
        then String newline (String newline (replaceLineBreaks true rest))
        else String c (replaceLineBreaks false rest)
      else String c (replaceLineBreaks false rest)
  end.

Definition processMarkdownLineBreaks (text : string) : string :=
  replaceLineBreaks false text.

(** No three line breaks in a row, [run] of them having just been read. *)
Fixpoint atMostDouble (run : nat) (s : string) : bool :=
  match s with
  | EmptyString => true
  | String c rest =>
      if Ascii.eqb c newline then (run <? 2)%nat && atMostDouble (S run) rest
      else atMostDouble 0 rest
  end.

(** The text without its line breaks. *)
Fixpoint withoutLineBreaks (s : string) : string :=
  match s with
  | EmptyString => EmptyString
  | String c rest =>
      if Ascii.eqb c newline then withoutLineBreaks rest
      else String c (withoutLineBreaks rest)
  end.

End MarkdownToDocsRequests.

(** ** services/DocsService.ts: the occurrences of [replaceText] *)

Module DocsService.

Import JSString.

(** The loop
    [while ((searchIndex = documentText.indexOf(findText, searchIndex)) !== -1)
       { occurrences.push(searchIndex + 1); searchIndex += findText.length; }]
    run for at most [fuel] evaluations of its condition: [Some occurrences]
    when the loop has ended by then, [None] when it is still running.  The
    positions are those the loop records as long as the array has room for
    them; [collect] below is the loop with its array. *)
Fixpoint occurrences (fuel : nat) (documentText findText : string)
    (searchIndex : nat) : option (list nat) :=
  match fuel with
  | O => None
  | S fuel' =>
      match indexOf documentText findText searchIndex with
      | None => Some []
      | Some i =>
          option_map (cons (i + 1)%nat)
            (occurrences fuel' documentText findText
               (i + String.length findText)%nat)
      end
  end.

(** How the loop ends: by its condition, with the positions recorded, or
    by the [RangeError] ("Invalid array length") that [push] throws when
    the array cannot grow; [replaceText] catches it and answers with the
    error. *)
Inductive Collected : Type :=
| Positions (occurrences : list nat)
| InvalidArrayLength.

(** The loop with the array it fills.  [recorded] is [occurrences] so far
    and [capacity] the number of elements an array can hold in this engine
    (at most 2^32 - 1): [push] succeeds while the array is shorter and
    throws once it is full. *)
Fixpoint collect (capacity fuel : nat) (documentText findText : string)
    (searchIndex : nat) (recorded : list nat) : option Collected :=
  match fuel with
  | O => None
  | S fuel' =>
      match indexOf documentText findText searchIndex with
      | None => Some (Positions recorded)
      | Some i =>
          if (List.length recorded <? capacity)%nat then
            collect capacity fuel' documentText findText
              (i + String.length findText)%nat (recorded ++ [(i + 1)%nat])
          else Some InvalidArrayLength
      end
  end.

(** The text of [n] code units at position [i]. *)
Definition slice (s : string) (i n : nat) : string :=
  String.substring i n s.

(** Each position of the list is at least [gap] after the one before. *)
Fixpoint spaced (gap : nat) (l : list nat) : Prop :=
  match l with
  | a :: rest =>
      match rest with
      | b :: _ => (a + gap <= b)%nat /\ spaced gap rest
      | [] => True
      end
  | [] => True
  end.

End DocsService.


(* ===================================================================== *)
(** * Part II: properties                                                 *)
(* ===================================================================== *)

(** ** The primitives on sample values *)

Example split_words : JS.split " " "a b" = ["a"; "b"].
Proof. reflexivity. Qed.

Example split_empty : JS.split " " EmptyString = [EmptyString].
Proof. reflexivity. Qed.

Example split_double_space : JS.split " " "a  b " = ["a"; EmptyString; "b"; EmptyString].
Proof. reflexivity. Qed.

Example parseInt_plain : JS.parseInt "8080" = JS.Int 8080.
Proof. reflexivity. Qed.

Example parseInt_trailing : JS.parseInt "8080abc" = JS.Int 8080.
Proof. reflexivity. Qed.

Example parseInt_sign_fraction : JS.parseInt " -12.5" = JS.Int (-12).
Proof. reflexivity. Qed.

Example parseInt_letters : JS.parseInt "abc" = JS.NaN.
Proof. reflexivity. Qed.

Example hex_sample : JS.hex [Byte.x00; Byte.xff; Byte.x1a] = "00ff1a".
Proof. reflexivity. Qed.

Example unhex_sample : JS.unhex "00ff1A" = Some [Byte.x00; Byte.xff; Byte.x1a].
Proof. reflexivity. Qed.

Example show_port : Runtime.show 43210 = "43210".
Proof. reflexivity. Qed.

Example authTimeout_ms : AuthManager.authTimeout = 300000.
Proof. reflexivity. Qed.

(** ** The monad *)

Section MonadLemmas.
Import Runtime.

Lemma bind_ok {A B : Type} (m : M A) (f : A -> M B) (w w1 : World) (a : A) :
  m w = (Ok a, w1) -> (m ≫= f) w = f a w1.
Proof. intros H. unfold mbind, M_bind. now rewrite H. Qed.

Lemma bind_err {A B : Type} (m : M A) (f : A -> M B) (w w1 : World) (e : Error) :
  m w = (Err e, w1) -> (m ≫= f) w = (Err e, w1).
Proof. intros H. unfold mbind, M_bind. now rewrite H. Qed.

Lemma truthy_nonempty (s : string) : s ≠ EmptyString -> JS.truthy (Some s) = true.
Proof. destruct s; [congruence | reflexivity]. Qed.

End MonadLemmas.

(** Membership in a list given by its elements, by cases. *)
Ltac not_among :=
  unfold not; intros;
  repeat match goal with H : _ ∈ _ |- _ => revert H end;
  repeat progress (rewrite ?elem_of_app, ?elem_of_cons, ?elem_of_nil);
  intuition discriminate.

(** Unfold the monadic plumbing and compute. *)
Ltac run :=
  unfold mbind, Runtime.M_bind, mret, Runtime.M_ret, Runtime.emit, Runtime.modify,
    Runtime.world, Runtime.throw;
  cbn.

(** ** The in-memory cache *)

Section Cache.
Import Runtime AuthManager.
Variable lib : Lib.
Variable scopes : list string.

Lemma cached_call (inp : Inputs) (w : World) (id : nat) :
  cachedClient w = Some id ->
  getAuthenticatedClient lib scopes inp w = (Ok id, w).
Proof.
  intros H. unfold getAuthenticatedClient.
  rewrite (bind_ok world _ w w w) by reflexivity.
  now rewrite H.
Qed.

Lemma cached_is_client (w : World) (id : nat) :
  cachedClient w = Some id -> client w = Some id.
Proof.
  unfold cachedClient. destruct (client w) as [c|]; [|discriminate].
  destruct (heap w !! c) as [cr|]; [|discriminate].
  destruct (JS.truthy (Google.refresh_token cr)); congruence.
Qed.

(** C3. When the manager's client exists and its credentials carry a
    refresh token, [getAuthenticatedClient] returns that very client and
    leaves the world as it was: nothing is added to the trace, so the
    credential store is not read, no browser is launched and no listener is
    created.  The same holds for every further call in the process,
    whatever the environment does: nothing the manager does invalidates
    the cached client. *)
Theorem cached_client_returned (w : World) (id : nat) :
  cachedClient w = Some id ->
  client w = Some id ∧
  (∀ inp, getAuthenticatedClient lib scopes inp w = (Ok id, w)) ∧
  (∀ inp, added w (snd (getAuthenticatedClient lib scopes inp w)) = []) ∧
  (∀ calls, session lib scopes calls w = (List.map (λ _, Ok id) calls, w)).
Proof.
  intros H. split; [now apply cached_is_client|].
  split; [intros inp; now apply cached_call|].
  split.
  - intros inp. rewrite (cached_call inp w id H). unfold added. simpl.
    apply drop_all.
  - induction calls as [|inp rest IH]; simpl; [reflexivity|].
    rewrite (cached_call inp w id H), IH. reflexivity.
Qed.

End Cache.

(** C3, witness: the world a successful first call leaves behind. *)
Lemma cached_client_witness :
  AuthManager.getAuthenticatedClient Sample.lib ["scope.a"]
    (Sample.inputs (Runtime.TimerFirst None)) Sample.signedIn
  = (Runtime.Ok 0%nat, Sample.signedIn).
Proof.
  apply (cached_client_returned Sample.lib ["scope.a"] Sample.signedIn 0%nat).
  vm_compute. reflexivity.
Defined.

(** ** The callback port *)

Section CallbackPort.
Import Runtime AuthManager.

Lemma override_read (inp : Inputs) (w : World) (s : string) :
  OAUTH_CALLBACK_PORT (env inp) = Some s -> s ≠ EmptyString ->
  getAvailablePort inp w =
    match JS.parseInt s with
    | JS.NaN => (Err (InvalidPort s), w)
    | JS.Int p =>
        if (p <=? 0) || (65535 <? p) then (Err (InvalidPort s), w) else (Ok p, w)
    end.
Proof.
  intros Hs Hne. unfold getAvailablePort. rewrite Hs.
  rewrite (truthy_nonempty s Hne).
  change (default EmptyString (Some s)) with s.
  destruct (JS.parseInt s) as [|p]; [reflexivity|].
  cbn. destruct ((p <=? 0) || (65535 <? p)); reflexivity.
Qed.

Lemma no_override_probe (inp : Inputs) (w : World) :
  JS.truthy (OAUTH_CALLBACK_PORT (env inp)) = false ->
  getAvailablePort inp w =
    match probe inp with
    | Assigned p => (Ok p, set_trace (trace w ++ [EvProbeListen; EvProbeClose]) w)
    | ProbeFailed e => (Err (PortProbeError e), set_trace (trace w ++ [EvProbeListen]) w)
    end.
Proof.
  intros H. unfold getAvailablePort. rewrite H.
  destruct (probe inp) as [p|e]; cbn; [|reflexivity].
  unfold set_trace; run. now rewrite <- app_assoc.
Qed.

Lemma port_failure_propagates (lib : Lib) (scopes : list string) (inp : Inputs)
    (id : nat) (w w1 : World) (e : Error) :
  getAvailablePort inp w = (Err e, w1) ->
  authenticateInteractively lib scopes inp id w = (Err e, w1).
Proof.
  intros H. unfold authenticateInteractively.
  apply bind_err. unfold authWithWeb. now apply bind_err.
Qed.

(** C4, as the code has it.  When OAUTH_CALLBACK_PORT is set to a non-empty
    text, [parseInt(text, 10)] is the port, used exactly when it is an
    integer in [1,65535]; otherwise the flow rejects at once with an error
    whose message names the variable, and the world is untouched (no server
    is created, nothing listens, no browser is opened).  When the variable
    is unset or empty, a throwaway server listens on port 0, the port the
    OS assigned is read, the server is closed, and that port is used. *)
Theorem callback_port_determined (inp : Inputs) (w : World) :
  (∀ s p, OAUTH_CALLBACK_PORT (env inp) = Some s -> s ≠ EmptyString ->
     JS.parseInt s = JS.Int p -> 1 <= p <= 65535 ->
     getAvailablePort inp w = (Ok p, w)) ∧
  (∀ s, OAUTH_CALLBACK_PORT (env inp) = Some s -> s ≠ EmptyString ->
     (∀ p, JS.parseInt s = JS.Int p -> p < 1 ∨ 65535 < p) ->
     getAvailablePort inp w = (Err (InvalidPort s), w) ∧
     JS.includes (message (InvalidPort s)) "OAUTH_CALLBACK_PORT" = true ∧
     ∀ lib scopes id,
       authenticateInteractively lib scopes inp id w = (Err (InvalidPort s), w)) ∧
  (∀ p, JS.truthy (OAUTH_CALLBACK_PORT (env inp)) = false ->
     probe inp = Assigned p ->
     getAvailablePort inp w
     = (Ok p, set_trace (trace w ++ [EvProbeListen; EvProbeClose]) w)).
Proof.
  split; [|split].
  - intros s p Hs Hne Hp Hr. rewrite (override_read inp w s Hs Hne), Hp.
    replace ((p <=? 0) || (65535 <? p)) with false; [reflexivity|].
    symmetry. apply orb_false_intro; [apply Z.leb_gt | apply Z.ltb_ge]; lia.
  - intros s Hs Hne Hbad.
    assert (Hfail : getAvailablePort inp w = (Err (InvalidPort s), w)).
    { rewrite (override_read inp w s Hs Hne).
      destruct (JS.parseInt s) as [|p]; [reflexivity|].
      destruct (Hbad p eq_refl) as [Hlo|Hhi].
      - replace (p <=? 0) with true; [reflexivity|]. symmetry. apply Z.leb_le. lia.
      - replace (65535 <? p) with true; [now rewrite orb_true_r|].
        symmetry. apply Z.ltb_lt. lia. }
    split; [exact Hfail|]. split; [reflexivity|].
    intros lib scopes id. now apply port_failure_propagates.
  - intros p Hunset Hp. rewrite (no_override_probe inp w Hunset), Hp. reflexivity.
Qed.

End CallbackPort.

(** C4, witness: an override that is a port, one that is out of range, and
    no override. *)
Lemma callback_port_witness :
  AuthManager.getAvailablePort (Sample.withPort "8080" (Runtime.TimerFirst None)) Sample.fresh
  = (Runtime.Ok 8080, Sample.fresh) ∧
  AuthManager.getAvailablePort (Sample.withPort "70000" (Runtime.TimerFirst None)) Sample.fresh
  = (Runtime.Err (Runtime.InvalidPort "70000"), Sample.fresh) ∧
  AuthManager.getAvailablePort (Sample.inputs (Runtime.TimerFirst None)) Sample.fresh
  = (Runtime.Ok 43210,
     Runtime.set_trace
       (Runtime.trace Sample.fresh ++ [Runtime.EvProbeListen; Runtime.EvProbeClose])
       Sample.fresh).
Proof.
  split; [|split].
  - apply (proj1 (callback_port_determined _ _) "8080" 8080);
      [reflexivity | discriminate | reflexivity | lia].
  - apply (proj1 (proj2 (callback_port_determined _ _)) "70000");
      [reflexivity | discriminate | intros p [= <-]; lia].
  - apply (proj2 (proj2 (callback_port_determined _ _)) 43210); reflexivity.
Defined.

(** C4, counterexample to the claim as stated: the override "8080abc" is
    not an integer, yet the flow does not fail and uses port 8080; and the
    override set to the empty text is not an integer either, yet the flow
    does not fail and takes an ephemeral port. *)
Lemma port_override_not_validated :
  AuthManager.integerInRange "8080abc" = false ∧
  AuthManager.getAvailablePort (Sample.withPort "8080abc" (Runtime.TimerFirst None)) Sample.fresh
  = (Runtime.Ok 8080, Sample.fresh) ∧
  AuthManager.integerInRange EmptyString = false ∧
  AuthManager.getAvailablePort (Sample.withPort EmptyString (Runtime.TimerFirst None)) Sample.fresh
  = (Runtime.Ok 43210,
     Runtime.set_trace [Runtime.EvProbeListen; Runtime.EvProbeClose] Sample.fresh).
Proof. repeat split; vm_compute; reflexivity. Qed.

(** ** Saved credentials and their scopes *)

Section SavedCredentials.
Import Runtime AuthManager.
Variable scopes : list string.


(** What [loadCachedCredentials] does, by the stored entry. *)
Lemma loadCachedCredentials_cases (id : nat) (w : World) :
  loadCachedCredentials scopes id w =
    match storage w !! OAuthCredentialStorage.MAIN_ACCOUNT_KEY with
    | None =>
        (Ok false, logged [EvGetCredentials OAuthCredentialStorage.MAIN_ACCOUNT_KEY] w)
    | Some stored =>
        let credentials := OAuthCredentialStorage.toGoogleCredentials stored in
        match missingScopes scopes credentials with
        | [] =>
            (Ok true,
             set_heap (<[id := credentials]> (heap w))
               (logged [EvGetCredentials OAuthCredentialStorage.MAIN_ACCOUNT_KEY] w))
        | _ :: _ =>
            (Ok false,
             set_storage (delete OAuthCredentialStorage.MAIN_ACCOUNT_KEY (storage w))
               (logged [EvGetCredentials OAuthCredentialStorage.MAIN_ACCOUNT_KEY;
                        EvDeleteCredentials OAuthCredentialStorage.MAIN_ACCOUNT_KEY] w))
        end
    end.
Proof.
  unfold loadCachedCredentials, OAuthCredentialStorage.loadCredentials,
    OAuthCredentialStorage.clearCredentials, TokenStorage.getCredentials,
    TokenStorage.deleteCredentials, setCredentials.
  run.
  destruct (storage w !! OAuthCredentialStorage.MAIN_ACCOUNT_KEY) as [stored|] eqn:Hs;
    [|reflexivity].
  cbn. destruct (missingScopes scopes _) as [|m ms]; cbn; [reflexivity|].
  replace (0 <? Z.of_nat (S (length ms))) with true
    by (symmetry; apply Z.ltb_lt; lia).
  cbn. rewrite Hs. unfold logged, set_storage, set_trace; cbn.
  now rewrite <- app_assoc.
Qed.

End SavedCredentials.

(** ** The interactive flow *)

Section InteractiveFlow.
Import Runtime AuthManager.
Variable lib : Lib.
Variable scopes : list string.
Variable inp : Inputs.

Lemma logged_nil (w : World) : logged [] w = w.
Proof. destruct w. unfold logged, set_trace; cbn. now rewrite app_nil_r. Qed.

(** Finding the port logs the probe, if there is one, and nothing else. *)
Lemma getAvailablePort_cases (w : World) :
  (∃ p evs, getAvailablePort inp w = (Ok p, logged evs w) ∧
            (evs = [] ∨ evs = [EvProbeListen; EvProbeClose])) ∨
  (∃ e evs, getAvailablePort inp w = (Err e, logged evs w) ∧
            (evs = [] ∨ evs = [EvProbeListen])).
Proof.
  unfold getAvailablePort.
  destruct (JS.truthy (OAUTH_CALLBACK_PORT (env inp))).
  - destruct (JS.parseInt _) as [|p]; cbn.
    + right. eexists _, []. rewrite logged_nil. split; [reflexivity|now left].
    + destruct ((p <=? 0) || (65535 <? p)).
      * right. eexists _, []. rewrite logged_nil. split; [reflexivity|now left].
      * left. eexists _, []. rewrite logged_nil. split; [reflexivity|now left].
  - destruct (probe inp) as [p|e]; run.
    + left. exists p, [EvProbeListen; EvProbeClose]. split; [|now right].
      unfold logged, set_trace; cbn. now rewrite <- app_assoc.
    + right. eexists _, [EvProbeListen]. split; [reflexivity|now right].
Qed.

(** What [authWithWeb] leaves behind when it returns: the server was
    created and [listen] was called on it, after the port was found. *)
Lemma authWithWeb_ok (id : nat) (w w1 : World) (login : OauthWebLogin) :
  authWithWeb lib scopes inp id w = (Ok login, w1) ->
  ∃ evs, w1 = logged (evs ++ [EvCreateServer; EvListen (port login) (host login)]) w ∧
         (evs = [] ∨ evs = [EvProbeListen; EvProbeClose]) ∧
         csrfToken login = JS.hex (randomBytes inp) ∧
         rejected login = match bind inp with
                          | Bound => None
                          | BindFailed err => Some (CallbackServerError err)
                          end.
Proof.
  unfold authWithWeb. intros H.
  destruct (getAvailablePort_cases w) as [(p & evs & Hp & Hevs)|(e & evs & Hp & Hevs)].
  - rewrite (bind_ok _ _ _ _ _ Hp) in H. revert H. run. intros [= <- <-].
    exists evs. cbn. repeat split; [|exact Hevs].
    unfold logged, set_trace; cbn. now rewrite <- !app_assoc.
  - rewrite (bind_err _ _ _ _ _ Hp) in H. discriminate.
Qed.

Lemma authWithWeb_err (id : nat) (w w1 : World) (e : Error) :
  authWithWeb lib scopes inp id w = (Err e, w1) ->
  getAvailablePort inp w = (Err e, w1).
Proof.
  unfold authWithWeb. intros H.
  destruct (getAvailablePort inp w) as [[p|e0] w0] eqn:Hp.
  - rewrite (bind_ok _ _ _ _ _ Hp) in H. revert H. run. discriminate.
  - rewrite (bind_err _ _ _ _ _ Hp) in H. now injection H as -> ->.
Qed.

End InteractiveFlow.

Section Entering.
Import Runtime AuthManager.
Variable lib : Lib.
Variable scopes : list string.
Variable inp : Inputs.

(** The world right after [new google.auth.OAuth2(options)]. *)
Lemma newOAuth2_run (w : World) :
  newOAuth2 w =
    (Ok (next_client w),
     set_next_client (S (next_client w))
       (set_heap (<[next_client w := Google.no_credentials]> (heap w)) w)).
Proof. reflexivity. Qed.

(** Entering the interactive flow: the new client has no credentials, the
    manager's field is as it was, only the store was consulted (and
    possibly cleared), and the rest of the call is the interactive flow. *)
Lemma entering (w0 w : World) (id : nat) :
  entersInteractiveFlow scopes w0 id w ->
  heap w !! id = Some Google.no_credentials ∧
  client w = client w0 ∧
  (∃ evs, trace w = (trace w0 ++ evs)%list ∧
          (evs = [EvGetCredentials OAuthCredentialStorage.MAIN_ACCOUNT_KEY] ∨
           evs = [EvGetCredentials OAuthCredentialStorage.MAIN_ACCOUNT_KEY;
                  EvDeleteCredentials OAuthCredentialStorage.MAIN_ACCOUNT_KEY])) ∧
  getAuthenticatedClient lib scopes inp w0
  = authenticateInteractively lib scopes inp id w.
Proof.
  intros (Hc & -> & Hl).
  rewrite (bind_ok _ _ _ _ _ (newOAuth2_run w0)) in Hl.
  assert (Hrest : getAuthenticatedClient lib scopes inp w0
                  = authenticateInteractively lib scopes inp (next_client w0) w).
  { unfold getAuthenticatedClient.
    rewrite (bind_ok world _ w0 w0 w0) by reflexivity. rewrite Hc.
    rewrite (bind_ok _ _ _ _ _ (newOAuth2_run w0)).
    now rewrite (bind_ok _ _ _ _ _ Hl). }
  rewrite loadCachedCredentials_cases in Hl. cbn in Hl.
  destruct (storage w0 !! OAuthCredentialStorage.MAIN_ACCOUNT_KEY) as [stored|].
  - destruct (missingScopes scopes _) as [|m ms]; [discriminate|].
    injection Hl as <-. cbn. rewrite lookup_insert_eq.
    repeat split; [|exact Hrest]. eexists. split; [reflexivity|now right].
  - injection Hl as <-. cbn. rewrite lookup_insert_eq.
    repeat split; [|exact Hrest]. eexists. split; [reflexivity|now left].
Qed.

End Entering.

(** ** The callback handler *)

Section Callback.
Import Runtime AuthManager.
Variable lib : Lib.

(** Whatever the request and however the handler settles the promise, the
    handler ends by closing the server; in between it answers at most once;
    it touches neither the credential store nor the manager's client. *)
Lemma requestListener_closes (login : OauthWebLogin) (id : nat) (req : Request)
    (w : World) :
  ∃ settled w1 mid,
    requestListener lib login id req w = (Ok settled, w1) ∧
    trace w1 = (trace w ++ EvRequest req :: mid ++ [EvServerClose])%list ∧
    (mid = [] ∨ ∃ body, mid = [EvResponse body]) ∧
    storage w1 = storage w ∧ client w1 = client w.
Proof.
  unfold requestListener, handleCallback, setCredentials. run.
  destruct (negb (JS.truthy (url req)) || _); run.
  { eexists _, _, [_]. split; [reflexivity|]. cbn. rewrite <- !app_assoc. eauto 6. }
  destruct (searchParams lib _ _) as [qs|]; run.
  2:{ eexists _, _, []. split; [reflexivity|]. cbn. rewrite <- !app_assoc. eauto 6. }
  destruct (negb (bool_decide _)); run.
  { eexists _, _, [_]. split; [reflexivity|]. cbn. rewrite <- !app_assoc. eauto 6. }
  destruct (JS.truthy (qs_get qs "error")); run.
  { eexists _, _, [_]. split; [reflexivity|]. cbn. rewrite <- !app_assoc. eauto 6. }
  destruct (JS.truthy (qs_get qs "access_token") && _); run.
  { eexists _, _, [_]. split; [reflexivity|]. cbn. rewrite <- !app_assoc. eauto 6. }
  eexists _, _, []. split; [reflexivity|]. cbn. rewrite <- !app_assoc. eauto 6.
Qed.


End Callback.

(** ** Outcomes of the interactive flow *)

Section Outcomes.
Import Runtime AuthManager.
Variable lib : Lib.
Variable scopes : list string.
Variable inp : Inputs.

(** While the browser is opened nothing happens to the flow, unless the
    bind has failed and its error is not handled. *)
Lemma whileOpening_bound (w : World) :
  bind inp = Bound -> whileOpening inp w = (Ok tt, w).
Proof. intros H. unfold whileOpening. now rewrite H. Qed.

Lemma whileOpening_handled (w : World) :
  unhandled inp = false -> whileOpening inp w = (Ok tt, w).
Proof. intros H. unfold whileOpening. rewrite H. now destruct (bind inp). Qed.

Lemma whileOpening_cases :
  (∀ w, whileOpening inp w = (Ok tt, w)) ∨
  (∃ err, bind inp = BindFailed err ∧ unhandled inp = true).
Proof.
  unfold whileOpening. destruct (bind inp) as [|err]; [now left|].
  destruct (unhandled inp); [right; now exists err | now left].
Qed.

(** After [authWithWeb] the browser is opened and the race begins. *)
Lemma after_login (id : nat) (w w1 : World) (login : OauthWebLogin) :
  authWithWeb lib scopes inp id w = (Ok login, w1) ->
  (∀ w2, whileOpening inp w2 = (Ok tt, w2)) ->
  authenticateInteractively lib scopes inp id w
  = (race lib inp login id ;;
     c ← credentials id;
     OAuthCredentialStorage.saveCredentials c (now inp);;
     modify (set_client (Some id));;
     mret id) (logged [EvOpen (authUrl login)] w1).
Proof.
  intros H Hopen. unfold authenticateInteractively.
  rewrite (bind_ok _ _ _ _ _ H).
  rewrite (bind_ok (open _) _ w1 (logged [EvOpen (authUrl login)] w1) tt)
    by reflexivity.
  now rewrite (bind_ok _ _ _ _ _ (Hopen _)).
Qed.

(** The bind has failed and its error is not handled: the flow ends when
    the browser has been opened. *)
Lemma after_login_unhandled (id : nat) (w w1 : World) (login : OauthWebLogin)
    (err : string) :
  authWithWeb lib scopes inp id w = (Ok login, w1) ->
  bind inp = BindFailed err -> unhandled inp = true ->
  authenticateInteractively lib scopes inp id w
  = (Err (UnhandledServerError err), logged [EvOpen (authUrl login)] w1).
Proof.
  intros H Hb Hu. unfold authenticateInteractively.
  rewrite (bind_ok _ _ _ _ _ H).
  rewrite (bind_ok (open _) _ w1 (logged [EvOpen (authUrl login)] w1) tt)
    by reflexivity.
  apply bind_err. unfold whileOpening. now rewrite Hb, Hu.
Qed.

Lemma race_bind_failed (login : OauthWebLogin) (id : nat) (w : World) (e : Error) :
  rejected login = Some e ->
  race lib inp login id w = (Err e, logged [EvSetTimeout authTimeout] w).
Proof. intros H. unfold race. rewrite H. reflexivity. Qed.

Lemma race_request (login : OauthWebLogin) (id : nat) (w w1 : World) (req : Request)
    (settled : Result unit) :
  rejected login = None ->
  arrival inp = RequestFirst req ->
  requestListener lib login id req (logged [EvSetTimeout authTimeout] w)
  = (Ok settled, w1) ->
  race lib inp login id w
  = (match settled with Ok _ => Ok tt | Err e => Err e end, w1).
Proof.
  intros Hr Ha Hl. unfold race. rewrite Hr, Ha.
  rewrite (bind_ok (emit _) _ w (logged [EvSetTimeout authTimeout] w) tt) by reflexivity.
  rewrite (bind_ok _ _ _ _ _ Hl). now destruct settled.
Qed.


Lemma race_timer (login : OauthWebLogin) (id : nat) (w : World) (late : option Request) :
  rejected login = None ->
  arrival inp = TimerFirst late ->
  ∃ w1 evs,
    race lib inp login id w = (Err AuthTimeout, w1) ∧
    trace w1 = (trace w ++ EvSetTimeout authTimeout :: evs)%list ∧
    storage w1 = storage w ∧ client w1 = client w ∧
    (∀ c, EvSetCredentials c ∉ evs) ∧ (∀ u, EvOpen u ∉ evs).
Proof.
  intros Hr Ha. unfold race. rewrite Hr, Ha.
  rewrite (bind_ok (emit _) _ w (logged [EvSetTimeout authTimeout] w) tt) by reflexivity.
  destruct late as [req|].
  - destruct (requestListener_closes lib login id req (logged [EvSetTimeout authTimeout] w))
      as (settled & w1 & mid & Hl & Htr & Hmid & Hst & Hcl).
    exists w1, (EvRequest req :: mid ++ [EvServerClose])%list.
    split.
    { unfold mbind at 1, M_bind at 1. unfold mbind at 1, M_bind at 1.
      rewrite Hl. reflexivity. }
    split; [rewrite Htr; cbn; now rewrite <- app_assoc|].
    split; [exact Hst|]. split; [exact Hcl|].
    destruct Hmid as [->|[body ->]]; split; not_among.
  - exists (logged [EvSetTimeout authTimeout] w), []. cbn.
    repeat split; try not_among.
Qed.

Lemma saveCredentials_cases (c : Google.Credentials) (t : Z) (w : World) :
  OAuthCredentialStorage.saveCredentials c t w =
    match TokenStorage.validateCredentials (OAuthCredentialStorage.toStorageSchema c t) with
    | Some e =>
        (Err (StorageError e),
         logged [EvSetCredentials (OAuthCredentialStorage.toStorageSchema c t)] w)
    | None =>
        (Ok tt,
         set_storage
           (<[OAuthCredentialStorage.MAIN_ACCOUNT_KEY :=
                OAuthCredentialStorage.toStorageSchema c t]> (storage w))
           (logged [EvSetCredentials (OAuthCredentialStorage.toStorageSchema c t)] w))
    end.
Proof.
  unfold OAuthCredentialStorage.saveCredentials, TokenStorage.setCredentials.
  destruct (TokenStorage.validateCredentials (OAuthCredentialStorage.toStorageSchema c t));
    reflexivity.
Qed.

(** Everything after the browser was opened: the timer is set, then come
    the events of the listener and of the credential store; no second
    browser is opened. *)
Lemma after_open (login : OauthWebLogin) (id : nat) (w : World) :
  ∃ r w1 post,
    (race lib inp login id ;;
     c ← credentials id;
     OAuthCredentialStorage.saveCredentials c (now inp);;
     modify (set_client (Some id));;
     mret id) w = (r, w1) ∧
    trace w1 = (trace w ++ EvSetTimeout authTimeout :: post)%list ∧
    (∀ u, EvOpen u ∉ post) ∧
    (∀ e, rejected login = Some e -> r = Err e).
Proof.
  destruct (rejected login) as [e|] eqn:Hr.
  { exists (Err e), (logged [EvSetTimeout authTimeout] w), [].
    split; [apply bind_err; now apply race_bind_failed|].
    split; [reflexivity|]. split; [not_among|]. now intros e' [= ->]. }
  destruct (arrival inp) as [req|late] eqn:Ha.
  - destruct (requestListener_closes lib login id req (logged [EvSetTimeout authTimeout] w))
      as (settled & w1 & mid & Hl & Htr & Hmid & Hst & Hcl).
    cbn in Htr. rewrite <- app_assoc in Htr. cbn in Htr.
    pose proof (race_request login id w w1 req settled Hr Ha Hl) as Hrace.
    destruct settled as [[]|e].
    + rewrite (bind_ok _ _ _ _ _ Hrace).
      unfold credentials.
      rewrite (bind_ok (world ≫= _) _ w1 w1 (default Google.no_credentials (heap w1 !! id)))
        by reflexivity.
      set (c := default Google.no_credentials (heap w1 !! id)).
      pose proof (saveCredentials_cases c (now inp) w1) as Hsave.
      destruct (TokenStorage.validateCredentials _) as [e|].
      * eexists _, _, _. split; [apply bind_err; exact Hsave|].
        cbn. rewrite Htr. rewrite <- ?app_assoc. cbn.
        split; [reflexivity|]. split; [|discriminate].
        destruct Hmid as [->|[body ->]]; not_among.
      * rewrite (bind_ok _ _ _ _ _ Hsave). run.
        eexists _, _, _. split; [reflexivity|].
        cbn. rewrite Htr. rewrite <- ?app_assoc. cbn.
        split; [reflexivity|]. split; [|discriminate].
        destruct Hmid as [->|[body ->]]; not_among.
    + eexists _, _, _. split; [apply bind_err; exact Hrace|].
      rewrite Htr. cbn. rewrite <- ?app_assoc. cbn.
      split; [reflexivity|]. split; [|discriminate].
      destruct Hmid as [->|[body ->]]; not_among.
  - destruct (race_timer login id w late Hr Ha)
      as (w1 & evs & Hrace & Htr & _ & _ & _ & Hopen).
    eexists _, _, _. split; [apply bind_err; exact Hrace|].
    split; [exact Htr|]. split; [exact Hopen|discriminate].
Qed.

(** Once [authWithWeb] has returned, the browser is opened at the
    authorization URL, whatever became of the bind, and it is opened
    once. *)
Lemma browser_opened_once (login : OauthWebLogin) (id : nat) (w w1 : World) :
  authWithWeb lib scopes inp id w = (Ok login, w1) ->
  ∃ r w' post,
    authenticateInteractively lib scopes inp id w = (r, w') ∧
    trace w' = (trace w1 ++ EvOpen (authUrl login) :: post)%list ∧
    (∀ u, EvOpen u ∉ post).
Proof.
  intros Hlogin.
  destruct whileOpening_cases as [Hopen|(err & Hb & Hu)].
  - destruct (after_open login id (logged [EvOpen (authUrl login)] w1))
      as (r & w' & post & Hrun & Htr & Hpost & _).
    exists r, w', (EvSetTimeout authTimeout :: post).
    split; [now rewrite (after_login id w _ login Hlogin Hopen)|].
    split; [rewrite Htr; cbn; now rewrite <- !app_assoc|].
    intros u Hin. apply elem_of_cons in Hin as [Hin|Hin]; [discriminate|].
    now apply (Hpost u).
  - eexists _, _, [].
    split; [apply (after_login_unhandled id w _ login err Hlogin Hb Hu)|].
    split; [reflexivity|].
    intros u Hin. now apply elem_of_nil in Hin.
Qed.

(** C5. The flow races the completion of the callback against a timer of
    5 minutes (300000 ms).  When the timer fires first,
    [getAuthenticatedClient] rejects with the timeout error, whose message
    speaks of the browser tab that got stuck; nothing is saved: the call adds
    no write to the trace of the credential store, and the store and the
    manager's client are as they were when the flow began (also when a
    request reaches the still open listener afterwards). *)
Theorem timeout_rejects (w0 w w1 : World) (id : nat) (login : OauthWebLogin)
    (late : option Request) :
  entersInteractiveFlow scopes w0 id w ->
  authWithWeb lib scopes inp id w = (Ok login, w1) ->
  bind inp = Bound ->
  arrival inp = TimerFirst late ->
  ∃ w' evs,
    getAuthenticatedClient lib scopes inp w0 = (Err AuthTimeout, w') ∧
    authTimeout = 5 * 60 * 1000 ∧
    JS.includes (message AuthTimeout) "timed out after 5 minutes" = true ∧
    JS.includes (message AuthTimeout) "browser tab may have gotten stuck" = true ∧
    trace w' = (trace w1 ++ EvOpen (authUrl login) :: EvSetTimeout authTimeout :: evs)%list ∧
    (∀ c, EvSetCredentials c ∉ added w0 w') ∧
    storage w' = storage w ∧
    client w' = client w0.
Proof.
  intros Henter Hlogin Hbind Harr.
  destruct (entering lib scopes inp w0 w id Henter)
    as (_ & Hclient & (evs0 & Htr0 & Hevs0) & Hcall).
  destruct (authWithWeb_ok lib scopes inp id w w1 login Hlogin)
    as (evs1 & -> & Hevs1 & _ & Hrej).
  rewrite Hbind in Hrej.
  destruct (race_timer login id
              (logged [EvOpen (authUrl login)]
                 (logged (evs1 ++ [EvCreateServer; EvListen (port login) (host login)]) w))
              late Hrej Harr)
    as (w' & evs & Hrace & Htr & Hst & Hcl & Hset & _).
  exists w', evs.
  split.
  { rewrite Hcall, (after_login id w _ login Hlogin
                   (λ w2, whileOpening_bound w2 Hbind)). apply bind_err. exact Hrace. }
  split; [reflexivity|]. split; [reflexivity|]. split; [reflexivity|].
  split; [rewrite Htr; cbn; now rewrite <- ?app_assoc|].
  split; [|split; [exact Hst | now rewrite Hcl]].
  unfold added. rewrite Htr. cbn. rewrite Htr0, <- ?app_assoc.
  rewrite drop_app_length.
  intros c Hin.
  repeat (rewrite ?elem_of_app, ?elem_of_cons, ?elem_of_nil in Hin).
  destruct Hevs0 as [->| ->]; destruct Hevs1 as [->| ->];
    repeat (rewrite ?elem_of_app, ?elem_of_cons, ?elem_of_nil in Hin);
    specialize (Hset c); intuition discriminate.
Qed.

End Outcomes.


(** C5, witness: a first call in a new process; nobody answers. *)
Lemma timeout_witness :
  fst (AuthManager.getAuthenticatedClient Sample.lib ["scope.a"]
         (Sample.inputs (Runtime.TimerFirst None)) Sample.fresh)
  = Runtime.Err Runtime.AuthTimeout.
Proof.
  edestruct (timeout_rejects Sample.lib ["scope.a"]
               (Sample.inputs (Runtime.TimerFirst None)) Sample.fresh)
    as (w' & evs & H & _).
  - split; [reflexivity|]. split; reflexivity.
  - lazy; reflexivity.
  - reflexivity.
  - reflexivity.
  - rewrite H. reflexivity.
Defined.

(** ** Listening and launching *)

Section Ordering.
Import Runtime AuthManager.
Variable lib : Lib.
Variable scopes : list string.
Variable inp : Inputs.

Lemma added_app (w w' : World) (evs : list Event) :
  trace w' = (trace w ++ evs)%list -> added w w' = evs.
Proof. intros H. unfold added. rewrite H. apply drop_app_length. Qed.

(** C6, as the code has it.  In every interactive flow [listen] is called
    on the callback server, on the chosen port and host, directly before
    the browser is opened at the authorization URL, and the browser is
    opened once.  The flow does not wait for the outcome of the bind: when
    the bind fails the browser is opened all the same.  When no port can
    be determined, neither a listener nor a browser is started. *)
Theorem listen_called_before_launch (w0 w : World) (id : nat) :
  entersInteractiveFlow scopes w0 id w ->
  (∀ e w1, authWithWeb lib scopes inp id w = (Err e, w1) ->
     getAuthenticatedClient lib scopes inp w0 = (Err e, w1) ∧
     (∀ u, EvOpen u ∉ added w0 w1) ∧
     (∀ p h, EvListen p h ∉ added w0 w1)) ∧
  (∀ login w1, authWithWeb lib scopes inp id w = (Ok login, w1) ->
     ∃ r w' pre post,
       getAuthenticatedClient lib scopes inp w0 = (r, w') ∧
       added w0 w'
       = (pre ++ [EvCreateServer; EvListen (port login) (host login);
                  EvOpen (authUrl login)] ++ post)%list ∧
       (∀ u, EvOpen u ∉ pre) ∧
       (∀ u, EvOpen u ∉ post) ∧
       (∀ err, bind inp = BindFailed err ->
          EvOpen (authUrl login) ∈ added w0 w')).
Proof.
  intros Henter.
  destruct (entering lib scopes inp w0 w id Henter)
    as (_ & _ & (evs0 & Htr0 & Hevs0) & Hcall).
  split.
  - intros e w1 Hlogin.
    split; [rewrite Hcall; apply port_failure_propagates;
            now apply (authWithWeb_err lib scopes inp id)|].
    apply authWithWeb_err in Hlogin.
    destruct (getAvailablePort_cases inp w)
      as [(p & evs & Hp & _)|(e' & evs & Hp & Hevs)];
      rewrite Hp in Hlogin; [discriminate|].
    injection Hlogin as _ <-.
    rewrite (added_app w0 (logged evs w) (evs0 ++ evs))
      by (cbn; now rewrite Htr0, <- app_assoc).
    destruct Hevs0 as [->| ->]; destruct Hevs as [->| ->]; split; not_among.
  - intros login w1 Hlogin.
    destruct (authWithWeb_ok lib scopes inp id w w1 login Hlogin)
      as (evs1 & -> & Hevs1 & _ & Hrej).
    destruct (browser_opened_once lib scopes inp login id w _ Hlogin)
      as (r & w' & post & Hrun & Htr & Hpost).
    assert (Hadded : added w0 w'
                     = ((evs0 ++ evs1)
                          ++ [EvCreateServer; EvListen (port login) (host login);
                              EvOpen (authUrl login)] ++ post)%list).
    { apply added_app. rewrite Htr. cbn. rewrite Htr0, <- !app_assoc.
      reflexivity. }
    exists r, w', (evs0 ++ evs1)%list, post.
    split; [now rewrite Hcall|]. split; [exact Hadded|].
    split; [destruct Hevs0 as [->| ->]; destruct Hevs1 as [->| ->]; not_among|].
    split; [exact Hpost|].
    intros err _. rewrite Hadded. rewrite !elem_of_app.
    right. left. apply elem_of_cons. right. apply elem_of_cons. right.
    apply elem_of_cons. now left.
Qed.

End Ordering.

(** C6, witness: a first call in a new process, answered by a good
    callback. *)
Lemma listen_called_before_launch_witness :
  ∃ r w' pre post,
    AuthManager.getAuthenticatedClient Sample.lib ["scope.a"]
      (Sample.inputs (Runtime.RequestFirst Sample.goodRequest)) Sample.fresh = (r, w') ∧
    AuthManager.added Sample.fresh w'
    = (pre ++ [Runtime.EvCreateServer; Runtime.EvListen 43210 "localhost";
               Runtime.EvOpen
                 (Runtime.generateAuthUrl Sample.lib AuthManager.CLIENT_ID
                    {| Runtime.redirect_uri := AuthManager.cloudFunctionRedirectUri;
                       Runtime.access_type := "offline";
                       Runtime.scope := ["scope.a"];
                       Runtime.state := Sample.csrf;
                       Runtime.prompt := "consent" |})] ++ post)%list.
Proof.
  edestruct (listen_called_before_launch Sample.lib ["scope.a"]
               (Sample.inputs (Runtime.RequestFirst Sample.goodRequest))
               Sample.fresh) as [_ H].
  - split; [reflexivity|]. split; reflexivity.
  - edestruct H as (r & w' & pre & post & Hrun & Hadded & _); [lazy; reflexivity|].
    exists r, w', pre, post. split; [exact Hrun|exact Hadded].
Defined.

(** C6, counterexample to the claim as stated: the bind of the callback
    server fails (the port is taken), so no listener ever accepts
    connections; the browser is opened at the authorization URL all the
    same, whether the error of the bind is emitted while the browser is
    being opened or later. *)
Lemma browser_launched_without_listener :
  (Runtime.bind (Sample.bindFails "Error: listen EADDRINUSE" true)
   = Runtime.BindFailed "Error: listen EADDRINUSE" ∧
   ∃ r w' u post,
     AuthManager.getAuthenticatedClient Sample.lib ["scope.a"]
       (Sample.bindFails "Error: listen EADDRINUSE" true) Sample.fresh
     = (r, w') ∧
     Runtime.trace w'
     = (Runtime.EvGetCredentials "main-account" :: Runtime.EvProbeListen
        :: Runtime.EvProbeClose :: Runtime.EvCreateServer
        :: Runtime.EvListen 43210 "localhost" :: Runtime.EvOpen u :: post)) ∧
  (Runtime.bind (Sample.bindFails "Error: listen EADDRINUSE" false)
   = Runtime.BindFailed "Error: listen EADDRINUSE" ∧
   ∃ r w' u post,
     AuthManager.getAuthenticatedClient Sample.lib ["scope.a"]
       (Sample.bindFails "Error: listen EADDRINUSE" false) Sample.fresh
     = (r, w') ∧
     Runtime.trace w'
     = (Runtime.EvGetCredentials "main-account" :: Runtime.EvProbeListen
        :: Runtime.EvProbeClose :: Runtime.EvCreateServer
        :: Runtime.EvListen 43210 "localhost" :: Runtime.EvOpen u :: post)).
Proof.
  split; (split; [reflexivity|]);
    eexists _, _, _, _; split; vm_compute; reflexivity.
Qed.

(** ** The successful callback *)

Section SuccessPath.
Import Runtime AuthManager.
Variable lib : Lib.
Variable scopes : list string.
Variable inp : Inputs.

Lemma truthy_or_undefined (v : option string) :
  JS.truthy (JS.or_undefined v) = JS.truthy v.
Proof. unfold JS.or_undefined. destruct (JS.truthy v) eqn:H; [exact H|reflexivity]. Qed.

(** Tokens with an access token pass the check of the store. *)
Lemma tokens_valid (c : Google.Credentials) (t : Z) :
  JS.truthy (Google.access_token c) = true ->
  TokenStorage.validateCredentials (OAuthCredentialStorage.toStorageSchema c t) = None.
Proof.
  intros H. unfold TokenStorage.validateCredentials. cbn.
  rewrite truthy_or_undefined, H. cbn.
  unfold JS.or_default, JS.or_undefined.
  destruct (Google.token_type c) as [[|a s]|]; reflexivity.
Qed.

(** A good callback: the handler installs the tokens, answers, resolves
    and closes. *)
Lemma requestListener_success (login : OauthWebLogin) (id : nat) (req : Request)
    (qs : list (string * string)) (w : World) :
  JS.startsWith (default EmptyString (url req)) "/oauth2callback" = true ->
  searchParams lib (default EmptyString (url req))
    ("http://" +:+ host login +:+ ":" +:+ show (port login)) = Some qs ->
  qs_get qs "state" = Some (csrfToken login) ->
  JS.truthy (qs_get qs "error") = false ->
  JS.truthy (qs_get qs "access_token") = true ->
  JS.truthy (qs_get qs "expiry_date") = true ->
  requestListener lib login id req w
  = (Ok (Ok tt),
     logged [EvRequest req;
             EvResponse "Authentication successful! Please return to the console.";
             EvServerClose]
       (set_heap (<[id := tokens qs]> (heap w)) w)).
Proof.
  intros Hpath Hqs Hstate Herr Hacc Hexp.
  unfold requestListener, handleCallback. rewrite Hpath, Hqs.
  assert (Ht : JS.truthy (url req) = true).
  { destruct (url req) as [[|c u]|]; try discriminate. reflexivity. }
  rewrite Ht, Hstate, Herr, Hacc, Hexp.
  rewrite bool_decide_eq_true_2 by reflexivity.
  unfold setCredentials. run. unfold logged, set_trace, set_heap; cbn.
  now rewrite <- !app_assoc.
Qed.

(** When the handler resolves, it was such a callback. *)
Lemma requestListener_resolved (login : OauthWebLogin) (id : nat) (req : Request)
    (w w1 : World) :
  requestListener lib login id req w = (Ok (Ok tt), w1) ->
  ∃ qs,
    searchParams lib (default EmptyString (url req))
      ("http://" +:+ host login +:+ ":" +:+ show (port login)) = Some qs ∧
    qs_get qs "state" = Some (csrfToken login) ∧
    JS.truthy (qs_get qs "access_token") = true ∧
    heap w1 = <[id := tokens qs]> (heap w).
Proof.
  unfold requestListener, handleCallback, setCredentials. run.
  destruct (negb (JS.truthy (url req)) || _); run; [discriminate|].
  destruct (searchParams lib _ _) as [qs|]; run; [|discriminate].
  destruct (bool_decide (qs_get qs "state" = Some (csrfToken login))) eqn:Hs;
    run; [|discriminate].
  destruct (JS.truthy (qs_get qs "error")); run; [discriminate|].
  destruct (JS.truthy (qs_get qs "access_token")) eqn:Ha; run; [|discriminate].
  destruct (JS.truthy (qs_get qs "expiry_date")); run; [|discriminate].
  intros [= <-]. exists qs. cbn.
  repeat split; [exact (proj1 (bool_decide_eq_true _) Hs) | exact Ha].
Qed.

(** When the interactive flow returns a client, it is the client of the
    flow, and its credentials are the tokens of the callback the listener
    received. *)
Lemma interactive_success (id r : nat) (w w' : World) :
  authenticateInteractively lib scopes inp id w = (Ok r, w') ->
  r = id ∧
  ∃ login w1 req qs,
    authWithWeb lib scopes inp id w = (Ok login, w1) ∧
    arrival inp = RequestFirst req ∧
    searchParams lib (default EmptyString (url req))
      ("http://" +:+ host login +:+ ":" +:+ show (port login)) = Some qs ∧
    qs_get qs "state" = Some (csrfToken login) ∧
    heap w' !! id = Some (tokens qs).
Proof.
  intros H.
  destruct (authWithWeb lib scopes inp id w) as [[login|e] w1] eqn:Hlogin.
  2:{ unfold authenticateInteractively in H.
      rewrite (bind_err _ _ _ _ _ Hlogin) in H. discriminate. }
  destruct (whileOpening_cases inp) as [Hopen|(err & Hb & Hu)].
  2:{ rewrite (after_login_unhandled lib scopes inp id w w1 login err
                 Hlogin Hb Hu) in H. discriminate. }
  rewrite (after_login lib scopes inp id w w1 login Hlogin Hopen) in H.
  set (w2 := logged [EvOpen (authUrl login)] w1) in *.
  destruct (rejected login) as [e|] eqn:Hr.
  { rewrite (bind_err _ _ _ _ _ (race_bind_failed lib inp login id w2 e Hr)) in H.
    discriminate. }
  destruct (arrival inp) as [req|late] eqn:Ha.
  2:{ destruct (race_timer lib inp login id w2 late Hr Ha) as (w3 & evs & Hrace & _).
      rewrite (bind_err _ _ _ _ _ Hrace) in H. discriminate. }
  destruct (requestListener_closes lib login id req (logged [EvSetTimeout authTimeout] w2))
    as (settled & w3 & mid & Hl & _).
  pose proof (race_request lib inp login id w2 w3 req settled Hr Ha Hl) as Hrace.
  destruct settled as [[]|e].
  2:{ rewrite (bind_err _ _ _ _ _ Hrace) in H. discriminate. }
  destruct (requestListener_resolved login id req _ w3 Hl) as (qs & Hqs & Hstate & Hacc & Hheap).
  rewrite (bind_ok _ _ _ _ _ Hrace) in H.
  unfold credentials in H.
  rewrite (bind_ok (world ≫= _) _ w3 w3 (default Google.no_credentials (heap w3 !! id)))
    in H by reflexivity.
  assert (Hc : default Google.no_credentials (heap w3 !! id) = tokens qs).
  { rewrite Hheap, lookup_insert_eq. reflexivity. }
  rewrite Hc in H.
  pose proof (saveCredentials_cases (tokens qs) (now inp) w3) as Hsave.
  rewrite (tokens_valid (tokens qs) (now inp) Hacc) in Hsave.
  rewrite (bind_ok _ _ _ _ _ Hsave) in H. revert H. run. intros [= <- <-].
  split; [reflexivity|]. exists login, w1, req, qs. cbn.
  repeat split; try assumption. rewrite Hheap. apply lookup_insert_eq.
Qed.

(** The interactive flow with a good callback: the tokens are on the
    client, they are saved under the main account, the client is cached. *)
Lemma interactive_succeeds (id : nat) (w w1 : World)
    (login : OauthWebLogin) (req : Request) (qs : list (string * string)) :
  authWithWeb lib scopes inp id w = (Ok login, w1) ->
  bind inp = Bound ->
  arrival inp = RequestFirst req ->
  JS.startsWith (default EmptyString (url req)) "/oauth2callback" = true ->
  searchParams lib (default EmptyString (url req))
    ("http://" +:+ host login +:+ ":" +:+ show (port login)) = Some qs ->
  qs_get qs "state" = Some (csrfToken login) ->
  JS.truthy (qs_get qs "error") = false ->
  JS.truthy (qs_get qs "access_token") = true ->
  JS.truthy (qs_get qs "expiry_date") = true ->
  let saved := OAuthCredentialStorage.toStorageSchema (tokens qs) (now inp) in
  authenticateInteractively lib scopes inp id w
  = (Ok id,
     set_client (Some id)
       (set_storage (<[OAuthCredentialStorage.MAIN_ACCOUNT_KEY := saved]> (storage w1))
          (logged [EvOpen (authUrl login); EvSetTimeout authTimeout; EvRequest req;
                   EvResponse "Authentication successful! Please return to the console.";
                   EvServerClose; EvSetCredentials saved]
             (set_heap (<[id := tokens qs]> (heap w1)) w1)))).
Proof.
  intros Hlogin Hbind Harr Hpath Hqs Hstate Herr Hacc Hexp saved.
  destruct (authWithWeb_ok lib scopes inp id w w1 login Hlogin)
    as (evs & Hw1 & _ & _ & Hrej).
  rewrite Hbind in Hrej.
  rewrite (after_login lib scopes inp id w w1 login Hlogin
             (λ w2, whileOpening_bound inp w2 Hbind)).
  set (w2 := logged [EvOpen (authUrl login)] w1).
  pose proof (race_request lib inp login id w2 _ req (Ok tt) Hrej Harr
                (requestListener_success login id req qs _
                   Hpath Hqs Hstate Herr Hacc Hexp)) as Hrace.
  rewrite (bind_ok _ _ _ _ _ Hrace).
  match goal with |- (_ ≫= _) ?w = _ => set (w3 := w) end.
  unfold credentials.
  rewrite (bind_ok (world ≫= _) _ w3 w3 (tokens qs))
    by (subst w3; run; now rewrite lookup_insert_eq).
  pose proof (saveCredentials_cases (tokens qs) (now inp) w3) as Hsave.
  rewrite (tokens_valid (tokens qs) (now inp) Hacc) in Hsave.
  rewrite (bind_ok _ _ _ _ _ Hsave). run.
  unfold logged, set_client, set_storage, set_trace, set_heap; cbn.
  rewrite <- !app_assoc. reflexivity.
Qed.

End SuccessPath.

(** ** Saved credentials that lack a required scope *)

Section Scopes.
Import Runtime AuthManager.
Variable lib : Lib.
Variable scopes : list string.

Lemma missing_nonempty (c : Google.Credentials) :
  (∃ s, s ∈ scopes ∧ s ∉ savedScopes c) -> missingScopes scopes c ≠ [].
Proof.
  intros (s & Hin & Hnot) Hnil.
  assert (Hm : In s (missingScopes scopes c)).
  { unfold missingScopes. apply filter_In. split.
    - now apply list_elem_of_In.
    - now rewrite bool_decide_eq_false_2. }
  rewrite Hnil in Hm. exact Hm.
Qed.

Lemma scope_mismatch_enters (w0 : World) (stored : TokenStorage.OAuthCredentials) :
  cachedClient w0 = None ->
  storage w0 !! OAuthCredentialStorage.MAIN_ACCOUNT_KEY = Some stored ->
  missingScopes scopes (OAuthCredentialStorage.toGoogleCredentials stored) ≠ [] ->
  entersInteractiveFlow scopes w0 (next_client w0) (cleared w0).
Proof.
  intros Hc Hs Hm. split; [exact Hc|]. split; [reflexivity|].
  rewrite (bind_ok _ _ _ _ _ (newOAuth2_run w0)).
  rewrite loadCachedCredentials_cases. cbn. rewrite Hs. cbn.
  destruct (missingScopes scopes _) as [|m ms]; [congruence|reflexivity].
Qed.

(** The interactive flow only adds to the trace. *)
Lemma interactive_trace (inp : Inputs) (id : nat) (w : World) :
  ∃ r w' evs,
    authenticateInteractively lib scopes inp id w = (r, w') ∧
    trace w' = (trace w ++ evs)%list.
Proof.
  destruct (authWithWeb lib scopes inp id w) as [[login|e] w1] eqn:Hlogin.
  - destruct (browser_opened_once lib scopes inp login id w w1 Hlogin)
      as (r & w' & post & Hrun & Htr & _).
    destruct (authWithWeb_ok lib scopes inp id w w1 login Hlogin)
      as (evs1 & -> & _).
    exists r, w'. eexists. split; [exact Hrun|].
    rewrite Htr. cbn. rewrite <- !app_assoc. reflexivity.
  - pose proof (port_failure_propagates lib scopes inp id w w1 e
                  (authWithWeb_err lib scopes inp id w w1 e Hlogin)) as Hrun.
    apply authWithWeb_err in Hlogin.
    destruct (getAvailablePort_cases inp w)
      as [(p & evs & Hp & _)|(e' & evs & Hp & _)];
      rewrite Hp in Hlogin; [discriminate|].
    injection Hlogin as _ <-.
    exists (Err e), (logged evs w), evs. split; [exact Hrun|reflexivity].
Qed.

(** What [authWithWeb] returns once the port is known. *)
Lemma authWithWeb_of_port (inp : Inputs) (id : nat) (w w1 : World) (p : Z) :
  getAvailablePort inp w = (Ok p, w1) ->
  let host := JS.or_default (OAUTH_CALLBACK_HOST (env inp)) "localhost" in
  ∃ login,
    authWithWeb lib scopes inp id w
    = (Ok login, logged [EvCreateServer; EvListen p host] w1) ∧
    port login = p ∧ AuthManager.host login = host ∧
    csrfToken login = JS.hex (randomBytes inp) ∧
    authUrl login
    = generateAuthUrl lib CLIENT_ID
        {| redirect_uri := cloudFunctionRedirectUri;
           access_type := "offline";
           scope := scopes;
           state := encodeState lib
             {| uri := if gui inp
                       then Some ("http://" +:+ host +:+ ":" +:+ show p
                                  +:+ "/oauth2callback")
                       else None;
                manual := negb (gui inp);
                csrf := JS.hex (randomBytes inp) |};
           prompt := "consent" |}.
Proof.
  intros Hp host. unfold authWithWeb. rewrite (bind_ok _ _ _ _ _ Hp). run.
  eexists. split; [apply (f_equal2 pair); [reflexivity|] | repeat split].
  unfold logged, set_trace; cbn. now rewrite <- !app_assoc.
Qed.

(** C2. The manager has no usable cached client and the store holds
    credentials whose recorded scopes lack a required scope:
    [getAuthenticatedClient] calls the store's delete operation, the entry
    is gone, and the call goes on with the interactive flow on a client
    without credentials.  The read and the delete are the first two events
    of the call, so the delete comes before any launch of the browser.
    The flow that follows is the real one: unless no port can be
    determined (the call then rejects with that error), the callback
    server is created, [listen] is called on it and the browser is opened,
    once, at the authorization URL for the required scopes; and when a
    good callback arrives the call returns the new client, carrying the
    tokens of the callback, which are saved and remembered.  If the call
    returns a client at all, its credentials are the tokens of the callback
    that the listener received, not the stored ones. *)
Theorem insufficient_scopes_force_reauth (inp : Inputs) (w0 : World)
    (stored : TokenStorage.OAuthCredentials) :
  cachedClient w0 = None ->
  storage w0 !! OAuthCredentialStorage.MAIN_ACCOUNT_KEY = Some stored ->
  (∃ s, s ∈ scopes ∧ s ∉ savedScopes (OAuthCredentialStorage.toGoogleCredentials stored)) ->
  let id := next_client w0 in
  let w := cleared w0 in
  let host := JS.or_default (OAUTH_CALLBACK_HOST (env inp)) "localhost" in
  storage w !! OAuthCredentialStorage.MAIN_ACCOUNT_KEY = None ∧
  heap w !! id = Some Google.no_credentials ∧
  getAuthenticatedClient lib scopes inp w0 = authenticateInteractively lib scopes inp id w ∧
  ∃ r w' evs,
    getAuthenticatedClient lib scopes inp w0 = (r, w') ∧
    added w0 w'
    = EvGetCredentials OAuthCredentialStorage.MAIN_ACCOUNT_KEY
      :: EvDeleteCredentials OAuthCredentialStorage.MAIN_ACCOUNT_KEY :: evs ∧
    (∀ u pre post, added w0 w' = (pre ++ EvOpen u :: post)%list ->
       EvDeleteCredentials OAuthCredentialStorage.MAIN_ACCOUNT_KEY ∈ pre) ∧
    (∀ e w1, getAvailablePort inp w = (Err e, w1) ->
       r = Err e ∧ ∀ u, EvOpen u ∉ evs) ∧
    (∀ p w1, getAvailablePort inp w = (Ok p, w1) ->
       ∃ post,
         evs = (added w w1
                  ++ [EvCreateServer; EvListen p host;
                      EvOpen
                        (generateAuthUrl lib CLIENT_ID
                           {| redirect_uri := cloudFunctionRedirectUri;
                              access_type := "offline";
                              scope := scopes;
                              state := encodeState lib
                                {| uri := if gui inp
                                          then Some ("http://" +:+ host +:+ ":"
                                                     +:+ show p +:+ "/oauth2callback")
                                          else None;
                                   manual := negb (gui inp);
                                   csrf := JS.hex (randomBytes inp) |};
                              prompt := "consent" |})]
                  ++ post)%list ∧
         (∀ u, EvOpen u ∉ added w w1) ∧
         (∀ u, EvOpen u ∉ post) ∧
         (∀ req qs,
            bind inp = Bound ->
            arrival inp = RequestFirst req ->
            JS.startsWith (default EmptyString (url req)) "/oauth2callback" = true ->
            searchParams lib (default EmptyString (url req))
              ("http://" +:+ host +:+ ":" +:+ show p) = Some qs ->
            qs_get qs "state" = Some (JS.hex (randomBytes inp)) ->
            JS.truthy (qs_get qs "error") = false ->
            JS.truthy (qs_get qs "access_token") = true ->
            JS.truthy (qs_get qs "expiry_date") = true ->
            r = Ok id ∧
            heap w' !! id = Some (tokens qs) ∧
            client w' = Some id ∧
            storage w' !! OAuthCredentialStorage.MAIN_ACCOUNT_KEY
            = Some (OAuthCredentialStorage.toStorageSchema (tokens qs) (now inp)))) ∧
    (∀ id', r = Ok id' ->
       id' = id ∧
       ∃ login w1 req qs,
         authWithWeb lib scopes inp id w = (Ok login, w1) ∧
         arrival inp = RequestFirst req ∧
         searchParams lib (default EmptyString (url req))
           ("http://" +:+ AuthManager.host login +:+ ":" +:+ show (port login))
         = Some qs ∧
         heap w' !! id = Some (tokens qs)).
Proof.
  intros Hc Hs Hmissing id w host.
  pose proof (scope_mismatch_enters w0 stored Hc Hs (missing_nonempty _ Hmissing))
    as Henter.
  destruct (entering lib scopes inp w0 w id Henter) as (Hheap & _ & _ & Hcall).
  split; [apply lookup_delete_eq|]. split; [exact Hheap|]. split; [exact Hcall|].
  assert (Hfirst : ∀ w' evs, trace w' = (trace w ++ evs)%list ->
            added w0 w'
            = EvGetCredentials OAuthCredentialStorage.MAIN_ACCOUNT_KEY
              :: EvDeleteCredentials OAuthCredentialStorage.MAIN_ACCOUNT_KEY :: evs).
  { intros w' evs Htr. apply added_app. rewrite Htr. cbn. now rewrite <- app_assoc. }
  assert (Horder : ∀ w' evs,
            added w0 w'
            = EvGetCredentials OAuthCredentialStorage.MAIN_ACCOUNT_KEY
              :: EvDeleteCredentials OAuthCredentialStorage.MAIN_ACCOUNT_KEY :: evs ->
            ∀ u pre post, added w0 w' = (pre ++ EvOpen u :: post)%list ->
              EvDeleteCredentials OAuthCredentialStorage.MAIN_ACCOUNT_KEY ∈ pre).
  { intros w' evs Hadded u pre post Hsplit. rewrite Hadded in Hsplit.
    destruct pre as [|a [|b pre]]; cbn in Hsplit; try discriminate.
    injection Hsplit as _ <- _. apply elem_of_cons. right. apply elem_of_cons. now left. }
  destruct (getAvailablePort_cases inp w)
    as [(p & evs0 & Hp & Hevs0)|(e & evs0 & Hp & Hevs0)].
  - destruct (authWithWeb_of_port inp id w _ p Hp)
      as (login & Hlogin & Hport & Hhost & Hcsrf & Hurl).
    fold host in Hlogin, Hhost, Hurl.
    destruct (browser_opened_once lib scopes inp login id w _ Hlogin)
      as (r & w' & post & Hrun & Htr & Hpost).
    exists r, w', (evs0 ++ [EvCreateServer; EvListen p host;
                            EvOpen (authUrl login)] ++ post)%list.
    assert (Hadded := Hfirst w' _ ltac:(rewrite Htr; cbn;
                                         rewrite <- !app_assoc; reflexivity)).
    split; [now rewrite Hcall|]. split; [exact Hadded|].
    split; [exact (Horder _ _ Hadded)|].
    split; [intros e w1 He; rewrite Hp in He; discriminate|].
    split.
    + intros p' w1 Hp'. rewrite Hp in Hp'. injection Hp' as <- <-.
      exists post.
      rewrite (added_app w (logged evs0 w) evs0) by reflexivity.
      split; [now rewrite Hurl|].
      split; [destruct Hevs0 as [->| ->]; not_among|].
      split; [exact Hpost|].
      intros req qs Hbind Harr Hpath Hqs Hstate Herr Hacc Hexp.
      pose proof (interactive_succeeds lib scopes inp id w _ login req qs Hlogin
                    Hbind Harr Hpath
                    ltac:(rewrite Hhost, Hport; exact Hqs)
                    ltac:(rewrite Hcsrf; exact Hstate)
                    Herr Hacc Hexp) as Hgood.
      cbv zeta in Hgood. rewrite Hrun in Hgood. injection Hgood as -> ->.
      split; [reflexivity|]. cbn.
      split; [apply lookup_insert_eq|]. split; [reflexivity|].
      apply lookup_insert_eq.
    + intros id' ->.
      destruct (interactive_success lib scopes inp id id' w w' Hrun)
        as (-> & login' & w1 & req & qs & Hl & Ha & Hq & _ & Hh).
      split; [reflexivity|]. now exists login', w1, req, qs.
  - pose proof (port_failure_propagates lib scopes inp id w _ e Hp) as Hrun.
    exists (Err e), (logged evs0 w), evs0.
    assert (Hadded := Hfirst (logged evs0 w) evs0 eq_refl).
    split; [now rewrite Hcall|]. split; [exact Hadded|].
    split; [exact (Horder _ _ Hadded)|].
    split.
    + intros e' w1 He. rewrite Hp in He. injection He as <- _.
      split; [reflexivity|]. destruct Hevs0 as [->| ->]; not_among.
    + split; [intros p w1 Hp'; rewrite Hp in Hp'; discriminate|].
      intros id' [=].
Qed.

End Scopes.

(** C2, witness: the store holds credentials for scope.a, the session
    requires scope.a and scope.b, and a good callback answers the flow: the
    entry is deleted, then the listener is started and the browser opened,
    and the client returned carries the token of the callback, not the
    stored one. *)
Lemma insufficient_scopes_witness :
  ∃ w' u post,
    AuthManager.getAuthenticatedClient Sample.lib ["scope.a"; "scope.b"]
      (Sample.inputs (Runtime.RequestFirst Sample.goodRequest)) Sample.savedScopeA
    = (Runtime.Ok 0%nat, w') ∧
    AuthManager.added Sample.savedScopeA w'
    = (Runtime.EvGetCredentials "main-account"
       :: Runtime.EvDeleteCredentials "main-account"
       :: Runtime.EvProbeListen :: Runtime.EvProbeClose
       :: Runtime.EvCreateServer :: Runtime.EvListen 43210 "localhost"
       :: Runtime.EvOpen u :: post) ∧
    Google.access_token <$> (Runtime.heap w' !! 0%nat) = Some (Some "tok").
Proof.
  edestruct (insufficient_scopes_force_reauth Sample.lib ["scope.a"; "scope.b"]
               (Sample.inputs (Runtime.RequestFirst Sample.goodRequest))
               Sample.savedScopeA Sample.storedScopeA)
    as (_ & _ & _ & r & w' & evs & Hrun & Hadded & _ & _ & Hflow & _).
  - reflexivity.
  - vm_compute. reflexivity.
  - exists "scope.b".
    split; apply (bool_decide_unpack _); vm_compute; exact I.
  - edestruct (Hflow 43210) as (post & Hevs & _ & _ & Hgood);
      [lazy; reflexivity|].
    edestruct (Hgood Sample.goodRequest) as (Hr & Hheap & _);
      [reflexivity | reflexivity | vm_compute; reflexivity
      | vm_compute; reflexivity | vm_compute; reflexivity
      | vm_compute; reflexivity | vm_compute; reflexivity
      | vm_compute; reflexivity |].
    eexists w', _, post.
    split; [rewrite Hrun, Hr; reflexivity|].
    split; [rewrite Hadded, Hevs; vm_compute; reflexivity|].
    change (Runtime.next_client Sample.savedScopeA) with 0%nat in Hheap.
    rewrite Hheap. vm_compute. reflexivity.
Defined.

(** ** A callback without a scope *)

Section Scopeless.
Import Runtime AuthManager.
Variable lib : Lib.
Variable scopes : list string.

Lemma missing_all (c : Google.Credentials) :
  Google.scope c = None -> missingScopes scopes c = scopes.
Proof.
  intros H. unfold missingScopes, savedScopes. rewrite H.
  induction scopes as [|s rest IH]; [reflexivity|].
  cbn. rewrite bool_decide_eq_false_2 by apply not_elem_of_empty.
  cbn. now rewrite IH.
Qed.

(** C10. The manager requires at least one scope and a successful
    callback carries no [scope] parameter: the credentials are saved with an
    undefined scope.  On a later call that finds them, with no usable cached
    client, the saved scope set is empty, every required scope is missing,
    the stored credentials are deleted and the call goes on with the
    interactive flow on a client without credentials: the saved token is
    not installed. *)
Theorem scopeless_token_forces_reauth (inp : Inputs) (w0 w w1 : World) (id : nat)
    (login : OauthWebLogin) (req : Request) (qs : list (string * string)) :
  scopes ≠ [] ->
  entersInteractiveFlow scopes w0 id w ->
  authWithWeb lib scopes inp id w = (Ok login, w1) ->
  bind inp = Bound ->
  arrival inp = RequestFirst req ->
  JS.startsWith (default EmptyString (url req)) "/oauth2callback" = true ->
  searchParams lib (default EmptyString (url req))
    ("http://" +:+ host login +:+ ":" +:+ show (port login)) = Some qs ->
  qs_get qs "state" = Some (csrfToken login) ->
  JS.truthy (qs_get qs "error") = false ->
  JS.truthy (qs_get qs "access_token") = true ->
  JS.truthy (qs_get qs "expiry_date") = true ->
  qs_get qs "scope" = None ->
  ∃ w' saved,
    getAuthenticatedClient lib scopes inp w0 = (Ok id, w') ∧
    storage w' !! OAuthCredentialStorage.MAIN_ACCOUNT_KEY = Some saved ∧
    TokenStorage.scope (TokenStorage.token saved) = None ∧
    ∀ inp2 w2,
      storage w2 !! OAuthCredentialStorage.MAIN_ACCOUNT_KEY = Some saved ->
      cachedClient w2 = None ->
      savedScopes (OAuthCredentialStorage.toGoogleCredentials saved) = ∅ ∧
      missingScopes scopes (OAuthCredentialStorage.toGoogleCredentials saved) = scopes ∧
      EvDeleteCredentials OAuthCredentialStorage.MAIN_ACCOUNT_KEY
        ∈ added w2 (cleared w2) ∧
      storage (cleared w2) !! OAuthCredentialStorage.MAIN_ACCOUNT_KEY = None ∧
      heap (cleared w2) !! next_client w2 = Some Google.no_credentials ∧
      getAuthenticatedClient lib scopes inp2 w2
      = authenticateInteractively lib scopes inp2 (next_client w2) (cleared w2).
Proof.
  intros Hne Henter Hlogin Hbind Harr Hpath Hqs Hstate Herr Hacc Hexp Hscope.
  destruct (entering lib scopes inp w0 w id Henter) as (_ & _ & _ & Hcall).
  eexists _, (OAuthCredentialStorage.toStorageSchema (tokens qs) (now inp)).
  split.
  { rewrite Hcall.
    apply (interactive_succeeds lib scopes inp id w w1 login req qs); assumption. }
  split; [cbn; apply lookup_insert_eq|].
  assert (Hnone : Google.scope
                    (OAuthCredentialStorage.toGoogleCredentials
                       (OAuthCredentialStorage.toStorageSchema (tokens qs) (now inp)))
                  = None).
  { cbn. now rewrite Hscope. }
  split; [cbn; now rewrite Hscope|].
  intros inp2 w2 Hsaved Hc2.
  pose proof (missing_all _ Hnone) as Hall.
  assert (Henter2 : entersInteractiveFlow scopes w2 (next_client w2) (cleared w2)).
  { apply (scope_mismatch_enters scopes w2 _ Hc2 Hsaved). now rewrite Hall. }
  destruct (entering lib scopes inp2 w2 _ _ Henter2) as (Hheap & _ & _ & Hcall2).
  split; [unfold savedScopes; now rewrite Hnone|].
  split; [exact Hall|].
  split.
  { rewrite (added_app w2 (cleared w2)
               [EvGetCredentials OAuthCredentialStorage.MAIN_ACCOUNT_KEY;
                EvDeleteCredentials OAuthCredentialStorage.MAIN_ACCOUNT_KEY])
      by reflexivity.
    apply elem_of_cons. right. apply elem_of_cons. now left. }
  split; [apply lookup_delete_eq|]. split; [exact Hheap|exact Hcall2].
Qed.

End Scopeless.

(** C10, witness: a first call answered by a callback without a scope, and
    a second process that finds what the first one saved. *)
Lemma scopeless_token_witness :
  ∃ w' saved,
    AuthManager.getAuthenticatedClient Sample.lib ["scope.a"]
      (Sample.inputs (Runtime.RequestFirst Sample.noScopeRequest)) Sample.fresh
    = (Runtime.Ok 0%nat, w') ∧
    Runtime.storage w' !! "main-account" = Some saved ∧
    TokenStorage.scope (TokenStorage.token saved) = None.
Proof.
  edestruct (scopeless_token_forces_reauth Sample.lib ["scope.a"]
               (Sample.inputs (Runtime.RequestFirst Sample.noScopeRequest))
               Sample.fresh) as (w' & saved & H1 & H2 & H3 & _).
  - discriminate.
  - split; [reflexivity|]. split; reflexivity.
  - lazy; reflexivity.
  - reflexivity.
  - reflexivity.
  - reflexivity.
  - lazy; reflexivity.
  - vm_compute; reflexivity.
  - vm_compute; reflexivity.
  - vm_compute; reflexivity.
  - vm_compute; reflexivity.
  - vm_compute; reflexivity.
  - exists w', saved. split; [exact H1|]. split; [exact H2|exact H3].
Defined.

(** ** The hybrid store decides once *)

Section HybridSelection.
Import HybridTokenStorage.
Variable FORCE_FILE_STORAGE : option string.
Variable isAvailable : nat -> Probe.

(** Once a back end is cached, operations are passed to it and nothing
    else happens. *)
Lemma run_cached (backend : TokenStorageType) (ops : list Operation) (s : State) :
  storage s = Some backend ->
  run FORCE_FILE_STORAGE isAvailable ops s
  = {| storage := Some backend; calls := calls s ++ delegations backend ops |}.
Proof.
  revert s. induction ops as [|op ops IH]; intros s Hs.
  - cbn. destruct s as [st cs]. cbn in *. subst st. now rewrite app_nil_r.
  - cbn [run List.fold_left]. unfold perform at 2, getStorage. rewrite Hs.
    destruct op; cbn [snd];
      (etransitivity; [apply IH; exact Hs|]); cbn;
      rewrite <- ?app_assoc; reflexivity.
Qed.

(** C8. The back end is decided by the first operation and cached: with
    the force-file override no probe is made and the file store is used;
    otherwise the keychain is used exactly when the probe, asked once,
    resolves to true (an unavailable or throwing probe gives the file
    store).  For any non-empty sequence of operations, the calls made are
    that one probe (none under the override) followed by every operation
    passed to the chosen back end; and however many operations follow, the
    number of probes and the cached back end stay the same. *)
Theorem backend_decided_once :
  ∃ backend,
    (forceFileStorage FORCE_FILE_STORAGE = true -> backend = ENCRYPTED_FILE) ∧
    (forceFileStorage FORCE_FILE_STORAGE = false ->
       (backend = KEYCHAIN ↔ isAvailable 0 = Resolves true)) ∧
    ∀ ops, ops ≠ [] ->
      let s := run FORCE_FILE_STORAGE isAvailable ops init in
      s = {| storage := Some backend;
             calls := (if forceFileStorage FORCE_FILE_STORAGE then []
                       else [EvIsAvailable]) ++ delegations backend ops |} ∧
      probes s = (if forceFileStorage FORCE_FILE_STORAGE then 0 else 1)%nat ∧
      ∀ more,
        let s' := run FORCE_FILE_STORAGE isAvailable more s in
        storage s' = Some backend ∧
        probes s' = probes s ∧
        calls s' = (calls s ++ delegations backend more)%list.
Proof.
  set (backend := if forceFileStorage FORCE_FILE_STORAGE then ENCRYPTED_FILE
                  else match isAvailable 0 with
                       | Resolves true => KEYCHAIN
                       | _ => ENCRYPTED_FILE
                       end).
  assert (Hprobes : ∀ b ops pre,
             List.length (List.filter isProbe (pre ++ delegations b ops))
             = List.length (List.filter isProbe pre)).
  { intros b ops pre. rewrite List.filter_app, List.length_app.
    replace (List.filter isProbe (delegations b ops)) with (@nil Event);
      [cbn; lia|].
    induction ops as [|op ops IH]; [reflexivity|].
    unfold delegations in *. cbn. rewrite List.filter_app, <- IH.
    now destruct op. }
  exists backend. split; [|split].
  - intros Hf. subst backend. now rewrite Hf.
  - intros Hf. subst backend. rewrite Hf.
    destruct (isAvailable 0) as [[|]|]; split; congruence.
  - intros ops Hne s.
    assert (Hs : s = {| storage := Some backend;
                        calls := (if forceFileStorage FORCE_FILE_STORAGE then []
                                  else [EvIsAvailable]) ++ delegations backend ops |}).
    { subst s. destruct ops as [|op ops]; [congruence|].
      cbn [run List.fold_left]. unfold perform at 2, getStorage, initializeStorage.
      cbn [storage init probes calls List.filter List.length].
      subst backend.
      destruct (forceFileStorage FORCE_FILE_STORAGE);
        [|destruct (isAvailable 0) as [[|]|]];
        destruct op; cbn [snd storage calls];
        (etransitivity; [apply run_cached; reflexivity|]); reflexivity. }
    split; [exact Hs|]. split.
    + rewrite Hs. unfold probes. cbn [calls]. rewrite Hprobes.
      now destruct (forceFileStorage FORCE_FILE_STORAGE).
    + intros more s'. subst s'.
      rewrite (run_cached backend more s) by (rewrite Hs; reflexivity).
      cbn [storage calls]. split; [reflexivity|]. split; [|reflexivity].
      unfold probes. cbn [calls]. apply Hprobes.
Qed.

End HybridSelection.

(** C8, witness: the keychain is available; three operations. *)
Lemma backend_decided_once_witness :
  HybridTokenStorage.run (Some "false") (λ _, HybridTokenStorage.Resolves true)
    [HybridTokenStorage.GetCredentials "test-server";
     HybridTokenStorage.GetCredentials "another-server";
     HybridTokenStorage.ClearAll] HybridTokenStorage.init
  = {| HybridTokenStorage.storage := Some HybridTokenStorage.KEYCHAIN;
       HybridTokenStorage.calls :=
         [HybridTokenStorage.EvIsAvailable;
          HybridTokenStorage.EvDelegate HybridTokenStorage.KEYCHAIN
            (HybridTokenStorage.GetCredentials "test-server");
          HybridTokenStorage.EvDelegate HybridTokenStorage.KEYCHAIN
            (HybridTokenStorage.GetCredentials "another-server");
          HybridTokenStorage.EvDelegate HybridTokenStorage.KEYCHAIN
            HybridTokenStorage.ClearAll] |}.
Proof.
  destruct (backend_decided_once (Some "false") (λ _, HybridTokenStorage.Resolves true))
    as (backend & _ & Hb & H).
  destruct (H [HybridTokenStorage.GetCredentials "test-server";
               HybridTokenStorage.GetCredentials "another-server";
               HybridTokenStorage.ClearAll]) as (Hs & _); [discriminate|].
  rewrite Hs.
  rewrite (proj2 (Hb eq_refl) eq_refl). reflexivity.
Defined.

(** ** Hexadecimal text and splitting *)

Section HexAndSplit.

Lemma split_nonempty (sep : ascii) (s : string) : JS.split sep s ≠ [].
Proof.
  destruct s as [|c rest]; cbn; [discriminate|].
  destruct (Ascii.eqb c sep); [discriminate|].
  destruct (JS.split sep rest); discriminate.
Qed.

Lemma concat_cons (sep x : string) (xs : list string) :
  xs ≠ [] -> String.concat sep (x :: xs) = x +:+ sep +:+ String.concat sep xs.
Proof. destruct xs; [congruence|reflexivity]. Qed.

(** Joining the segments with the separator gives the text back. *)
Lemma concat_split (sep : ascii) (s : string) :
  String.concat (String sep EmptyString) (JS.split sep s) = s.
Proof.
  induction s as [|c rest IH]; [reflexivity|].
  cbn [JS.split]. pose proof (split_nonempty sep rest) as Hne.
  destruct (Ascii.eqb c sep) eqn:Hc.
  - apply Ascii.eqb_eq in Hc. subst c.
    rewrite (concat_cons _ _ _ Hne), IH. reflexivity.
  - destruct (JS.split sep rest) as [|seg segs]; [congruence|].
    destruct segs as [|seg' segs].
    + cbn in *. now rewrite IH.
    + rewrite concat_cons in IH by discriminate.
      rewrite concat_cons by discriminate. rewrite <- IH. reflexivity.
Qed.

Lemma unhex_hex_of_byte (b : Byte.byte) (s : string) :
  JS.unhex (JS.hex_of_byte b +:+ s)
  = match JS.unhex s with Some bs => Some (b :: bs) | None => None end.
Proof. destruct b; reflexivity. Qed.

Lemma unhex_hex (bs : list Byte.byte) : JS.unhex (JS.hex bs) = Some bs.
Proof.
  induction bs as [|b bs IH]; [reflexivity|].
  cbn [JS.hex]. now rewrite unhex_hex_of_byte, IH.
Qed.

Lemma split_hex_of_byte (b : Byte.byte) (s : string) :
  JS.split ":" (JS.hex_of_byte b +:+ s)
  = match JS.split ":" s with
    | [] => [JS.hex_of_byte b]
    | seg :: segs => (JS.hex_of_byte b +:+ seg) :: segs
    end.
Proof.
  destruct b; cbv -[JS.split]; cbn; destruct (JS.split ":" s); reflexivity.
Qed.

Lemma append_assoc (a b c : string) : (a +:+ b) +:+ c = a +:+ (b +:+ c).
Proof.
  induction a as [|x a IH]; [reflexivity|].
  change (String x ((a +:+ b) +:+ c) = String x (a +:+ (b +:+ c))).
  now rewrite IH.
Qed.

(** Hexadecimal text has no colon: the first colon after it ends the
    segment. *)
Lemma split_hex (bs : list Byte.byte) (rest : string) :
  JS.split ":" (JS.hex bs +:+ ":" +:+ rest) = JS.hex bs :: JS.split ":" rest.
Proof.
  induction bs as [|b bs IH]; [reflexivity|].
  cbn [JS.hex]. rewrite append_assoc, split_hex_of_byte, IH. reflexivity.
Qed.

Lemma split_hex_last (bs : list Byte.byte) :
  JS.split ":" (JS.hex bs) = [JS.hex bs].
Proof.
  induction bs as [|b bs IH]; [reflexivity|].
  cbn [JS.hex]. rewrite split_hex_of_byte, IH. reflexivity.
Qed.

End HexAndSplit.

(** ** Encryption at rest *)

Section EncryptionProperties.
Import FileTokenStorage.
Variable cipher : Cipher.

Lemma split_blob (iv authTag encrypted : list Byte.byte) :
  JS.split ":" (JS.hex iv +:+ ":" +:+ JS.hex authTag +:+ ":" +:+ JS.hex encrypted)
  = [JS.hex iv; JS.hex authTag; JS.hex encrypted].
Proof. now rewrite !split_hex, split_hex_last. Qed.

(** The blob of a call is made with the bytes the call took from the
    random source. *)
Lemma encrypt_blob (key : list Byte.byte) (n : nat) (text : string) (r : Random) :
  let iv := List.map (source r) (List.seq (taken r) n) in
  encrypt cipher key n text r
  = (JS.hex iv +:+ ":"
       +:+ JS.hex (snd (seal cipher key iv (list_byte_of_string text))) +:+ ":"
       +:+ JS.hex (fst (seal cipher key iv (list_byte_of_string text))),
     {| source := source r; taken := (taken r + n)%nat |}).
Proof.
  cbv zeta. unfold encrypt, randomBytes.
  now destruct (seal cipher key _ (list_byte_of_string text)).
Qed.

(** C9. For a cipher that unseals what it sealed: decrypting a blob made
    by [encrypt] under the same key gives the plaintext back, whatever the
    key, the text and the state of the random source.  Each call of
    [encrypt] draws its own IV: of two calls in a row, the first blob
    carries the next bytes of the random source and the second blob the
    bytes after those, and the two blobs of the same text under the same
    key differ exactly when these two draws differ.  [decrypt] fails with
    "Invalid encrypted data format" on every input that is not three
    hexadecimal segments with colons between them. *)
Theorem encrypt_decrypt_roundtrip :
  correct cipher ->
  (∀ key n text r,
     decrypt cipher key (fst (encrypt cipher key n text r)) = inr text) ∧
  (∀ key n text r,
     let first := encrypt cipher key n text r in
     let second := encrypt cipher key n text (snd first) in
     let iv1 := List.map (source r) (List.seq (taken r) n) in
     let iv2 := List.map (source r) (List.seq (taken r + n) n) in
     head (JS.split ":" (fst first)) = Some (JS.hex iv1) ∧
     head (JS.split ":" (fst second)) = Some (JS.hex iv2) ∧
     (fst first ≠ fst second ↔ iv1 ≠ iv2)) ∧
  (∀ key data,
     ¬ threeHexSegments data ->
     decrypt cipher key data = inl InvalidFormat ∧
     message InvalidFormat = "Invalid encrypted data format").
Proof.
  intros Hcorrect. split; [|split].
  - intros key n text r. rewrite encrypt_blob. cbn [fst]. unfold decrypt.
    set (iv := List.map (source r) (List.seq (taken r) n)).
    pose proof (Hcorrect key iv (list_byte_of_string text)) as Hc.
    rewrite split_blob, !unhex_hex, Hc.
    now rewrite string_of_list_byte_of_string.
  - intros key n text r. cbv zeta.
    rewrite (encrypt_blob key n text r). cbn [fst snd].
    rewrite encrypt_blob. cbn [fst snd source taken].
    set (iv1 := List.map (source r) (List.seq (taken r) n)).
    set (iv2 := List.map (source r) (List.seq (taken r + n) n)).
    rewrite !split_blob. cbn [head].
    split; [reflexivity|]. split; [reflexivity|].
    split.
    + intros Hne Heq. apply Hne. now rewrite Heq.
    + intros Hne Heq.
      apply (f_equal (JS.split ":")) in Heq. rewrite !split_blob in Heq.
      injection Heq as Hiv _ _.
      apply (f_equal JS.unhex) in Hiv. rewrite !unhex_hex in Hiv.
      congruence.
  - intros key data Hnot. split; [|reflexivity].
    unfold decrypt.
    pose proof (concat_split ":" data) as Hjoin.
    destruct (JS.split ":" data) as [|p0 [|p1 [|p2 [|p3 ps]]]]; try reflexivity.
    destruct (JS.unhex p0) as [iv|] eqn:H0; [|reflexivity].
    destruct (JS.unhex p1) as [authTag|] eqn:H1; [|reflexivity].
    destruct (JS.unhex p2) as [encrypted|] eqn:H2; [|reflexivity].
    exfalso. apply Hnot. exists p0, p1, p2.
    unfold isHex. rewrite H0, H1, H2. cbn in Hjoin.
    repeat split; eauto.
Qed.

End EncryptionProperties.

Lemma toyCipher_correct : FileTokenStorage.correct FileTokenStorage.toyCipher.
Proof.
  intros key iv text. cbn. now rewrite bool_decide_eq_true_2.
Qed.

(** C9, witness: the stand-in cipher, the text of the tests and a random
    source whose first two draws of sixteen bytes differ. *)
Lemma encrypt_decrypt_witness :
  let first :=
    FileTokenStorage.encrypt FileTokenStorage.toyCipher Sample.bytes32 16
      "test-data-123" FileTokenStorage.sampleRandom in
  let second :=
    FileTokenStorage.encrypt FileTokenStorage.toyCipher Sample.bytes32 16
      "test-data-123" (snd first) in
  FileTokenStorage.decrypt FileTokenStorage.toyCipher Sample.bytes32 (fst first)
  = inr "test-data-123" ∧
  FileTokenStorage.decrypt FileTokenStorage.toyCipher Sample.bytes32 (fst second)
  = inr "test-data-123" ∧
  fst first ≠ fst second.
Proof.
  cbv zeta.
  destruct (encrypt_decrypt_roundtrip FileTokenStorage.toyCipher toyCipher_correct)
    as (Hround & Hfresh & _).
  split; [apply Hround|]. split; [apply Hround|].
  apply (Hfresh Sample.bytes32 16%nat "test-data-123" FileTokenStorage.sampleRandom).
  vm_compute. discriminate.
Defined.

Example decrypt_invalid_data :
  FileTokenStorage.decrypt FileTokenStorage.toyCipher Sample.bytes32 "invalid-data"
  = inl FileTokenStorage.InvalidFormat.
Proof. reflexivity. Qed.

(** ** The secure launcher *)

Section LauncherProperties.
Import SecureBrowserLauncher.
Variable protocol : string -> option string.
Variable platform : string.
Variable succeeds : Spawn -> bool.

Lemma tryLaunchers_spawned (ls : list Spawn) :
  ∀ sp, sp ∈ snd (tryLaunchers succeeds ls) -> sp ∈ ls.
Proof.
  induction ls as [|l rest IH]; intros sp; cbn; [intros H; exact H|].
  destruct (succeeds l); cbn.
  - intros H. apply list_elem_of_singleton in H. subst. apply elem_of_cons. now left.
  - destruct (tryLaunchers succeeds rest) as [r spawned]. cbn in *.
    intros H. apply elem_of_cons in H as [->|H]; apply elem_of_cons; [now left|].
    right. now apply IH.
Qed.

Lemma tryLaunchers_first (l : Spawn) (rest : list Spawn) :
  ∃ more, snd (tryLaunchers succeeds (l :: rest)) = l :: more.
Proof.
  cbn. destruct (succeeds l); [now exists []|].
  destruct (tryLaunchers succeeds rest) as [r spawned]. now exists spawned.
Qed.

(** The quoted text that [launchers] builds for PowerShell reads back as
    the URL, whatever quotes the URL contains. *)
Lemma readSingleQuoted_escaped (url : string) :
  readSingleQuoted (escapeSingleQuotes url +:+ "'") = Some (url, EmptyString).
Proof.
  induction url as [|c url IH]; [reflexivity|].
  cbn [escapeSingleQuotes]. destruct (Ascii.eqb c "'") eqn:Hc.
  - apply Ascii.eqb_eq in Hc. subst c.
    change (readSingleQuoted
              (String "'" (String "'" (escapeSingleQuotes url +:+ "'")))
            = Some (String "'" url, EmptyString)).
    cbn [readSingleQuoted Ascii.eqb Bool.eqb]. now rewrite IH.
  - change (readSingleQuoted (String c (escapeSingleQuotes url +:+ "'"))
            = Some (String c url, EmptyString)).
    cbn [readSingleQuoted]. now rewrite Hc, IH.
Qed.

Lemma stripPrefix_app (p s : string) : stripPrefix p (p +:+ s) = Some s.
Proof.
  induction p as [|a p IH]; [reflexivity|].
  change (stripPrefix (String a p) (String a (p +:+ s)) = Some s).
  cbn [stripPrefix]. now rewrite Ascii.eqb_refl.
Qed.

Lemma startProcess_operand (url : string) :
  startProcessOperand ("Start-Process '" +:+ escapeSingleQuotes url +:+ "'")
  = Some url.
Proof.
  unfold startProcessOperand.
  now rewrite stripPrefix_app, readSingleQuoted_escaped.
Qed.

(** C7, as the launcher has it.  A URL whose scheme is not exactly http or
    https is rejected with the "Unsafe protocol" error, whatever else is
    wrong with it; a URL with scheme http or https that contains a newline,
    a carriage return or NUL is rejected with the "invalid characters"
    error; in both cases no process is spawned.  A URL with scheme http or
    https and without such characters passes the validation; every process
    then spawned receives it as one argument: as the only element of the
    argument vector or, for PowerShell, as the text that the one quoted
    operand of [Start-Process] reads back to; and on macOS, Linux and
    Windows a launcher is spawned. *)
Theorem unsafe_urls_rejected_before_spawn (url : string) :
  (∀ p, protocol url = Some p -> p ≠ "http:" -> p ≠ "https:" ->
     openBrowserSecurely protocol platform succeeds url = (inl (UnsafeProtocol p), []) ∧
     JS.includes (message (UnsafeProtocol p)) "Unsafe protocol" = true) ∧
  ((protocol url = Some "http:" ∨ protocol url = Some "https:") ->
   hasControl url = true ->
   openBrowserSecurely protocol platform succeeds url = (inl InvalidCharacters, []) ∧
   JS.includes (message InvalidCharacters) "invalid characters" = true) ∧
  ((protocol url = Some "http:" ∨ protocol url = Some "https:") ->
   hasControl url = false ->
   validateUrl protocol url = None ∧
   (∀ sp, sp ∈ snd (openBrowserSecurely protocol platform succeeds url) ->
      urlArgument url sp) ∧
   (platform = "darwin" ∨ platform = "linux" ∨ platform = "win32" ->
    ∃ sp more, snd (openBrowserSecurely protocol platform succeeds url) = sp :: more)).
Proof.
  split; [|split].
  - intros p Hp Hhttp Hhttps. split; [|reflexivity].
    unfold openBrowserSecurely, validateUrl. rewrite Hp.
    apply String.eqb_neq in Hhttp, Hhttps. now rewrite Hhttp, Hhttps.
  - intros Hp Hc. split; [|reflexivity].
    unfold openBrowserSecurely, validateUrl.
    destruct Hp as [-> | ->]; now rewrite Hc.
  - intros Hp Hc.
    assert (Hv : validateUrl protocol url = None).
    { unfold validateUrl. destruct Hp as [-> | ->]; now rewrite Hc. }
    split; [exact Hv|]. unfold openBrowserSecurely. rewrite Hv. split.
    + intros sp Hin. unfold launchers in Hin.
      destruct (platform =? "darwin")%string;
        [|destruct (platform =? "win32")%string;
          [|destruct (platform =? "linux")%string]];
        try (apply tryLaunchers_spawned in Hin);
        try (cbn in Hin; now apply elem_of_nil in Hin);
        repeat (apply elem_of_cons in Hin as [->|Hin]);
        try (now apply elem_of_nil in Hin);
        unfold urlArgument; cbn [args]; auto.
      right. eexists. split; [reflexivity|]. apply startProcess_operand.
    + intros Hplat. unfold launchers.
      destruct Hplat as [-> | [-> | ->]]; cbn [String.eqb Ascii.eqb Bool.eqb];
        eexists; apply tryLaunchers_first.
Qed.

End LauncherProperties.

(** C7, witness: a file URL and a URL with a newline on macOS, and on
    Windows a URL with quotes between which a command is written. *)
Lemma unsafe_urls_witness :
  SecureBrowserLauncher.openBrowserSecurely SecureBrowserLauncher.simpleProtocol
    "darwin" (λ _, true) "file:///etc/passwd"
  = (inl (SecureBrowserLauncher.UnsafeProtocol "file:"), []) ∧
  SecureBrowserLauncher.openBrowserSecurely SecureBrowserLauncher.simpleProtocol
    "darwin" (λ _, true)
    ("http://a" +:+ String JSString.newline "b")
  = (inl SecureBrowserLauncher.InvalidCharacters, []) ∧
  (∀ sp,
     sp ∈ snd (SecureBrowserLauncher.openBrowserSecurely
                 SecureBrowserLauncher.simpleProtocol "win32" (λ _, true)
                 "http://example.com/?a='; calc.exe; '") ->
     SecureBrowserLauncher.urlArgument "http://example.com/?a='; calc.exe; '" sp).
Proof.
  split; [|split].
  - apply (proj1 (unsafe_urls_rejected_before_spawn
                    SecureBrowserLauncher.simpleProtocol "darwin" (λ _, true)
                    "file:///etc/passwd") "file:");
      [reflexivity | discriminate | discriminate].
  - apply (proj1 (proj2 (unsafe_urls_rejected_before_spawn
                    SecureBrowserLauncher.simpleProtocol "darwin" (λ _, true)
                    ("http://a" +:+ String JSString.newline "b"))));
      [left; reflexivity | reflexivity].
  - apply (proj2 (proj2 (unsafe_urls_rejected_before_spawn
                    SecureBrowserLauncher.simpleProtocol "win32" (λ _, true)
                    "http://example.com/?a='; calc.exe; '")));
      [left; reflexivity | reflexivity].
Defined.

(** C7, counterexample to the claim as stated: a URL with the scheme ftp
    that ends in a newline.  It contains a control character, and it is
    rejected, before anything is spawned, with the "Unsafe protocol" error
    and not with the "invalid characters" error: the scheme is checked
    first, and one rejection carries one error. *)
Lemma control_character_after_unsafe_scheme :
  SecureBrowserLauncher.hasControl
    ("ftp://example.com/" +:+ String JSString.newline EmptyString) = true ∧
  SecureBrowserLauncher.openBrowserSecurely SecureBrowserLauncher.simpleProtocol
    "darwin" (λ _, true)
    ("ftp://example.com/" +:+ String JSString.newline EmptyString)
  = (inl (SecureBrowserLauncher.UnsafeProtocol "ftp:"), []) ∧
  JS.includes
    (SecureBrowserLauncher.message (SecureBrowserLauncher.UnsafeProtocol "ftp:"))
    "invalid characters" = false.
Proof. repeat split. Qed.

(** The cases of the launcher's tests. *)
Example launcher_http_macos :
  SecureBrowserLauncher.openBrowserSecurely SecureBrowserLauncher.simpleProtocol
    "darwin" (λ _, true) "http://example.com"
  = (inr tt, [{| SecureBrowserLauncher.command := "open";
                 SecureBrowserLauncher.args := ["http://example.com"] |}]).
Proof. reflexivity. Qed.

Example launcher_javascript :
  SecureBrowserLauncher.openBrowserSecurely SecureBrowserLauncher.simpleProtocol
    "darwin" (λ _, true) "javascript:alert(1)"
  = (inl (SecureBrowserLauncher.UnsafeProtocol "javascript:"), []).
Proof. reflexivity. Qed.

Example launcher_not_a_url :
  SecureBrowserLauncher.openBrowserSecurely SecureBrowserLauncher.simpleProtocol
    "darwin" (λ _, true) "not-a-url"
  = (inl (SecureBrowserLauncher.InvalidUrl "not-a-url"), []).
Proof. reflexivity. Qed.

Example launcher_windows_quotes :
  SecureBrowserLauncher.openBrowserSecurely SecureBrowserLauncher.simpleProtocol
    "win32" (λ _, true) "http://example.com/path?name=O'Brien&test='value'"
  = (inr tt,
     [{| SecureBrowserLauncher.command := "powershell.exe";
         SecureBrowserLauncher.args :=
           ["-NoProfile"; "-NonInteractive"; "-WindowStyle"; "Hidden"; "-Command";
            "Start-Process 'http://example.com/path?name=O''Brien&test=''value'''"] |}]).
Proof. reflexivity. Qed.

Example launcher_linux_fallback :
  SecureBrowserLauncher.openBrowserSecurely SecureBrowserLauncher.simpleProtocol
    "linux" (λ sp, String.eqb (SecureBrowserLauncher.command sp) "gnome-open")
    "https://example.com"
  = (inr tt,
     [{| SecureBrowserLauncher.command := "xdg-open";
         SecureBrowserLauncher.args := ["https://example.com"] |};
      {| SecureBrowserLauncher.command := "gnome-open";
         SecureBrowserLauncher.args := ["https://example.com"] |}]).
Proof. reflexivity. Qed.

Example launcher_unsupported :
  SecureBrowserLauncher.openBrowserSecurely SecureBrowserLauncher.simpleProtocol
    "aix" (λ _, true) "https://example.com"
  = (inl (SecureBrowserLauncher.UnsupportedPlatform "aix"), []).
Proof. reflexivity. Qed.

(** ** Scenarios *)

(** A new process, scope.a required, a good callback: the client carries
    the access token of the callback; a second call returns the same client
    and adds nothing to the trace. *)
Example first_call_then_cached :
  let '(rs, w) :=
    AuthManager.session Sample.lib ["scope.a"]
      [Sample.inputs (Runtime.RequestFirst Sample.goodRequest);
       Sample.inputs (Runtime.TimerFirst None)] Sample.fresh in
  rs = [Runtime.Ok 0%nat; Runtime.Ok 0%nat] ∧
  Google.access_token <$> (Runtime.heap w !! 0%nat) = Some (Some "tok") ∧
  w = snd (AuthManager.getAuthenticatedClient Sample.lib ["scope.a"]
             (Sample.inputs (Runtime.RequestFirst Sample.goodRequest)) Sample.fresh).
Proof. vm_compute. repeat split. Qed.

(** Stored credentials for scope.a, scope.a and scope.b required: the
    entry is deleted before the browser is opened. *)
Example stored_scope_a_required_a_b :
  ∃ u rest,
    Runtime.trace
      (snd (AuthManager.getAuthenticatedClient Sample.lib ["scope.a"; "scope.b"]
              (Sample.inputs (Runtime.TimerFirst None)) Sample.savedScopeA))
    = Runtime.EvGetCredentials "main-account"
      :: Runtime.EvDeleteCredentials "main-account"
      :: Runtime.EvProbeListen :: Runtime.EvProbeClose :: Runtime.EvCreateServer
      :: Runtime.EvListen 43210 "localhost" :: Runtime.EvOpen u :: rest.
Proof. eexists _, _. vm_compute. reflexivity. Qed.

(** Stored credentials for scope.a, only scope.a required: they are
    installed and no flow starts. *)
Example stored_scope_a_required_a :
  let '(r, w) :=
    AuthManager.getAuthenticatedClient Sample.lib ["scope.a"]
      (Sample.inputs (Runtime.TimerFirst None)) Sample.savedScopeA in
  r = Runtime.Ok 0%nat ∧
  Runtime.trace w = [Runtime.EvGetCredentials "main-account"] ∧
  Google.access_token <$> (Runtime.heap w !! 0%nat) = Some (Some "old").
Proof. vm_compute. repeat split. Qed.

(* ===================================================================== *)
(** * Part III: further properties of the sources                         *)
(* ===================================================================== *)

(** ** Every path of [getAuthenticatedClient] *)

Section AllPaths.
Import Runtime AuthManager.
Variable lib : Lib.
Variable scopes : list string.
Variable inp : Inputs.

(** After the browser was opened, on every path: the timer is set; the
    store is neither read nor cleared; a returned client is the client of
    the flow and is remembered; a rejection leaves the manager's client and
    the store alone and writes nothing. *)
Lemma after_open_outcome (login : OauthWebLogin) (id : nat) (w : World) :
  ∃ r w1 post,
    (race lib inp login id ;;
     c ← credentials id;
     OAuthCredentialStorage.saveCredentials c (now inp);;
     modify (set_client (Some id));;
     mret id) w = (r, w1) ∧
    trace w1 = (trace w ++ EvSetTimeout authTimeout :: post)%list ∧
    (∀ n, EvGetCredentials n ∉ post) ∧
    (∀ n, EvDeleteCredentials n ∉ post) ∧
    match r with
    | Ok id' => id' = id ∧ client w1 = Some id
    | Err _ => client w1 = client w ∧ storage w1 = storage w ∧
               ∀ c, EvSetCredentials c ∉ post
    end.
Proof.
  destruct (rejected login) as [e|] eqn:Hr.
  { exists (Err e), (logged [EvSetTimeout authTimeout] w), [].
    split; [apply bind_err; now apply race_bind_failed|].
    split; [reflexivity|]. repeat split; not_among. }
  destruct (arrival inp) as [req|late] eqn:Ha.
  - destruct (requestListener_closes lib login id req (logged [EvSetTimeout authTimeout] w))
      as (settled & w1 & mid & Hl & Htr & Hmid & Hst & Hcl).
    cbn in Htr. rewrite <- app_assoc in Htr. cbn in Htr.
    pose proof (race_request lib inp login id w w1 req settled Hr Ha Hl) as Hrace.
    destruct settled as [[]|e].
    + destruct (requestListener_resolved lib login id req _ w1 Hl)
        as (qs & _ & _ & Hacc & Hheap).
      rewrite (bind_ok _ _ _ _ _ Hrace).
      unfold credentials.
      rewrite (bind_ok (world ≫= _) _ w1 w1 (tokens qs))
        by (run; now rewrite Hheap, lookup_insert_eq).
      pose proof (saveCredentials_cases (tokens qs) (now inp) w1) as Hsave.
      rewrite (tokens_valid (tokens qs) (now inp) Hacc) in Hsave.
      rewrite (bind_ok _ _ _ _ _ Hsave). run.
      eexists _, _, _. split; [reflexivity|].
      cbn. rewrite Htr. rewrite <- ?app_assoc. cbn.
      split; [reflexivity|].
      destruct Hmid as [->|[body ->]]; repeat split; not_among.
    + eexists _, _, _. split; [apply bind_err; exact Hrace|].
      rewrite Htr. split; [reflexivity|].
      destruct Hmid as [->|[body ->]]; repeat split; auto; not_among.
  - destruct (race_timer lib inp login id w late Hr Ha)
      as (w1 & evs & Hrace & Htr & Hst & Hcl & Hset & _).
    assert (Hshape : evs = [] ∨ ∃ req mid, evs = (EvRequest req :: mid ++ [EvServerClose])%list
                                           ∧ (mid = [] ∨ ∃ body, mid = [EvResponse body])).
    { revert Hrace Htr. unfold race. rewrite Hr, Ha.
      rewrite (bind_ok (emit _) _ w (logged [EvSetTimeout authTimeout] w) tt) by reflexivity.
      destruct late as [req|].
      - destruct (requestListener_closes lib login id req
                    (logged [EvSetTimeout authTimeout] w))
          as (settled & w2 & mid & Hl & Htr2 & Hmid & _).
        unfold mbind at 1, M_bind at 1. unfold mbind at 1, M_bind at 1.
        rewrite Hl. intros [= <-] Htr. right. exists req, mid. split; [|exact Hmid].
        rewrite Htr2 in Htr. cbn in Htr. rewrite <- app_assoc in Htr. cbn in Htr.
        apply app_inv_head in Htr. now injection Htr as <-.
      - run. intros [= <-]. cbn. intros Htr. left.
        apply app_inv_head in Htr. now injection Htr as <-. }
    eexists _, _, _. split; [apply bind_err; exact Hrace|].
    split; [exact Htr|].
    destruct Hshape as [->|(req & mid & -> & [->|[body ->]])];
      repeat split; auto; not_among.
Qed.

(** The interactive flow as a whole. *)
Lemma interactive_outcome (id : nat) (w : World) :
  ∃ r w' evs,
    authenticateInteractively lib scopes inp id w = (r, w') ∧
    trace w' = (trace w ++ evs)%list ∧
    (∀ n, EvGetCredentials n ∉ evs) ∧
    (∀ n, EvDeleteCredentials n ∉ evs) ∧
    match r with
    | Ok id' => id' = id ∧ client w' = Some id
    | Err _ => client w' = client w ∧ storage w' = storage w ∧
               ∀ c, EvSetCredentials c ∉ evs
    end.
Proof.
  destruct (authWithWeb lib scopes inp id w) as [[login|e] w1] eqn:Hlogin.
  - destruct (authWithWeb_ok lib scopes inp id w w1 login Hlogin)
      as (evs1 & -> & Hevs1 & _).
    destruct (whileOpening_cases inp) as [Hopen|(err & Hb & Hu)].
    2:{ rewrite (after_login_unhandled lib scopes inp id w _ login err
                   Hlogin Hb Hu).
        eexists _, _, _. split; [reflexivity|].
        split; [cbn; rewrite <- !app_assoc; reflexivity|].
        destruct Hevs1 as [->| ->]; repeat split; not_among. }
    rewrite (after_login lib scopes inp id w _ login Hlogin Hopen).
    edestruct (after_open_outcome login id) as (r & w' & post & Hrun & Htr & Hg & Hd & Hr).
    exists r, w'. eexists. split; [exact Hrun|].
    split; [rewrite Htr; cbn; rewrite <- !app_assoc; reflexivity|].
    destruct r as [id'|e]; cbn in Hr.
    + destruct Hevs1 as [->| ->]; repeat split; try tauto;
        intros n Hin; repeat (rewrite ?elem_of_app, ?elem_of_cons, ?elem_of_nil in Hin);
        intuition (try discriminate);
        solve [eapply Hg; eassumption | eapply Hd; eassumption].
    + destruct Hr as (Hc & Hs & Hset).
      destruct Hevs1 as [->| ->]; repeat split; try assumption;
        intros n Hin; repeat (rewrite ?elem_of_app, ?elem_of_cons, ?elem_of_nil in Hin);
        intuition (try discriminate);
        solve [eapply Hg; eassumption | eapply Hd; eassumption
              | eapply Hset; eassumption].
  - pose proof (port_failure_propagates lib scopes inp id w w1 e
                  (authWithWeb_err lib scopes inp id w w1 e Hlogin)) as Hrun.
    apply authWithWeb_err in Hlogin.
    destruct (getAvailablePort_cases inp w)
      as [(p & evs & Hp & _)|(e' & evs & Hp & Hevs)];
      rewrite Hp in Hlogin; [discriminate|].
    injection Hlogin as _ <-.
    exists (Err e), (logged evs w), evs. split; [exact Hrun|].
    split; [reflexivity|].
    destruct Hevs as [->| ->]; repeat split; not_among.
Qed.

(** X7. Whatever the state and the environment: when
    [getAuthenticatedClient] returns a client, that client is the one the
    manager remembers; when it gives none (it rejects, or a failed bind
    leaves it unsettled), the manager's client is the one it had before and
    the call has written no credentials to the store. *)
Theorem call_keeps_client_on_failure (w0 : World) :
  ∃ r w',
    getAuthenticatedClient lib scopes inp w0 = (r, w') ∧
    match r with
    | Ok id => client w' = Some id
    | Err _ => client w' = client w0 ∧ ∀ c, EvSetCredentials c ∉ added w0 w'
    end.
Proof.
  destruct (cachedClient w0) as [id|] eqn:Hc.
  { exists (Ok id), w0. split; [now apply cached_call|]. now apply cached_is_client. }
  unfold getAuthenticatedClient.
  rewrite (bind_ok world _ w0 w0 w0) by reflexivity. rewrite Hc.
  rewrite (bind_ok _ _ _ _ _ (newOAuth2_run w0)).
  pose proof (loadCachedCredentials_cases scopes (next_client w0)
                (set_next_client (S (next_client w0))
                   (set_heap (<[next_client w0 := Google.no_credentials]> (heap w0)) w0)))
    as Hload.
  cbn [storage set_next_client set_heap] in Hload.
  destruct (storage w0 !! OAuthCredentialStorage.MAIN_ACCOUNT_KEY) as [stored|].
  - cbn zeta in Hload.
    destruct (missingScopes scopes (OAuthCredentialStorage.toGoogleCredentials stored))
      as [|m ms].
    + rewrite (bind_ok _ _ _ _ _ Hload). run. eexists _, _. split; reflexivity.
    + rewrite (bind_ok _ _ _ _ _ Hload).
      edestruct (interactive_outcome (next_client w0)) as (r & w' & evs & Hrun & Htr & _ & _ & Hr).
      exists r, w'. split; [exact Hrun|].
      destruct r as [id'|e]; [destruct Hr as [-> Hr]; exact Hr|].
      destruct Hr as (Hcl & _ & Hset). split; [exact Hcl|].
      rewrite (added_app w0 w' (_ ++ evs)) by (rewrite Htr; cbn; now rewrite <- app_assoc).
      intros c Hin. repeat (rewrite ?elem_of_app, ?elem_of_cons, ?elem_of_nil in Hin).
      intuition (try discriminate). eapply Hset; eassumption.
  - rewrite (bind_ok _ _ _ _ _ Hload).
    edestruct (interactive_outcome (next_client w0)) as (r & w' & evs & Hrun & Htr & _ & _ & Hr).
    exists r, w'. split; [exact Hrun|].
    destruct r as [id'|e]; [destruct Hr as [-> Hr]; exact Hr|].
    destruct Hr as (Hcl & _ & Hset). split; [exact Hcl|].
    rewrite (added_app w0 w' (_ ++ evs)) by (rewrite Htr; cbn; now rewrite <- app_assoc).
    intros c Hin. repeat (rewrite ?elem_of_app, ?elem_of_cons, ?elem_of_nil in Hin).
    intuition (try discriminate). eapply Hset; eassumption.
Qed.

End AllPaths.

(** ** Saved credentials that are usable, and none at all *)

Section UsableCredentials.
Import Runtime AuthManager.
Variable lib : Lib.
Variable scopes : list string.
Variable inp : Inputs.

Lemma nothing_missing (c : Google.Credentials) :
  (∀ s, s ∈ scopes -> s ∈ savedScopes c) -> missingScopes scopes c = [].
Proof.
  intros H. unfold missingScopes.
  induction scopes as [|s rest IH]; [reflexivity|].
  cbn. rewrite bool_decide_eq_true_2 by (apply H; apply elem_of_cons; now left).
  cbn. apply IH. intros s' Hs'. apply H. apply elem_of_cons. now right.
Qed.

(** The saved scope set is the set of the words of the scope text, cut at
    single spaces. *)
Lemma savedScopes_words (c : Google.Credentials) (s : string) :
  s ∈ savedScopes c ↔ ∃ text, Google.scope c = Some text ∧ s ∈ JS.split " " text.
Proof.
  unfold savedScopes. destruct (Google.scope c) as [text|].
  - rewrite elem_of_list_to_set. split; [intros H; now exists text|].
    now intros (t & [= <-] & H).
  - split; [intros H; now apply not_elem_of_empty in H|].
    now intros (t & [=] & _).
Qed.

(** X1. With no usable cached client, saved credentials whose scope text
    has every required scope among its space-separated words (in any
    order, with any others beside) are installed on a new client, which is
    remembered and returned.  The call only reads the store: nothing is
    deleted or written, no listener is created and no browser is opened. *)
Theorem saved_credentials_installed (w0 : World)
    (stored : TokenStorage.OAuthCredentials) :
  cachedClient w0 = None ->
  storage w0 !! OAuthCredentialStorage.MAIN_ACCOUNT_KEY = Some stored ->
  (∀ s, s ∈ scopes ->
     ∃ text, TokenStorage.scope (TokenStorage.token stored) = Some text ∧
             text ≠ EmptyString ∧ s ∈ JS.split " " text) ->
  ∃ w',
    getAuthenticatedClient lib scopes inp w0 = (Ok (next_client w0), w') ∧
    heap w' !! next_client w0
    = Some (OAuthCredentialStorage.toGoogleCredentials stored) ∧
    client w' = Some (next_client w0) ∧
    storage w' = storage w0 ∧
    added w0 w' = [EvGetCredentials OAuthCredentialStorage.MAIN_ACCOUNT_KEY].
Proof.
  intros Hc Hs Hall.
  assert (Hnone : missingScopes scopes (OAuthCredentialStorage.toGoogleCredentials stored)
                  = []).
  { apply nothing_missing. intros s Hin.
    destruct (Hall s Hin) as (text & Htext & Hne & Hw).
    apply savedScopes_words. exists text. split; [|exact Hw].
    cbn. rewrite Htext. unfold JS.or_undefined.
    now rewrite (truthy_nonempty text Hne). }
  unfold getAuthenticatedClient.
  rewrite (bind_ok world _ w0 w0 w0) by reflexivity. rewrite Hc.
  rewrite (bind_ok _ _ _ _ _ (newOAuth2_run w0)).
  pose proof (loadCachedCredentials_cases scopes (next_client w0)
                (set_next_client (S (next_client w0))
                   (set_heap (<[next_client w0 := Google.no_credentials]> (heap w0)) w0)))
    as Hload.
  cbn [storage set_next_client set_heap] in Hload. rewrite Hs in Hload.
  cbn zeta in Hload. rewrite Hnone in Hload.
  rewrite (bind_ok _ _ _ _ _ Hload). run.
  eexists. split; [reflexivity|]. cbn.
  split; [apply lookup_insert_eq|]. split; [reflexivity|]. split; [reflexivity|].
  unfold added. cbn. apply drop_app_length.
Qed.

(** X2. With no usable cached client and nothing saved under the main
    account, the call goes on with the interactive flow on a new client
    without credentials; the store was read once and is as it was, and
    nowhere in the call is the store's delete operation invoked. *)
Theorem nothing_saved_goes_interactive (w0 : World) :
  cachedClient w0 = None ->
  storage w0 !! OAuthCredentialStorage.MAIN_ACCOUNT_KEY = None ->
  let id := next_client w0 in
  let w := logged [EvGetCredentials OAuthCredentialStorage.MAIN_ACCOUNT_KEY]
             (set_next_client (S id)
                (set_heap (<[id := Google.no_credentials]> (heap w0)) w0)) in
  getAuthenticatedClient lib scopes inp w0
  = authenticateInteractively lib scopes inp id w ∧
  storage w = storage w0 ∧
  ∃ r w' evs,
    getAuthenticatedClient lib scopes inp w0 = (r, w') ∧
    added w0 w' = EvGetCredentials OAuthCredentialStorage.MAIN_ACCOUNT_KEY :: evs ∧
    (∀ n, EvGetCredentials n ∉ evs) ∧
    (∀ n, EvDeleteCredentials n ∉ evs).
Proof.
  intros Hc Hs id w.
  assert (Hcall : getAuthenticatedClient lib scopes inp w0
                  = authenticateInteractively lib scopes inp id w).
  { unfold getAuthenticatedClient.
    rewrite (bind_ok world _ w0 w0 w0) by reflexivity. rewrite Hc.
    rewrite (bind_ok _ _ _ _ _ (newOAuth2_run w0)).
    pose proof (loadCachedCredentials_cases scopes id
                  (set_next_client (S id)
                     (set_heap (<[id := Google.no_credentials]> (heap w0)) w0)))
      as Hload.
    cbn [storage set_next_client set_heap] in Hload. rewrite Hs in Hload.
    now rewrite (bind_ok _ _ _ _ _ Hload). }
  split; [exact Hcall|]. split; [reflexivity|].
  destruct (interactive_outcome lib scopes inp id w)
    as (r & w' & evs & Hrun & Htr & Hg & Hd & _).
  exists r, w', evs. split; [now rewrite Hcall|].
  split; [|split; assumption].
  apply added_app. rewrite Htr. cbn. now rewrite <- app_assoc.
Qed.

End UsableCredentials.

(** X1, witness: credentials saved for scope.a, scope.a required. *)
Lemma saved_credentials_installed_witness :
  ∃ w',
    AuthManager.getAuthenticatedClient Sample.lib ["scope.a"]
      (Sample.inputs (Runtime.TimerFirst None)) Sample.savedScopeA
    = (Runtime.Ok 0%nat, w') ∧
    Runtime.heap w' !! 0%nat
    = Some (OAuthCredentialStorage.toGoogleCredentials Sample.storedScopeA).
Proof.
  destruct (saved_credentials_installed Sample.lib ["scope.a"]
              (Sample.inputs (Runtime.TimerFirst None)) Sample.savedScopeA
              Sample.storedScopeA) as (w' & H1 & H2 & _).
  - reflexivity.
  - vm_compute. reflexivity.
  - intros s Hs. exists "scope.a". split; [reflexivity|]. split; [discriminate|].
    apply list_elem_of_singleton in Hs. subst s. apply (bool_decide_unpack _). vm_compute. exact I.
  - exists w'. split; [exact H1|exact H2].
Defined.

(** X2, witness: a new process with an empty store. *)
Lemma nothing_saved_witness :
  AuthManager.getAuthenticatedClient Sample.lib ["scope.a"]
    (Sample.inputs (Runtime.TimerFirst None)) Sample.fresh
  = AuthManager.authenticateInteractively Sample.lib ["scope.a"]
      (Sample.inputs (Runtime.TimerFirst None)) 0%nat
      (Runtime.logged [Runtime.EvGetCredentials "main-account"]
         (Runtime.set_next_client 1
            (Runtime.set_heap (<[0%nat := Google.no_credentials]> ∅) Sample.fresh))).
Proof.
  apply (nothing_saved_goes_interactive Sample.lib ["scope.a"]
           (Sample.inputs (Runtime.TimerFirst None)) Sample.fresh);
    reflexivity.
Defined.

(** ** The other answers of the callback handler *)

Section HandlerBranches.
Import Runtime AuthManager.
Variable lib : Lib.
Variable scopes : list string.
Variable inp : Inputs.







End HandlerBranches.




(** ** After a successful callback *)

Section AfterSuccess.
Import Runtime AuthManager.
Variable lib : Lib.
Variable scopes : list string.

(** Without a usable cached client a call begins by reading the store. *)
Lemma uncached_reads_store (inp : Inputs) (w0 : World) :
  cachedClient w0 = None ->
  ∃ r w' evs,
    getAuthenticatedClient lib scopes inp w0 = (r, w') ∧
    added w0 w' = EvGetCredentials OAuthCredentialStorage.MAIN_ACCOUNT_KEY :: evs.
Proof.
  intros Hc. unfold getAuthenticatedClient.
  rewrite (bind_ok world _ w0 w0 w0) by reflexivity. rewrite Hc.
  rewrite (bind_ok _ _ _ _ _ (newOAuth2_run w0)).
  pose proof (loadCachedCredentials_cases scopes (next_client w0)
                (set_next_client (S (next_client w0))
                   (set_heap (<[next_client w0 := Google.no_credentials]> (heap w0)) w0)))
    as Hload.
  cbn [storage set_next_client set_heap] in Hload.
  destruct (storage w0 !! OAuthCredentialStorage.MAIN_ACCOUNT_KEY) as [stored|].
  - cbn zeta in Hload.
    destruct (missingScopes scopes (OAuthCredentialStorage.toGoogleCredentials stored))
      as [|m ms]; rewrite (bind_ok _ _ _ _ _ Hload).
    + run. eexists _, _, []. split; [reflexivity|].
      unfold added. cbn. apply drop_app_length.
    + edestruct (interactive_trace lib scopes inp (next_client w0))
        as (r & w' & evs & Hrun & Htr).
      exists r, w'. eexists. split; [exact Hrun|].
      apply added_app. rewrite Htr. cbn. rewrite <- app_assoc. reflexivity.
  - rewrite (bind_ok _ _ _ _ _ Hload).
    edestruct (interactive_trace lib scopes inp (next_client w0))
      as (r & w' & evs & Hrun & Htr).
    exists r, w'. eexists. split; [exact Hrun|].
    apply added_app. rewrite Htr. cbn. rewrite <- app_assoc. reflexivity.
Qed.

(** X6. After a good callback the client carries the tokens of the
    callback, they are saved under the main account and the client is
    remembered.  It is served from memory afterwards exactly when the
    callback carried a non-empty refresh token: then every later call
    returns the same client and does nothing else; otherwise every later
    call begins by reading the store again. *)
Theorem served_from_memory_iff_refresh_token (inp : Inputs) (w0 w w1 : World)
    (id : nat) (login : OauthWebLogin) (req : Request) (qs : list (string * string)) :
  entersInteractiveFlow scopes w0 id w ->
  authWithWeb lib scopes inp id w = (Ok login, w1) ->
  bind inp = Bound ->
  arrival inp = RequestFirst req ->
  JS.startsWith (default EmptyString (url req)) "/oauth2callback" = true ->
  searchParams lib (default EmptyString (url req))
    ("http://" +:+ host login +:+ ":" +:+ show (port login)) = Some qs ->
  qs_get qs "state" = Some (csrfToken login) ->
  JS.truthy (qs_get qs "error") = false ->
  JS.truthy (qs_get qs "access_token") = true ->
  JS.truthy (qs_get qs "expiry_date") = true ->
  ∃ w',
    getAuthenticatedClient lib scopes inp w0 = (Ok id, w') ∧
    heap w' !! id = Some (tokens qs) ∧
    storage w' !! OAuthCredentialStorage.MAIN_ACCOUNT_KEY
    = Some (OAuthCredentialStorage.toStorageSchema (tokens qs) (now inp)) ∧
    client w' = Some id ∧
    cachedClient w'
    = (if JS.truthy (qs_get qs "refresh_token") then Some id else None) ∧
    (JS.truthy (qs_get qs "refresh_token") = true ->
     ∀ inp2, getAuthenticatedClient lib scopes inp2 w' = (Ok id, w')) ∧
    (JS.truthy (qs_get qs "refresh_token") = false ->
     ∀ inp2, ∃ r w'' evs,
       getAuthenticatedClient lib scopes inp2 w' = (r, w'') ∧
       added w' w''
       = EvGetCredentials OAuthCredentialStorage.MAIN_ACCOUNT_KEY :: evs).
Proof.
  intros Henter Hlogin Hbind Harr Hpath Hqs Hstate Herr Hacc Hexp.
  destruct (entering lib scopes inp w0 w id Henter) as (_ & _ & _ & Hcall).
  eexists. split.
  { rewrite Hcall.
    apply (interactive_succeeds lib scopes inp id w w1 login req qs); assumption. }
  match goal with |- context [heap ?x !! id] => set (w' := x) end.
  assert (Hheap : heap w' !! id = Some (tokens qs)) by (cbn; apply lookup_insert_eq).
  assert (Hcached : cachedClient w'
                    = if JS.truthy (qs_get qs "refresh_token") then Some id else None).
  { unfold cachedClient. change (client w') with (Some id). cbv iota beta.
    rewrite Hheap. cbn [tokens Google.refresh_token].
    now rewrite truthy_or_undefined. }
  split; [exact Hheap|]. split; [cbn; apply lookup_insert_eq|].
  split; [reflexivity|]. split; [exact Hcached|]. split.
  - intros Hrt inp2. apply cached_call. now rewrite Hcached, Hrt.
  - intros Hrt inp2. apply uncached_reads_store. now rewrite Hcached, Hrt.
Qed.

End AfterSuccess.

(** X6, witness: a good callback without a refresh token. *)
Lemma served_from_memory_witness :
  ∃ w',
    AuthManager.getAuthenticatedClient Sample.lib ["scope.a"]
      (Sample.inputs (Runtime.RequestFirst Sample.noRefreshRequest)) Sample.fresh
    = (Runtime.Ok 0%nat, w') ∧
    AuthManager.cachedClient w' = None.
Proof.
  edestruct (served_from_memory_iff_refresh_token Sample.lib ["scope.a"]
               (Sample.inputs (Runtime.RequestFirst Sample.noRefreshRequest))
               Sample.fresh) as (w' & H1 & _ & _ & _ & H2 & _).
  - split; [reflexivity|]. split; reflexivity.
  - lazy; reflexivity.
  - reflexivity.
  - reflexivity.
  - reflexivity.
  - lazy; reflexivity.
  - vm_compute; reflexivity.
  - vm_compute; reflexivity.
  - vm_compute; reflexivity.
  - vm_compute; reflexivity.
  - exists w'. split; [exact H1|]. rewrite H2. vm_compute. reflexivity.
Defined.

(** ** Saving and loading *)

Section SaveAndLoad.
Import Runtime.

Lemma or_undefined_idem (v : option string) :
  JS.or_undefined (JS.or_undefined v) = JS.or_undefined v.
Proof.
  unfold JS.or_undefined at 1. rewrite truthy_or_undefined.
  unfold JS.or_undefined. now destruct (JS.truthy v).
Qed.

Lemma num_or_undefined_idem (n : option JS.number) :
  JS.num_or_undefined (JS.num_or_undefined n) = JS.num_or_undefined n.
Proof.
  destruct n as [n|]; [|reflexivity]. cbn.
  destruct (JS.truthy_num n) eqn:H; [|reflexivity]. cbn. now rewrite H.
Qed.

Lemma or_default_nonempty (v : option string) (d : string) :
  d ≠ EmptyString -> JS.truthy (Some (JS.or_default v d)) = true.
Proof.
  intros Hd. unfold JS.or_default, JS.or_undefined.
  destruct (JS.truthy v) eqn:Hv.
  - destruct v as [s|]; [exact Hv|discriminate].
  - now apply truthy_nonempty.
Qed.

(** X8. Credentials that [saveCredentials] has saved are what
    [loadCredentials] returns next: every empty or missing text field is
    undefined, a missing token type has become "Bearer", an expiry date
    that is 0 or NaN is dropped, and the other values are as they were.
    Saving and loading the result once more changes nothing. *)
Theorem saved_credentials_load_back (c : Google.Credentials) (t : Z) (w w1 : World) :
  OAuthCredentialStorage.saveCredentials c t w = (Ok tt, w1) ->
  ∃ r,
    OAuthCredentialStorage.loadCredentials w1
    = (Ok (Some r),
       logged [EvGetCredentials OAuthCredentialStorage.MAIN_ACCOUNT_KEY] w1) ∧
    Google.access_token r = JS.or_undefined (Google.access_token c) ∧
    Google.refresh_token r = JS.or_undefined (Google.refresh_token c) ∧
    Google.scope r = JS.or_undefined (Google.scope c) ∧
    Google.token_type r = Some (JS.or_default (Google.token_type c) "Bearer") ∧
    Google.expiry_date r = JS.num_or_undefined (Google.expiry_date c) ∧
    ∀ t', OAuthCredentialStorage.toGoogleCredentials
            (OAuthCredentialStorage.toStorageSchema r t') = r.
Proof.
  intros Hsave. rewrite saveCredentials_cases in Hsave.
  destruct (TokenStorage.validateCredentials _) as [e|]; [discriminate|].
  injection Hsave as <-.
  exists (OAuthCredentialStorage.toGoogleCredentials
            (OAuthCredentialStorage.toStorageSchema c t)).
  assert (Htt : JS.str_or_undefined (JS.or_default (Google.token_type c) "Bearer")
                = Some (JS.or_default (Google.token_type c) "Bearer")).
  { unfold JS.str_or_undefined, JS.or_undefined.
    now rewrite or_default_nonempty by discriminate. }
  split.
  - unfold OAuthCredentialStorage.loadCredentials, TokenStorage.getCredentials. run.
    now rewrite lookup_insert_eq.
  - cbn. rewrite !or_undefined_idem, num_or_undefined_idem, Htt.
    repeat split. intros t'. unfold OAuthCredentialStorage.toGoogleCredentials. cbn.
    rewrite !or_undefined_idem, num_or_undefined_idem.
    assert (Hd : JS.or_default (Some (JS.or_default (Google.token_type c) "Bearer"))
                   "Bearer" = JS.or_default (Google.token_type c) "Bearer").
    { unfold JS.or_default at 1, JS.or_undefined at 1.
      now rewrite or_default_nonempty by discriminate. }
    now rewrite Htt, Hd, Htt, !num_or_undefined_idem.
Qed.

End SaveAndLoad.

(** X8, witness: the credentials of the storage tests. *)
Lemma saved_credentials_witness :
  ∃ r,
    fst (OAuthCredentialStorage.loadCredentials
           (snd (OAuthCredentialStorage.saveCredentials Sample.googleCredentials
                   1700000000000 Sample.fresh)))
    = Runtime.Ok (Some r) ∧
    Google.token_type r = Some "Bearer".
Proof.
  destruct (saved_credentials_load_back Sample.googleCredentials 1700000000000
              Sample.fresh
              (snd (OAuthCredentialStorage.saveCredentials Sample.googleCredentials
                      1700000000000 Sample.fresh)))
    as (r & H1 & _ & _ & _ & H2 & _).
  - vm_compute. reflexivity.
  - exists r. rewrite H1. split; [reflexivity|]. rewrite H2. reflexivity.
Defined.

(** ** Escaping of search terms *)

Section Escaping.

Import JSString.

Lemma append_assoc_string (a b c : string) :
  (a +:+ b) +:+ c = a +:+ (b +:+ c).
Proof.
  induction a as [|x a IH]; [reflexivity|].
  change (String x ((a +:+ b) +:+ c) = String x (a +:+ (b +:+ c))).
  now rewrite IH.
Qed.

Lemma replace_g_app (c : ascii) (r a b : string) :
  replace_g c r (a +:+ b) = replace_g c r a +:+ replace_g c r b.
Proof.
  induction a as [|x a IH]; [reflexivity|].
  change (replace_g c r (String x (a +:+ b))
          = replace_g c r (String x a) +:+ replace_g c r b).
  cbn [replace_g]. rewrite IH.
  destruct (Ascii.eqb x c); [now rewrite append_assoc_string | reflexivity].
Qed.

Lemma escapeQueryString_cons (c : ascii) (s : string) :
  DriveQueryBuilder.escapeQueryString (String c s)
  = DriveQueryBuilder.escapeChar c +:+ DriveQueryBuilder.escapeQueryString s.
Proof.
  unfold DriveQueryBuilder.escapeQueryString, DriveQueryBuilder.escapeChar.
  cbn [replace_g].
  destruct (Ascii.eqb c backslash) eqn:Hb.
  - rewrite replace_g_app. reflexivity.
  - cbn [replace_g]. destruct (Ascii.eqb c apostrophe); reflexivity.
Qed.

Lemma readLiteral_escaped (quotes : list ascii) (d : ascii) (s : string) :
  DriveQueryBuilder.readLiteral quotes (escaped d +:+ s)
  = option_map (String d) (DriveQueryBuilder.readLiteral quotes s).
Proof. reflexivity. Qed.

Lemma readLiteral_plain (quotes : list ascii) (c : ascii) (s : string) :
  Ascii.eqb c backslash = false ->
  List.existsb (Ascii.eqb c) quotes = false ->
  DriveQueryBuilder.readLiteral quotes (String c s)
  = option_map (String c) (DriveQueryBuilder.readLiteral quotes s).
Proof. intros Hb Hq. cbn [DriveQueryBuilder.readLiteral]. now rewrite Hb, Hq. Qed.

Lemma readLiteral_escape (s : string) :
  DriveQueryBuilder.readLiteral [apostrophe]
    (DriveQueryBuilder.escapeQueryString s) = Some s.
Proof.
  induction s as [|c s IH]; [reflexivity|].
  rewrite escapeQueryString_cons. unfold DriveQueryBuilder.escapeChar.
  destruct (Ascii.eqb c backslash) eqn:Hb.
  - apply Ascii.eqb_eq in Hb. subst c.
    now rewrite readLiteral_escaped, IH.
  - destruct (Ascii.eqb c apostrophe) eqn:Ha.
    + apply Ascii.eqb_eq in Ha. subst c.
      now rewrite readLiteral_escaped, IH.
    + change (String c EmptyString +:+ DriveQueryBuilder.escapeQueryString s)
        with (String c (DriveQueryBuilder.escapeQueryString s)).
      rewrite readLiteral_plain, IH; [reflexivity | exact Hb |].
      cbn [List.existsb]. now rewrite Ha.
Qed.

End Escaping.

(** X9.  [escapeQueryString] loses nothing and lets nothing out: read as
    the inside of a quoted Drive string, its result is consumed whole and
    is the original text, so no character of the text closes the quotes;
    two different texts are never escaped to the same string. *)
Theorem escaped_text_reads_back (s : string) :
  DriveQueryBuilder.readLiteral [JSString.apostrophe]
    (DriveQueryBuilder.escapeQueryString s) = Some s
  /\ forall s',
       DriveQueryBuilder.escapeQueryString s'
       = DriveQueryBuilder.escapeQueryString s -> s' = s.
Proof.
  split; [apply readLiteral_escape|].
  intros s' Heq.
  pose proof (readLiteral_escape s') as H'.
  rewrite Heq, readLiteral_escape in H'. congruence.
Qed.

Section Sanitizing.

Import JSString.

Lemma searchQuerySchema_cons (c : ascii) (s : string) :
  Validation.searchQuerySchema (String c s)
  = (if Ascii.eqb c backslash then escaped backslash
     else if Ascii.eqb c apostrophe then escaped apostrophe
     else if Ascii.eqb c quotation then escaped quotation
     else String c EmptyString) +:+ Validation.searchQuerySchema s.
Proof.
  unfold Validation.searchQuerySchema. cbn [replace_g].
  destruct (Ascii.eqb c backslash) eqn:Hb.
  - rewrite !replace_g_app. reflexivity.
  - cbn [replace_g]. destruct (Ascii.eqb c apostrophe) eqn:Ha.
    + rewrite replace_g_app. reflexivity.
    + cbn [replace_g]. destruct (Ascii.eqb c quotation); reflexivity.
Qed.

Lemma readLiteral_sanitized (s : string) :
  DriveQueryBuilder.readLiteral [apostrophe; quotation]
    (Validation.searchQuerySchema s) = Some s.
Proof.
  induction s as [|c s IH]; [reflexivity|].
  rewrite searchQuerySchema_cons.
  destruct (Ascii.eqb c backslash) eqn:Hb.
  { apply Ascii.eqb_eq in Hb. subst c. now rewrite readLiteral_escaped, IH. }
  destruct (Ascii.eqb c apostrophe) eqn:Ha.
  { apply Ascii.eqb_eq in Ha. subst c. now rewrite readLiteral_escaped, IH. }
  destruct (Ascii.eqb c quotation) eqn:Hq.
  { apply Ascii.eqb_eq in Hq. subst c. now rewrite readLiteral_escaped, IH. }
  change (String c EmptyString +:+ Validation.searchQuerySchema s)
    with (String c (Validation.searchQuerySchema s)).
  rewrite readLiteral_plain, IH; [reflexivity | exact Hb |].
  cbn [List.existsb]. now rewrite Ha, Hq.
Qed.

Lemma readLiteral_one_quote (n : nat) (t r : string) :
  String.length t = n ->
  DriveQueryBuilder.readLiteral [apostrophe; quotation] t = Some r ->
  DriveQueryBuilder.readLiteral [apostrophe] t = Some r
  /\ DriveQueryBuilder.readLiteral [quotation] t = Some r.
Proof.
  revert t r. induction n as [n IHn] using lt_wf_ind. intros t r Hn.
  destruct t as [|c t]; [cbn; auto|].
  cbn [DriveQueryBuilder.readLiteral List.existsb].
  destruct (Ascii.eqb c backslash).
  - destruct t as [|d t]; [discriminate|].
    destruct (DriveQueryBuilder.readLiteral [apostrophe; quotation] t)
      as [r'|] eqn:Hr; [|discriminate].
    cbn in Hn.
    destruct (IHn (String.length t) ltac:(lia) t r' eq_refl Hr) as [H1 H2].
    cbn [DriveQueryBuilder.readLiteral List.existsb] in H1, H2.
    rewrite H1, H2. auto.
  - destruct (Ascii.eqb c apostrophe); [discriminate|].
    destruct (Ascii.eqb c quotation); [discriminate|].
    cbn [orb].
    destruct (DriveQueryBuilder.readLiteral [apostrophe; quotation] t)
      as [r'|] eqn:Hr; [|discriminate].
    cbn in Hn.
    destruct (IHn (String.length t) ltac:(lia) t r' eq_refl Hr) as [H1 H2].
    cbn [DriveQueryBuilder.readLiteral List.existsb] in H1, H2.
    rewrite H1, H2. auto.
Qed.

End Sanitizing.

(** X10.  The transform of [searchQuerySchema] leaves no bare quote of
    either kind and no trailing backslash: read as the inside of a string
    quoted by apostrophes, or by quotation marks, its result is consumed
    whole and is the original text. *)
Theorem sanitized_query_reads_back (s : string) :
  DriveQueryBuilder.readLiteral [JSString.apostrophe]
    (Validation.searchQuerySchema s) = Some s
  /\ DriveQueryBuilder.readLiteral [JSString.quotation]
       (Validation.searchQuerySchema s) = Some s.
Proof.
  exact (readLiteral_one_quote _ _ _ eq_refl (readLiteral_sanitized s)).
Qed.

(** ** Title searches *)

Section Trimming.

Import JSString.

Lemma length_append_string (a b : string) :
  String.length (a +:+ b) = (String.length a + String.length b)%nat.
Proof.
  induction a as [|x a IH]; [reflexivity|].
  change (S (String.length (a +:+ b))
          = S (String.length a + String.length b)).
  now rewrite IH.
Qed.

Lemma trimStart_blank_cons (c : ascii) (w : string) :
  JS.trimStart (String c w) = EmptyString ->
  JS.is_white_space c = true /\ JS.trimStart w = EmptyString.
Proof.
  cbn [JS.trimStart]. destruct (JS.is_white_space c); [auto | discriminate].
Qed.

Lemma trimStart_blank_app (w s : string) :
  JS.trimStart w = EmptyString -> JS.trimStart (w +:+ s) = JS.trimStart s.
Proof.
  induction w as [|c w IH]; [reflexivity|].
  intros H. apply trimStart_blank_cons in H as [Hc Hw].
  change (JS.trimStart (String c (w +:+ s)) = JS.trimStart s).
  cbn [JS.trimStart]. rewrite Hc. auto.
Qed.

Lemma trimEnd_blank (w : string) :
  JS.trimStart w = EmptyString -> trimEnd w = EmptyString.
Proof.
  induction w as [|c w IH]; [reflexivity|].
  intros H. apply trimStart_blank_cons in H as [Hc Hw].
  cbn [trimEnd]. now rewrite (IH Hw), Hc.
Qed.

Lemma trimEnd_blank_app (s w : string) :
  JS.trimStart w = EmptyString -> trimEnd (s +:+ w) = trimEnd s.
Proof.
  intros Hw. induction s as [|c s IH]; [now apply trimEnd_blank|].
  change (trimEnd (String c (s +:+ w)) = trimEnd (String c s)).
  cbn [trimEnd]. now rewrite IH.
Qed.

Lemma trimEnd_last (a : string) (c : ascii) :
  JS.is_white_space c = false ->
  trimEnd (a +:+ String c EmptyString) = a +:+ String c EmptyString.
Proof.
  intros Hc. induction a as [|x a IH].
  - change (trimEnd (String c EmptyString) = String c EmptyString).
    cbn [trimEnd]. now rewrite Hc.
  - change (trimEnd (String x (a +:+ String c EmptyString))
            = String x (a +:+ String c EmptyString)).
    cbn [trimEnd]. rewrite IH.
    destruct (a +:+ String c EmptyString) eqn:Ha; [|reflexivity].
    destruct a; discriminate.
Qed.

Lemma substring_whole (s : string) :
  String.substring 0 (String.length s) s = s.
Proof. induction s as [|c s IH]; [reflexivity|]. cbn. now rewrite IH. Qed.

Lemma substring_0_app (a b : string) :
  String.substring 0 (String.length a) (a +:+ b) = a.
Proof.
  induction a as [|c a IH]; [now destruct b|].
  change (String.substring 0 (S (String.length a)) (String c (a +:+ b))
          = String c a).
  cbn [String.substring]. now rewrite IH.
Qed.

Lemma drop_length_app (a b : string) : drop (String.length a) (a +:+ b) = b.
Proof. induction a as [|c a IH]; [reflexivity|]. exact IH. Qed.

Lemma substring_drop (n : nat) (s : string) :
  (n <= String.length s)%nat ->
  String.substring n (String.length s - n) s = drop n s.
Proof.
  revert s. induction n as [|n IH]; intros s Hn.
  - rewrite Nat.sub_0_r. apply substring_whole.
  - destruct s as [|c s]; [reflexivity|]. cbn in Hn |- *. apply IH. lia.
Qed.

Lemma substringFrom_drop (n : nat) (s : string) :
  (n <= String.length s)%nat -> substringFrom s n = drop n s.
Proof.
  intros Hn. unfold substringFrom, substring.
  replace (Nat.min (Nat.min n (String.length s)) (String.length s))
    with n by lia.
  replace (Nat.min (Nat.max n (String.length s)) (String.length s))
    with (String.length s) by lia.
  now apply substring_drop.
Qed.

Lemma prefix_one (q : ascii) (s : string) :
  String.prefix (String q EmptyString) (String q s) = true.
Proof. cbn. destruct (ascii_dec q q); [now destruct s | congruence]. Qed.

(** A term written between two quotes [q] is seen as quoted, and the
    quotes are what [substring] takes off. *)
Lemma quoted_term (q : ascii) (t : string) :
  let y := String q (t +:+ String q EmptyString) in
  DriveQueryBuilder.quotedBy q y = true
  /\ substring y 1 (String.length y - 1) = t.
Proof.
  cbn zeta. split.
  - unfold DriveQueryBuilder.quotedBy, JS.startsWith, endsWith.
    rewrite prefix_one. cbn [andb String.length].
    rewrite length_append_string. cbn [String.length].
    replace (S (String.length t + 1) - 1)%nat with (S (String.length t))
      by lia.
    cbn [drop]. rewrite drop_length_app, String.eqb_refl. reflexivity.
  - unfold substring. cbn [String.length]. rewrite length_append_string.
    cbn [String.length].
    replace (S (String.length t + 1) - 1)%nat with (S (String.length t))
      by lia.
    replace (Nat.min (Nat.min 1 (S (String.length t)))
               (S (String.length t + 1))) with 1%nat by lia.
    replace (Nat.min (Nat.max 1 (S (String.length t)))
               (S (String.length t + 1))) with (S (String.length t)) by lia.
    replace (S (String.length t) - 1)%nat with (String.length t) by lia.
    cbn [String.substring]. apply substring_0_app.
Qed.

Lemma trim_quoted (w1 w3 : string) (q : ascii) (t : string) :
  JS.trimStart w1 = EmptyString -> JS.trimStart w3 = EmptyString ->
  JS.is_white_space q = false ->
  trim (w1 +:+ String q (t +:+ String q EmptyString) +:+ w3)
  = String q (t +:+ String q EmptyString).
Proof.
  intros H1 H3 Hq. unfold trim. rewrite trimStart_blank_app by exact H1.
  change (String q (t +:+ String q EmptyString) +:+ w3)
    with (String q ((t +:+ String q EmptyString) +:+ w3)).
  cbn [JS.trimStart]. rewrite Hq.
  change (String q ((t +:+ String q EmptyString) +:+ w3))
    with (String q (t +:+ String q EmptyString) +:+ w3).
  rewrite trimEnd_blank_app by exact H3.
  change (String q (t +:+ String q EmptyString))
    with (String q t +:+ String q EmptyString).
  now apply trimEnd_last.
Qed.

End Trimming.

Section TitleSearch.

Import JSString.

Lemma append_nil_r_string (s : string) : s +:+ EmptyString = s.
Proof.
  induction s as [|c s IH]; [reflexivity|].
  change (String c (s +:+ EmptyString) = String c s). now rewrite IH.
Qed.

Lemma prefix_app (p r : string) : String.prefix p (p +:+ r) = true.
Proof.
  induction p as [|c p IH]; [now destruct r|].
  change (String.prefix (String c p) (String c (p +:+ r)) = true).
  cbn. destruct (ascii_dec c c); [exact IH | congruence].
Qed.

Variables (w1 w2 w3 t : string) (q : ascii).
Hypothesis blank1 : JS.trimStart w1 = EmptyString.
Hypothesis blank2 : JS.trimStart w2 = EmptyString.
Hypothesis blank3 : JS.trimStart w3 = EmptyString.
Hypothesis quote : q = apostrophe \/ q = quotation.

Let term : string := String q (t +:+ String q EmptyString).
Let query : string :=
  w1 +:+ DriveQueryBuilder.titlePrefix +:+ w2 +:+ term +:+ w3.

Lemma quote_not_space : JS.is_white_space q = false.
Proof. destruct quote as [-> | ->]; reflexivity. Qed.

Lemma trim_title_query :
  trim query = DriveQueryBuilder.titlePrefix +:+ w2 +:+ term.
Proof.
  unfold query, trim. rewrite trimStart_blank_app by exact blank1.
  change (JS.trimStart (DriveQueryBuilder.titlePrefix +:+ w2 +:+ term +:+ w3))
    with (DriveQueryBuilder.titlePrefix +:+ w2 +:+ term +:+ w3).
  rewrite <- (append_assoc_string w2), <- append_assoc_string.
  rewrite trimEnd_blank_app by exact blank3.
  unfold term.
  change (String q (t +:+ String q EmptyString))
    with (String q t +:+ String q EmptyString).
  rewrite <- (append_assoc_string w2), <- append_assoc_string.
  rewrite trimEnd_last by exact quote_not_space.
  now rewrite !append_assoc_string.
Qed.

Lemma titleTerm_query : DriveQueryBuilder.titleTerm query = t.
Proof.
  unfold DriveQueryBuilder.titleTerm. rewrite trim_title_query.
  rewrite substringFrom_drop
    by (rewrite length_append_string; apply Nat.le_add_r).
  rewrite drop_length_app.
  assert (Htrim : trim (w2 +:+ term) = term).
  { rewrite <- (append_nil_r_string term) at 1.
    apply trim_quoted; [exact blank2 | reflexivity | exact quote_not_space]. }
  rewrite Htrim. cbv zeta.
  destruct (quoted_term q t) as [Hq Hsub]. fold term in Hq, Hsub.
  assert (Hor : DriveQueryBuilder.quotedBy apostrophe term
                || DriveQueryBuilder.quotedBy quotation term = true).
  { destruct quote as [-> | ->]; rewrite Hq;
      [reflexivity | apply orb_true_r]. }
  now rewrite Hor.
Qed.

Lemma title_query_is_title : JS.startsWith (trim query)
                               DriveQueryBuilder.titlePrefix = true.
Proof. rewrite trim_title_query. apply prefix_app. Qed.

End TitleSearch.

(** X11.  A title search takes its term from between the quotes: for a
    query made of [title:] and a term between two apostrophes or two
    quotation marks, with any white space before the prefix, after it and
    at the end, the Drive query searches the name for exactly the escaped
    term, whatever the term contains. *)
Theorem title_search_takes_quoted_term
    (mimeType w1 w2 w3 t : string) (q : ascii)
    (blank1 : JS.trimStart w1 = EmptyString)
    (blank2 : JS.trimStart w2 = EmptyString)
    (blank3 : JS.trimStart w3 = EmptyString)
    (quote : q = JSString.apostrophe \/ q = JSString.quotation) :
  DriveQueryBuilder.buildDriveSearchQuery mimeType
    (w1 +:+ "title:" +:+ w2 +:+ String q (t +:+ String q EmptyString) +:+ w3)
  = "mimeType='" +:+ mimeType +:+ "' and name contains '"
      +:+ DriveQueryBuilder.escapeQueryString t +:+ "'".
Proof.
  unfold DriveQueryBuilder.buildDriveSearchQuery.
  change "title:" with DriveQueryBuilder.titlePrefix.
  rewrite (title_query_is_title w1 w2 w3 t q blank1 blank3 quote).
  now rewrite (titleTerm_query w1 w2 w3 t q blank1 blank2 blank3 quote).
Qed.

(** X11, witness: the title between quotation marks, blanks around. *)
Lemma title_search_witness :
  DriveQueryBuilder.buildDriveSearchQuery "application/vnd.google-apps.document"
    ("  " +:+ "title:" +:+ " "
       +:+ String JSString.quotation
             ("Bob's plan" +:+ String JSString.quotation EmptyString) +:+ " ")
  = "mimeType='" +:+ "application/vnd.google-apps.document"
      +:+ "' and name contains '"
      +:+ DriveQueryBuilder.escapeQueryString "Bob's plan" +:+ "'".
Proof.
  apply (title_search_takes_quoted_term
           "application/vnd.google-apps.document" "  " " " " " "Bob's plan"
           JSString.quotation);
    [reflexivity | reflexivity | reflexivity | right; reflexivity].
Defined.

(** ** Document ids *)

Section DocumentIds.

Import JSString.

Lemma idRun_chars (s : string) :
  List.forallb IdUtils.isIdChar (list_ascii_of_string (IdUtils.idRun s))
  = true.
Proof.
  induction s as [|c s IH]; [reflexivity|].
  cbn [IdUtils.idRun]. destruct (IdUtils.isIdChar c) eqn:Hc; [|reflexivity].
  cbn [list_ascii_of_string List.forallb]. now rewrite Hc, IH.
Qed.

Lemma matchHere_valid (s g : string) :
  IdUtils.matchHere s = Some g -> Validation.googleDocumentIdSchema g = true.
Proof.
  unfold IdUtils.matchHere.
  destruct (JS.startsWith s "/d/"); [|discriminate].
  pose proof (idRun_chars (drop 3 s)) as Hrun.
  destruct (IdUtils.idRun (drop 3 s)) as [|c r]; [discriminate|].
  intros [= <-]. unfold Validation.googleDocumentIdSchema.
  now rewrite Hrun.
Qed.

Lemma DOC_ID_REGEX_valid (s g : string) :
  IdUtils.DOC_ID_REGEX s = Some g -> Validation.googleDocumentIdSchema g = true.
Proof.
  induction s as [|c s IH]; cbn [IdUtils.DOC_ID_REGEX].
  - destruct (IdUtils.matchHere EmptyString) eqn:Hm; [|discriminate].
    intros [= <-]. eapply matchHere_valid, Hm.
  - destruct (IdUtils.matchHere (String c s)) eqn:Hm; [|exact IH].
    intros [= <-]. eapply matchHere_valid, Hm.
Qed.

Lemma valid_nonempty (s : string) : Validation.googleDocumentIdSchema s = true -> JS.truthy (Some s) = true.
Proof.
  unfold Validation.googleDocumentIdSchema, JS.truthy.
  now intros [H _]%andb_true_iff.
Qed.

(** A string of id characters holds no [/], so the pattern matches
    nowhere in it. *)
Lemma id_chars_no_match (s : string) :
  List.forallb IdUtils.isIdChar (list_ascii_of_string s) = true ->
  IdUtils.DOC_ID_REGEX s = None.
Proof.
  induction s as [|c s IH]; [reflexivity|].
  cbn [list_ascii_of_string List.forallb]. intros [Hc Hs]%andb_true_iff.
  cbn [IdUtils.DOC_ID_REGEX].
  assert (Hm : IdUtils.matchHere (String c s) = None).
  { unfold IdUtils.matchHere, JS.startsWith. cbn [String.prefix].
    destruct (ascii_dec "/" c) as [<- | _]; [discriminate Hc | reflexivity]. }
  rewrite Hm. auto.
Qed.

Lemma valid_no_match (s : string) :
  Validation.googleDocumentIdSchema s = true -> IdUtils.DOC_ID_REGEX s = None.
Proof.
  unfold Validation.googleDocumentIdSchema.
  intros [_ H]%andb_true_iff. now apply id_chars_no_match.
Qed.

Lemma extractDocumentId_valid (s : string) :
  Validation.googleDocumentIdSchema s = true -> Validation.extractDocumentId s = Validation.Returned s.
Proof. intros H. unfold Validation.extractDocumentId. now rewrite H. Qed.

End DocumentIds.

(** X12.  Whatever [extractDocumentId] returns is a well-formed id, and
    the function returns it unchanged when given it again. *)
Theorem extractDocumentId_returns_ids (urlOrId id : string) :
  Validation.extractDocumentId urlOrId = Validation.Returned id ->
  Validation.googleDocumentIdSchema id = true
  /\ Validation.extractDocumentId id = Validation.Returned id.
Proof.
  intros H.
  assert (Hv : Validation.googleDocumentIdSchema id = true).
  { unfold Validation.extractDocumentId in H.
    destruct (Validation.googleDocumentIdSchema urlOrId) eqn:Hu.
    - now injection H as <-.
    - destruct (IdUtils.DOC_ID_REGEX urlOrId) as [g|] eqn:Hg; [|discriminate].
      destruct (JS.truthy (Some g)); [|discriminate].
      injection H as <-. eapply DOC_ID_REGEX_valid, Hg. }
  split; [exact Hv | now apply extractDocumentId_valid].
Qed.

(** X12, witness: the id taken from a document URL. *)
Lemma extractDocumentId_witness :
  Validation.googleDocumentIdSchema "abc123-XYZ_789" = true
  /\ Validation.extractDocumentId "abc123-XYZ_789"
     = Validation.Returned "abc123-XYZ_789".
Proof.
  apply (extractDocumentId_returns_ids
           "https://docs.google.com/document/d/abc123-XYZ_789/edit").
  vm_compute. reflexivity.
Defined.

(** X13.  The services' [extractDocId(id) || id] and the validating
    [extractDocumentId] resolve an argument to the same id wherever the
    latter returns one; where it throws, the services pass the argument on
    unchanged. *)
Theorem resolveId_agrees_with_validation (documentId : string) :
  IdUtils.resolveId documentId
  = match Validation.extractDocumentId documentId with
    | Validation.Returned id => id
    | Validation.Thrown _ => documentId
    end.
Proof.
  unfold IdUtils.resolveId, IdUtils.extractDocId, Validation.extractDocumentId.
  destruct (Validation.googleDocumentIdSchema documentId) eqn:Hv.
  - rewrite (valid_no_match _ Hv), (valid_nonempty _ Hv). reflexivity.
  - destruct (JS.truthy (Some documentId)) eqn:Ht; cbn [negb].
    + destruct (IdUtils.DOC_ID_REGEX documentId) as [g|] eqn:Hg;
        [|reflexivity].
      pose proof (valid_nonempty _ (DOC_ID_REGEX_valid _ _ Hg)) as Hgt.
      rewrite Hgt. unfold JS.or_default, JS.or_undefined. now rewrite Hgt.
    + destruct documentId; [reflexivity | discriminate].
Qed.

Section WorkspaceUrls.

Import JSString.

Lemma string_app_cons (c : ascii) (a b : string) :
  String c a +:+ b = String c (a +:+ b).
Proof. reflexivity. Qed.

Lemma string_app_nil (b : string) : EmptyString +:+ b = b.
Proof. reflexivity. Qed.

Lemma idRun_app (id rest : string) :
  List.forallb IdUtils.isIdChar (list_ascii_of_string id) = true ->
  IdUtils.idRun rest = EmptyString ->
  IdUtils.idRun (id +:+ rest) = id.
Proof.
  intros Hid Hrest. induction id as [|c id IH]; [exact Hrest|].
  cbn [list_ascii_of_string List.forallb] in Hid.
  apply andb_true_iff in Hid as [Hc Hid].
  rewrite string_app_cons. cbn [IdUtils.idRun]. now rewrite Hc, IH.
Qed.

Lemma matchHere_path (id rest : string) :
  Validation.googleDocumentIdSchema id = true ->
  IdUtils.idRun rest = EmptyString ->
  IdUtils.matchHere ("/d/" +:+ id +:+ rest) = Some id.
Proof.
  unfold Validation.googleDocumentIdSchema.
  intros [Hne Hid]%andb_true_iff Hrest.
  unfold IdUtils.matchHere, JS.startsWith. rewrite prefix_app.
  rewrite !string_app_cons, string_app_nil. cbn [drop].
  rewrite (idRun_app _ _ Hid Hrest).
  destruct id; [discriminate Hne | reflexivity].
Qed.

(** The emptiness of [idRun] is decided by the first character. *)
Lemma idRun_empty_head (c : ascii) (a b : string) :
  IdUtils.idRun (String c a) = EmptyString ->
  IdUtils.idRun (String c b) = EmptyString.
Proof.
  cbn [IdUtils.idRun]. destruct (IdUtils.isIdChar c); [discriminate | auto].
Qed.

Lemma matchHere_none_longer (c : ascii) (pre tail : string) :
  IdUtils.matchHere (String c (pre +:+ "/d")) = None ->
  IdUtils.matchHere (String c (pre +:+ "/d/" +:+ tail)) = None.
Proof.
  unfold IdUtils.matchHere, JS.startsWith.
  destruct pre as [|x [|y pre]];
    rewrite ?string_app_cons, ?string_app_nil; cbn [String.prefix drop].
  - intros _. destruct (ascii_dec "/" c); [|reflexivity].
    destruct (ascii_dec "d" "/"); [discriminate | reflexivity].
  - destruct (ascii_dec "/" c); [|reflexivity].
    destruct (ascii_dec "d" x); [|reflexivity].
    destruct (ascii_dec "/" "/"); [|congruence].
    cbn. discriminate.
  - destruct (ascii_dec "/" c); [|reflexivity].
    destruct (ascii_dec "d" x); [|reflexivity].
    destruct (ascii_dec "/" y); [|reflexivity].
    replace (String.prefix EmptyString (pre +:+ "/d")) with true
      by (now destruct (pre +:+ "/d")).
    replace (String.prefix EmptyString (pre +:+ "/d/" +:+ tail)) with true
      by (now destruct (pre +:+ "/d/" +:+ tail)).
    destruct pre as [|z pre]; rewrite ?string_app_cons, ?string_app_nil.
    + reflexivity.
    + destruct (IdUtils.idRun (String z (pre +:+ "/d"))) eqn:Hrun;
        [|discriminate].
      intros _. now erewrite idRun_empty_head by exact Hrun.
Qed.

Lemma DOC_ID_REGEX_skips (pre tail : string) :
  IdUtils.DOC_ID_REGEX (pre +:+ "/d") = None ->
  IdUtils.DOC_ID_REGEX (pre +:+ "/d/" +:+ tail)
  = IdUtils.DOC_ID_REGEX ("/d/" +:+ tail).
Proof.
  induction pre as [|c pre IH]; [reflexivity|].
  change (IdUtils.DOC_ID_REGEX (String c (pre +:+ "/d")) = None ->
          IdUtils.DOC_ID_REGEX (String c (pre +:+ "/d/" +:+ tail))
          = IdUtils.DOC_ID_REGEX ("/d/" +:+ tail)).
  cbn [IdUtils.DOC_ID_REGEX].
  destruct (IdUtils.matchHere (String c (pre +:+ "/d"))) eqn:Hm;
    [discriminate|].
  intros Hpre. rewrite (matchHere_none_longer _ _ tail Hm). auto.
Qed.

Lemma not_an_id (a b : string) :
  Validation.googleDocumentIdSchema (a +:+ String slash b) = false.
Proof.
  unfold Validation.googleDocumentIdSchema.
  apply andb_false_iff. right.
  induction a as [|c a IH]; [reflexivity|].
  rewrite string_app_cons. cbn [list_ascii_of_string List.forallb].
  rewrite IH. apply andb_false_r.
Qed.

Lemma app_slash_truthy (a b : string) :
  JS.truthy (Some (a +:+ String slash b)) = true.
Proof. now destruct a. Qed.

End WorkspaceUrls.

(** X14.  An id is read back from a URL that holds it: if the part before
    [/d/] offers the pattern no earlier match, [id] is a well-formed id
    and what follows does not begin with an id character, then both
    [extractDocId] and [extractDocumentId] return [id] for
    [pre/d/id rest]. *)
Theorem url_gives_its_id (pre id rest : string)
    (Hpre : IdUtils.DOC_ID_REGEX (pre +:+ "/d") = None)
    (Hid : Validation.googleDocumentIdSchema id = true)
    (Hrest : IdUtils.idRun rest = EmptyString) :
  IdUtils.extractDocId (pre +:+ "/d/" +:+ id +:+ rest) = Some id
  /\ Validation.extractDocumentId (pre +:+ "/d/" +:+ id +:+ rest)
     = Validation.Returned id.
Proof.
  assert (Hm : IdUtils.DOC_ID_REGEX (pre +:+ "/d/" +:+ id +:+ rest) = Some id).
  { rewrite (DOC_ID_REGEX_skips _ _ Hpre).
    pose proof (matchHere_path _ _ Hid Hrest) as Hh.
    destruct ("/d/" +:+ id +:+ rest) eqn:Hs;
      cbn [IdUtils.DOC_ID_REGEX]; now rewrite Hh. }
  pose proof (valid_nonempty _ Hid) as Ht.
  unfold IdUtils.extractDocId, Validation.extractDocumentId.
  rewrite Hm, Ht.
  change ("/d/" +:+ id +:+ rest)
    with (String JSString.slash ("d/" +:+ id +:+ rest)).
  now rewrite not_an_id, app_slash_truthy.
Qed.

(** X14, witness: a spreadsheet URL. *)
Lemma url_gives_its_id_witness :
  IdUtils.extractDocId
    ("https://docs.google.com/spreadsheets" +:+ "/d/" +:+ "1MGq-b_5" +:+ "/edit#gid=0")
  = Some "1MGq-b_5"
  /\ Validation.extractDocumentId
       ("https://docs.google.com/spreadsheets" +:+ "/d/" +:+ "1MGq-b_5" +:+ "/edit#gid=0")
     = Validation.Returned "1MGq-b_5".
Proof.
  apply (url_gives_its_id "https://docs.google.com/spreadsheets" "1MGq-b_5"
           "/edit#gid=0");
    vm_compute; reflexivity.
Defined.

(** ** Paragraph breaks *)

Section LineBreaks.

Import JSString MarkdownToDocsRequests.

Lemma startsWith_newline (s : string) :
  JS.startsWith s (String newline EmptyString)
  = match s with
    | String c _ => Ascii.eqb c newline
    | EmptyString => false
    end.
Proof.
  unfold JS.startsWith. destruct s as [|c s]; [reflexivity|].
  cbn [String.prefix]. destruct (ascii_dec newline c) as [<- | Hne].
  - now destruct s.
  - symmetry. apply Ascii.eqb_neq. congruence.
Qed.

(** After a break that was kept, or inside a replaced run, the output does
    not begin with a break that would make three. *)
Lemma replaced_at_most_double (s : string) :
  atMostDouble 0 (replaceLineBreaks false s) = true
  /\ (forall k, atMostDouble k (replaceLineBreaks true s) = true)
  /\ (JS.startsWith s (String newline EmptyString) = false ->
      forall k, atMostDouble k (replaceLineBreaks false s) = true).
Proof.
  induction s as [|c s (IH0 & IH1 & IH2)]; [now cbn|].
  rewrite (startsWith_newline (String c s)).
  cbn [replaceLineBreaks]. destruct (Ascii.eqb c newline) eqn:Hc.
  - split; [|split; [exact IH1 | discriminate]].
    destruct (JS.startsWith s (String newline EmptyString)) eqn:Hs.
    + cbn [atMostDouble]. rewrite Ascii.eqb_refl. cbn. apply IH1.
    + cbn [atMostDouble]. rewrite Hc. cbn. now apply IH2.
  - cbn [atMostDouble]. rewrite Hc. auto.
Qed.

Lemma at_most_double_unchanged (s : string) :
  (forall k, atMostDouble k s = true -> replaceLineBreaks false s = s)
  /\ (atMostDouble 2 s = true -> replaceLineBreaks true s = s)
  /\ (atMostDouble 1 s = true ->
      replaceLineBreaks true s
      = if JS.startsWith s (String newline EmptyString) then drop 1 s else s).
Proof.
  induction s as [|c s (IH0 & IH2 & IH1)]; [now cbn|].
  rewrite (startsWith_newline (String c s)).
  cbn [replaceLineBreaks atMostDouble drop].
  destruct (Ascii.eqb c newline) eqn:Hc.
  - apply Ascii.eqb_eq in Hc. subst c. split; [|split].
    + intros k [Hk Hs]%andb_true_iff.
      destruct (JS.startsWith s (String newline EmptyString)) eqn:Hn.
      * rewrite startsWith_newline in Hn.
        destruct s as [|d s]; [discriminate|].
        apply Ascii.eqb_eq in Hn. subst d.
        cbn [atMostDouble] in Hs. rewrite Ascii.eqb_refl in Hs.
        apply andb_true_iff in Hs as [Hk' Hs].
        apply Nat.ltb_lt in Hk'. assert (k = 0%nat) as -> by lia.
        rewrite IH1; [|cbn [atMostDouble]; now rewrite Ascii.eqb_refl, Hs].
        reflexivity.
      * now rewrite (IH0 _ Hs).
    + discriminate.
    + cbn [andb Nat.ltb Nat.leb]. intros Hs. now apply IH2.
  - split; [|split]; intros; f_equal; eapply IH0; eauto.
Qed.

Lemma replaced_same_text (inRun : bool) (s : string) :
  withoutLineBreaks (replaceLineBreaks inRun s) = withoutLineBreaks s.
Proof.
  revert inRun. induction s as [|c s IH]; intros inRun; [reflexivity|].
  cbn [replaceLineBreaks withoutLineBreaks].
  destruct (Ascii.eqb c newline) eqn:Hc.
  - destruct inRun; [apply IH|].
    destruct (JS.startsWith s (String newline EmptyString)).
    + cbn [withoutLineBreaks]. rewrite Ascii.eqb_refl. apply IH.
    + cbn [withoutLineBreaks]. rewrite Hc. apply IH.
  - cbn [withoutLineBreaks]. rewrite Hc. now rewrite IH.
Qed.

End LineBreaks.

(** X15.  [processMarkdownLineBreaks] leaves no three line breaks in a
    row and changes nothing but line breaks; applied a second time it does
    nothing. *)
Theorem line_breaks_collapsed (text : string) :
  let result := MarkdownToDocsRequests.processMarkdownLineBreaks text in
  MarkdownToDocsRequests.atMostDouble 0 result = true
  /\ MarkdownToDocsRequests.withoutLineBreaks result
     = MarkdownToDocsRequests.withoutLineBreaks text
  /\ MarkdownToDocsRequests.processMarkdownLineBreaks result = result.
Proof.
  unfold MarkdownToDocsRequests.processMarkdownLineBreaks. cbv zeta.
  pose proof (replaced_at_most_double text) as (H0 & _ & _).
  repeat split.
  - exact H0.
  - apply replaced_same_text.
  - apply (proj1 (at_most_double_unchanged _) _ H0).
Qed.

(** X16.  A text without three line breaks in a row comes back from
    [processMarkdownLineBreaks] unchanged: single breaks and paragraph
    breaks are kept as they are. *)
Theorem paragraph_breaks_kept (text : string) :
  MarkdownToDocsRequests.atMostDouble 0 text = true ->
  MarkdownToDocsRequests.processMarkdownLineBreaks text = text.
Proof. apply (proj1 (at_most_double_unchanged text)). Qed.

(** X16, witness: a single break and a paragraph break. *)
Lemma paragraph_breaks_witness :
  let text :=
    "one" +:+ String JSString.newline ("two" +:+ String JSString.newline
      (String JSString.newline "three")) in
  MarkdownToDocsRequests.processMarkdownLineBreaks text = text.
Proof.
  cbv zeta. apply paragraph_breaks_kept. vm_compute. reflexivity.
Defined.

(** ** The occurrences counted by [replaceText] *)

Section Occurrences.

Import JSString DocsService.

Lemma prefix_nil (s : string) : String.prefix EmptyString s = true.
Proof. now destruct s. Qed.

Lemma prefix_nonempty (find : string) :
  find <> EmptyString -> String.prefix find EmptyString = false.
Proof. now destruct find. Qed.

Lemma drop_nil (n : nat) : drop n EmptyString = EmptyString.
Proof. now destruct n. Qed.

Lemma drop_drop (m k : nat) (s : string) :
  drop k (drop m s) = drop (m + k) s.
Proof.
  revert s. induction m as [|m IH]; intros s; [reflexivity|].
  destruct s as [|c s]; [now rewrite !drop_nil | apply IH].
Qed.

Lemma length_drop (n : nat) (s : string) :
  String.length (drop n s) = (String.length s - n)%nat.
Proof.
  revert s. induction n as [|n IH]; intros s; [cbn; lia|].
  destruct s as [|c s]; [reflexivity | apply IH].
Qed.

Lemma substring_at (i n : nat) (s : string) :
  String.substring i n s = String.substring 0 n (drop i s).
Proof.
  revert s. induction i as [|i IH]; intros s; [reflexivity|].
  destruct s as [|c s]; [now destruct n | apply IH].
Qed.

Lemma prefix_length (p s : string) :
  String.prefix p s = true -> (String.length p <= String.length s)%nat.
Proof.
  revert s. induction p as [|c p IH]; intros s; [cbn; lia|].
  destruct s as [|d s]; [discriminate|]. cbn.
  destruct (ascii_dec c d); [|discriminate].
  intros H. apply IH in H. lia.
Qed.

(** [indexOfAt] finds an occurrence, and the first one. *)
Lemma indexOfAt_spec (find s : string) (pos : nat) :
  match indexOfAt find s pos with
  | Some i =>
      exists k, i = (pos + k)%nat
        /\ String.prefix find (drop k s) = true
        /\ forall j, (j < k)%nat -> String.prefix find (drop j s) = false
  | None => forall j, String.prefix find (drop j s) = false
  end.
Proof.
  revert pos. induction s as [|c s IH]; intros pos; cbn [indexOfAt].
  - destruct (String.prefix find EmptyString) eqn:Hp.
    + exists 0%nat. rewrite Nat.add_0_r. repeat split; [exact Hp | lia].
    + intros j. now rewrite drop_nil.
  - destruct (String.prefix find (String c s)) eqn:Hp.
    + exists 0%nat. rewrite Nat.add_0_r. repeat split; [exact Hp | lia].
    + specialize (IH (S pos)).
      destruct (indexOfAt find s (S pos)) as [i|].
      * destruct IH as (k & -> & Hk & Hmin). exists (S k).
        repeat split; [lia | exact Hk |].
        intros [|j] Hj; [exact Hp | apply Hmin; lia].
      * intros [|j]; [exact Hp | apply IH].
Qed.

(** [indexOf] from a position within the text, for a text to find that is
    not empty. *)
Lemma indexOf_spec (doc find : string) (from : nat) :
  find <> EmptyString ->
  match indexOf doc find from with
  | Some i =>
      (from <= i)%nat
      /\ (i + String.length find <= String.length doc)%nat
      /\ String.prefix find (drop i doc) = true
      /\ forall p, (from <= p < i)%nat ->
           String.prefix find (drop p doc) = false
  | None =>
      forall p, (from <= p)%nat -> String.prefix find (drop p doc) = false
  end.
Proof.
  intros Hne. unfold indexOf.
  set (k := Nat.min from (String.length doc)).
  pose proof (indexOfAt_spec find (drop k doc) k) as H.
  assert (Hbeyond : forall p, (String.length doc <= p)%nat ->
            String.prefix find (drop p doc) = false).
  { intros p Hp. pose proof (length_drop p doc) as Hl.
    destruct (drop p doc); [now apply prefix_nonempty | cbn in Hl; lia]. }
  destruct (indexOfAt find (drop k doc) k) as [i|].
  - destruct H as (j & -> & Hj & Hmin). rewrite drop_drop in Hj.
    pose proof (prefix_length _ _ Hj) as Hlen. rewrite length_drop in Hlen.
    assert (Hfind : (0 < String.length find)%nat)
      by (destruct find; [congruence | cbn; lia]).
    assert (Hin : (k + j < String.length doc)%nat).
    { destruct (Nat.lt_ge_cases (k + j) (String.length doc)) as [|Hge];
        [assumption|]. rewrite (Hbeyond _ Hge) in Hj. discriminate. }
    repeat split; [lia | lia | exact Hj |].
    intros p Hp. replace p with (k + (p - k))%nat by lia.
    rewrite <- drop_drop. apply Hmin. lia.
  - intros p Hp.
    destruct (Nat.lt_ge_cases p (String.length doc)) as [Hlt|Hge];
      [|now apply Hbeyond].
    replace p with (k + (p - k))%nat by lia.
    rewrite <- drop_drop. apply H.
Qed.

(** The loop from [searchIndex] on. *)
Lemma occurrences_from (doc find : string) (fuel from : nat) :
  find <> EmptyString ->
  (String.length doc - from < fuel)%nat ->
  exists occs,
    occurrences fuel doc find from = Some occs
    /\ Forall (fun o =>
         (from < o)%nat
         /\ slice doc (o - 1) (String.length find) = find) occs
    /\ spaced (String.length find) occs
    /\ forall p, (from <= p)%nat ->
         String.prefix find (drop p doc) = true ->
         Exists (fun o => (o - 1 <= p < o - 1 + String.length find)%nat) occs.
Proof.
  intros Hne. revert from.
  induction fuel as [|fuel IH]; intros from Hfuel; [lia|].
  cbn [occurrences]. pose proof (indexOf_spec doc find from Hne) as Hi.
  destruct (indexOf doc find from) as [i|].
  - destruct Hi as (Hfrom & Hfit & Hocc & Hmin).
    assert (Hfind : (0 < String.length find)%nat)
      by (destruct find; [congruence | cbn; lia]).
    destruct (IH (i + String.length find)%nat ltac:(lia))
      as (occs & -> & Hall & Hsorted & Hcomplete).
    exists ((i + 1)%nat :: occs). cbn [option_map].
    split; [reflexivity|]. split; [|split].
    + constructor.
      * split; [lia|]. unfold slice.
        replace (i + 1 - 1)%nat with i by lia.
        rewrite substring_at. now apply prefix_correct.
      * eapply Forall_impl; [exact Hall|]. cbn. intros o [Ho Hs].
        split; [lia | exact Hs].
    + destruct occs as [|b occs]; [exact I|]. split; [|exact Hsorted].
      apply Forall_cons in Hall as [[Hb _] _]. lia.
    + intros p Hp Hpre.
      destruct (Nat.lt_ge_cases p (i + String.length find)) as [Hlt|Hge].
      * apply Exists_cons_hd.
        destruct (Nat.lt_ge_cases p i) as [Hpi|Hpi]; [|lia].
        rewrite Hmin in Hpre by lia. discriminate.
      * apply Exists_cons_tl. now apply Hcomplete.
  - exists []. split; [reflexivity|]. split; [constructor|].
    split; [exact I|]. intros p Hp Hpre.
    rewrite (Hi p Hp) in Hpre. discriminate.
Qed.

End Occurrences.

(** X17.  For a text to find that is not empty, the loop of [replaceText]
    ends within as many rounds as the document has characters, plus one.
    Each position it records is one more than the index of an occurrence,
    the recorded occurrences do not overlap and come in order, and every
    occurrence in the document starts inside a recorded one. *)
Theorem occurrences_found (documentText findText : string) (fuel : nat) :
  findText <> EmptyString ->
  (String.length documentText < fuel)%nat ->
  exists occs,
    DocsService.occurrences fuel documentText findText 0 = Some occs
    /\ Forall (fun o =>
         (1 <= o)%nat
         /\ DocsService.slice documentText (o - 1) (String.length findText)
            = findText) occs
    /\ DocsService.spaced (String.length findText) occs
    /\ forall p,
         DocsService.slice documentText p (String.length findText) = findText ->
         Exists (fun o =>
           (o - 1 <= p < o - 1 + String.length findText)%nat) occs.
Proof.
  intros Hne Hfuel.
  destruct (occurrences_from documentText findText fuel 0 Hne ltac:(lia))
    as (occs & Hrun & Hall & Hsorted & Hcomplete).
  exists occs. split; [exact Hrun|]. split; [|split; [exact Hsorted|]].
  - eapply Forall_impl; [exact Hall|]. cbn. intros o [Ho Hs].
    split; [lia | exact Hs].
  - intros p Hp. apply Hcomplete; [lia|].
    apply prefix_correct. unfold DocsService.slice in Hp.
    now rewrite substring_at in Hp.
Qed.

(** X17, witness: three occurrences in eight characters. *)
Lemma occurrences_found_witness :
  exists occs,
    DocsService.occurrences 9 "abcabcab" "ab" 0 = Some occs
    /\ Forall (fun o =>
         (1 <= o)%nat
         /\ DocsService.slice "abcabcab" (o - 1) (String.length "ab") = "ab")
         occs
    /\ DocsService.spaced (String.length "ab") occs
    /\ forall p,
         DocsService.slice "abcabcab" p (String.length "ab") = "ab" ->
         Exists (fun o => (o - 1 <= p < o - 1 + String.length "ab")%nat) occs.
Proof.
  apply (occurrences_found "abcabcab" "ab" 9); [discriminate | cbn; lia].
Defined.

Section ArrayOfOccurrences.

Import JSString DocsService.

Lemma indexOf_empty (documentText : string) (i : nat) :
  indexOf documentText EmptyString i
  = Some (Nat.min i (String.length documentText)).
Proof. unfold indexOf. now destruct (drop _ documentText). Qed.

(** With an empty text to find, the loop goes on until the array is
    full. *)
Lemma collect_empty (capacity fuel : nat) (documentText : string)
    (i : nat) (recorded : list nat) :
  collect capacity fuel documentText EmptyString i recorded
  = if (fuel <=? capacity - List.length recorded)%nat
    then None else Some InvalidArrayLength.
Proof.
  revert i recorded. induction fuel as [|fuel IH]; intros i recorded;
    [reflexivity|].
  cbn [collect]. rewrite indexOf_empty.
  destruct (Nat.ltb_spec (List.length recorded) capacity) as [Hlt|Hge].
  - rewrite IH, length_app. cbn [List.length].
    destruct (Nat.leb_spec fuel (capacity - (List.length recorded + 1)));
      destruct (Nat.leb_spec (S fuel) (capacity - List.length recorded));
      (reflexivity || lia).
  - destruct (Nat.leb_spec (S fuel) (capacity - List.length recorded));
      (reflexivity || lia).
Qed.

(** As long as the array has room, the loop with the array records what
    the loop without it does. *)
Lemma collect_occurrences (capacity fuel : nat) (documentText findText : string)
    (i : nat) (recorded occs : list nat) :
  occurrences fuel documentText findText i = Some occs ->
  (List.length recorded + List.length occs <= capacity)%nat ->
  collect capacity fuel documentText findText i recorded
  = Some (Positions (recorded ++ occs)).
Proof.
  revert i recorded occs.
  induction fuel as [|fuel IH]; intros i recorded occs; [discriminate|].
  cbn [occurrences collect].
  destruct (indexOf documentText findText i) as [k|].
  - destruct (occurrences fuel documentText findText
                (k + String.length findText)) as [rest|] eqn:Hrest;
      [|discriminate].
    intros [= <-] Hroom. cbn [List.length] in Hroom.
    destruct (Nat.ltb_spec (List.length recorded) capacity) as [Hlt|Hge];
      [|lia].
    rewrite (IH _ _ rest Hrest) by (rewrite length_app; cbn; lia).
    now rewrite <- app_assoc.
  - intros [= <-] _. now rewrite app_nil_r.
Qed.

End ArrayOfOccurrences.

(** X18.  With an empty text to find, the loop of [replaceText] does not
    end by its condition: [indexOf] finds the empty text at the search
    index itself and the index does not advance, so every round records a
    position.  The loop is still running after as many rounds as the array
    can hold elements, and the next [push] ends it with the
    "Invalid array length" error. *)
Theorem empty_find_fills_array (capacity fuel : nat) (documentText : string)
    (searchIndex : nat) :
  JSString.indexOf documentText EmptyString searchIndex
  = Some (Nat.min searchIndex (String.length documentText))
  /\ DocsService.collect capacity fuel documentText EmptyString searchIndex []
     = if (fuel <=? capacity)%nat
       then None else Some DocsService.InvalidArrayLength.
Proof.
  split; [apply indexOf_empty|].
  rewrite collect_empty. cbn [List.length]. now rewrite Nat.sub_0_r.
Qed.

(** X19.  When the array has room for them, the loop of [replaceText]
    with its array ends by its condition with exactly the positions that
    the loop without the array records. *)
Theorem array_holds_occurrences (capacity fuel : nat)
    (documentText findText : string) (occs : list nat) :
  DocsService.occurrences fuel documentText findText 0 = Some occs ->
  (List.length occs <= capacity)%nat ->
  DocsService.collect capacity fuel documentText findText 0 []
  = Some (DocsService.Positions occs).
Proof.
  intros Hocc Hroom.
  now apply (collect_occurrences capacity fuel documentText findText 0 [] occs).
Qed.

(** X19, witness: three occurrences and an array that holds three. *)
Lemma array_holds_occurrences_witness :
  DocsService.collect 3 9 "abcabcab" "ab" 0 []
  = Some (DocsService.Positions [1%nat; 4%nat; 7%nat]).
Proof.
  apply (array_holds_occurrences 3 9 "abcabcab" "ab" [1%nat; 4%nat; 7%nat]);
    [reflexivity | cbn; lia].
Defined.
